(** * riskystrats-server: the simulation engine and the rooms

    A shallow embedding of [src/Game.ts], [src/Map/MapNode.ts],
    [src/Map/MapArmy.ts] and of the part of [src/Room.ts] that decides who
    plays, and the properties of the engine and of the rooms.

    Conventions of the embedding.
    - A reference to a [MapNode] object is the position of that node in
      [map.nodes].  The constructor of [Map] gives every node the id
      [this.nodes.length] just before pushing it, so a node's [id] and its
      position coincide, and [this.map.nodes[id]] is the node itself.
    - Troop counts, progress along an edge and tick numbers are JavaScript
      numbers that only ever hold integers: they are [Z].
    - Coordinates, edge lengths and combat losses are JavaScript numbers
      holding fractions: doubles.  A double is the rational [Q] it stands
      for, and every operation of JavaScript on doubles is the exact
      operation followed by the rounding [double] to the nearest double;
      [Infinity] is added where the code uses it.
    - [Math.sqrt] and [Math.random] are parameters (class [JSMath]), and so
      is the rounding [double], with the laws of rounding to nearest; the
      successive draws of [Math.random] are numbered, and the functions that
      draw thread the number of the next draw.  [binary64] is the rounding
      of the IEEE 754 doubles themselves, and the runtime of the examples.
    - Objects mutated through several references (the armies of the array
      that [MapArmy.tick] walks, the nodes they point to) live in one store
      (the list of nodes, the list of armies) that every step reads and
      updates by position. *)

From Stdlib Require Import ZArith QArith Qround Qminmax Qabs Qpower Lia Lqa List Bool.
From stdpp Require Import base decidable option list.

Local Open Scope Z_scope.

(** ** The JavaScript runtime the engine relies on

    [double v] is the double nearest to the rational [v]: what JavaScript
    returns for an operation whose exact result is [v].  Its laws are those
    of rounding to nearest with 53 bits: it keeps the order, the sign and the
    doubles themselves, among them every [m * 2 ^ e] with [m] of at most 53
    bits, and it moves a number by no more than the 2^53rd part of it.  They
    hold of the doubles as long as no result overflows to [Infinity] or
    falls below the least normal double, which is left out.

    [Math.random()] returns a double below 1, so at most [1 - 2^-53]. *)

Class JSMath := {
  double : Q -> Q;
  double_proper : forall a b : Q, (a == b)%Q -> (double a == double b)%Q;
  double_mono : forall a b : Q, (a <= b)%Q -> (double a <= double b)%Q;
  double_opp : forall a : Q, (double (- a) == - double a)%Q;
  double_idem : forall a : Q, (double (double a) == double a)%Q;
  double_exact : forall m e : Z,
      Z.abs m <= 2 ^ 53 -> (double (inject_Z m * 2 ^ e) == inject_Z m * 2 ^ e)%Q;
  double_error : forall a : Q, (Qabs (double a - a) <= Qabs a * (1 # 2 ^ 53))%Q;
  Math_sqrt : Q -> Q;
  Math_sqrt_nonneg : forall v : Q, (0 <= Math_sqrt v)%Q;
  Math_random : nat -> Q;
  Math_random_range : forall n : nat, (0 <= Math_random n /\ Math_random n < 1)%Q;
  Math_random_double : forall n : nat, (Math_random n <= 1 - (1 # 2 ^ 53))%Q
}.

(** [Math.round]: the nearest integer, halves going up. *)
Definition Math_round (v : Q) : Z := Qfloor (v + (1 # 2))%Q.

(** [Math.ceil]. *)
Definition Math_ceil (v : Q) : Z := Qceiling v.

(** [a < b] on rationals, as a boolean. *)
Definition Qltb (a b : Q) : bool := negb (Qle_bool b a).

(** A JavaScript number that may be [Infinity] (the [dist] table of the router). *)
Inductive ext : Type :=
| Fin (q : Q)
| Infinity.

Definition ext_ltb (a b : ext) : bool :=
  match a, b with
  | Fin p, Fin q => Qltb p q
  | Fin _, Infinity => true
  | Infinity, _ => false
  end.

(** [a + w] *)
Definition ext_add `{JSMath} (a : ext) (w : Q) : ext :=
  match a with
  | Fin p => Fin (double (p + w))
  | Infinity => Infinity
  end.

Definition is_Infinity (a : ext) : bool :=
  match a with
  | Infinity => true
  | Fin _ => false
  end.

(** What a call can do: return, throw (a property read on [undefined]), or
    never come back (the bounded unrolling of a [while] loop ran out). *)
Inductive result (A : Type) : Type :=
| Ok (a : A)
| Throws
| Diverges.
Arguments Ok {A} a.
Arguments Throws {A}.
Arguments Diverges {A}.

Definition bind {A B : Type} (m : result A) (k : A -> result B) : result B :=
  match m with
  | Ok a => k a
  | Throws => Throws
  | Diverges => Diverges
  end.

Notation "'let*' x ':=' m 'in' k" := (bind m (fun x => k))
  (at level 10, x pattern, m at level 100, k at level 200).

(** ** Player.Team *)

Module Player.

Inductive Team : Type :=
| Neutral | Red | Blue | Green | Yellow | Orange | Purple.

#[global] Instance Team_eq_dec : EqDecision Team.
Proof. solve_decision. Defined.

(** The member of the enum that a number is ([i + 1 as Player.Team]); the
    numbers past the last member do not occur. *)
Definition ofNumber (n : nat) : Team :=
  match n with
  | 0%nat => Neutral
  | 1%nat => Red
  | 2%nat => Blue
  | 3%nat => Green
  | 4%nat => Yellow
  | 5%nat => Orange
  | _ => Purple
  end.

End Player.

(** ** MapNode *)

Module MapNode.

Inductive NodeType : Type :=
| Normal | Factory | PowerPlant | Fort | Artillery.

#[global] Instance NodeType_eq_dec : EqDecision NodeType.
Proof. solve_decision. Defined.

Record MapNode : Type := mk {
  x : Q;
  y : Q;
  adj : list nat;
  team : Player.Team;
  troops : Z;
  type : NodeType;
  assign : option nat;
  wasAttacked : bool
}.

Definition set_team (v : Player.Team) (n : MapNode) : MapNode :=
  mk (x n) (y n) (adj n) v (troops n) (type n) (assign n) (wasAttacked n).
Definition set_troops (v : Z) (n : MapNode) : MapNode :=
  mk (x n) (y n) (adj n) (team n) v (type n) (assign n) (wasAttacked n).
Definition set_type (v : NodeType) (n : MapNode) : MapNode :=
  mk (x n) (y n) (adj n) (team n) (troops n) v (assign n) (wasAttacked n).
Definition set_assign (v : option nat) (n : MapNode) : MapNode :=
  mk (x n) (y n) (adj n) (team n) (troops n) (type n) v (wasAttacked n).
Definition set_wasAttacked (v : bool) (n : MapNode) : MapNode :=
  mk (x n) (y n) (adj n) (team n) (troops n) (type n) (assign n) v.

(** A node never read by a well-formed game: what a dangling position reads. *)
Definition blank : MapNode :=
  mk 0 0 [] Player.Neutral 0 Normal None false.

(** [nodes[i]] for a reference [i]. *)
Definition get (nodes : list MapNode) (i : nat) : MapNode :=
  default blank (nodes !! i).

Section WithMath.
Context `{JSMath}.

Definition distance (p q : MapNode) : Q :=
  Math_sqrt (double (double (double (x p - x q) * double (x p - x q))
                     + double (double (y p - y q) * double (y p - y q))))%Q.

Definition intDistance (p q : MapNode) : Z :=
  Math_round (distance p q).

End WithMath.

(** The [mult] of [tick]: one, plus one for every adjacent node of the same
    team holding a power plant. *)
Definition powered (nodes : list MapNode) (this : MapNode) (a : nat) : bool :=
  bool_decide (team (get nodes a) = team this)
  && bool_decide (type (get nodes a) = PowerPlant).

Definition mult (nodes : list MapNode) (this : MapNode) : Z :=
  fold_left (fun m a => if powered nodes this a then m + 1 else m) (adj this) 1.

(** [tick(tickNumber)]: the production step of one node. *)
Definition tick (nodes : list MapNode) (this : MapNode) (tickNumber : Z) : MapNode :=
  if negb (Z.rem tickNumber 2 =? 0) || wasAttacked this then
    set_wasAttacked false this
  else if bool_decide (type this = Factory) then
    set_troops (troops this + mult nodes this * 2) this
  else
    set_troops (troops this + 1) this.

Section WithMath.
Context `{JSMath}.

(** [orientation(p, q, r)]: 0 collinear, 1 and 2 the two turns. *)
Definition orientation (p q r : MapNode) : Z :=
  let val := double (double (double (y q - y p) * double (x r - x q))
                     - double (double (x q - x p) * double (y r - y q)))%Q in
  if Qltb 0 val then 1 else if Qltb val 0 then 2 else 0.

(** [onSegment(p, q, r)]: [q] is in the box of corners [p] and [r]. *)
Definition onSegment (p q r : MapNode) : bool :=
  Qle_bool (x q) (Qmax (x p) (x r))
  && Qle_bool (Qmin (x p) (x r)) (x q)
  && Qle_bool (y q) (Qmax (y p) (y r))
  && Qle_bool (Qmin (y p) (y r)) (y q).

(** [doIntersect(p1, q1, p2, q2)] *)
Definition doIntersect (p1 q1 p2 q2 : MapNode) : bool :=
  let o1 := orientation p1 q1 p2 in
  let o2 := orientation p1 q1 q2 in
  let o3 := orientation p2 q2 p1 in
  let o4 := orientation p2 q2 q1 in
  if negb (o1 =? o2) && negb (o3 =? o4) then true
  else if (o1 =? 0) && onSegment p1 p2 q1 then true
  else if (o2 =? 0) && onSegment p1 q2 q1 then true
  else if (o3 =? 0) && onSegment p2 p1 q2 then true
  else if (o4 =? 0) && onSegment p2 q1 q2 then true
  else false.

End WithMath.

(** [MapNodeJSON] *)
Record MapNodeJSON : Type := mkJSON {
  json_x : Q;
  json_y : Q;
  json_id : Z;
  json_team : Player.Team;
  json_troops : Z;
  json_type : NodeType;
  json_assign : Z;
  json_adj : list Z
}.

(** [toJSON()], for the node of id [id]: the ids of the nodes it refers to,
    [-1] for no standing order. *)
Definition toJSON (id : nat) (this : MapNode) : MapNodeJSON :=
  mkJSON (x this) (y this) (Z.of_nat id) (team this) (troops this) (type this)
         (match assign this with
          | Some target => Z.of_nat target
          | None => -1
          end)
         (fold_left (fun adj otherNode => adj ++ [Z.of_nat otherNode]) (adj this) []).

End MapNode.

(** ** MapArmy *)

Module MapArmy.

Record MapArmy : Type := mk {
  from : nat;
  to : nat;
  troops : Z;
  team : Player.Team;
  finalDest : nat;
  id : Z;
  distance : Z
}.

Definition set_troops (v : Z) (a : MapArmy) : MapArmy :=
  mk (from a) (to a) v (team a) (finalDest a) (id a) (distance a).
Definition set_distance (v : Z) (a : MapArmy) : MapArmy :=
  mk (from a) (to a) (troops a) (team a) (finalDest a) (id a) v.

(** [new MapArmy(from, to, troops, team, finalDest, id)]: [distance] starts at 0. *)
Definition new (from to : nat) (troops : Z) (team : Player.Team)
    (finalDest : nat) (id : Z) : MapArmy :=
  mk from to troops team finalDest id 0.

(** An army never read by a well-formed walk of the array. *)
Definition blank : MapArmy := mk 0 0 0 Player.Neutral 0 0 0.

Definition get (armies : list MapArmy) (i : nat) : MapArmy :=
  default blank (armies !! i).

(** [MapArmyJSON] *)
Record MapArmyJSON : Type := mkJSON {
  json_from : nat;
  json_to : nat;
  json_troops : Z;
  json_distance : Z;
  json_team : Player.Team;
  json_id : Z
}.

Definition toJSON (this : MapArmy) : MapArmyJSON :=
  mkJSON (from this) (to this) (troops this) (distance this) (team this) (id this).

Definition sameDirection (a b : MapArmy) : bool :=
  (to a =? to b)%nat && (from a =? from b)%nat.

Definition oppositeDirection (a b : MapArmy) : bool :=
  (to a =? from b)%nat && (from a =? to b)%nat.

Definition areCollidingTail (a b : MapArmy) : bool :=
  sameDirection a b && (distance a =? distance b - 1).

Section WithMath.
Context `{JSMath}.

(** The static properties: the quotient [1 / 80] and the literal [0.1], as
    doubles. *)
Definition lossMeanRatio : Q := double (1 / 80).
Definition lossRadius : Q := double (1 # 10).

Definition areCollidingHead (nodes : list MapNode.MapNode) (a b : MapArmy) : bool :=
  oppositeDirection a b
  && (distance a + distance b
      =? MapNode.intDistance (MapNode.get nodes (to a)) (MapNode.get nodes (from a)) - 1).

(** One randomized mean-ratio loss: [troops * lossMeanRatio *
    (1 - lossRadius + Math.random() * 2 * lossRadius)], with draw number [s]. *)
Definition meanLoss (troops : Z) (s : nat) : Q :=
  double (double (inject_Z troops * lossMeanRatio)
          * double (double (1 - lossRadius)
                    + double (double (Math_random s * 2) * lossRadius)))%Q.

(** The locals [lossesA] and [lossesB] of [battle] once both pools are
    positive, and the number of the next draw. *)
Definition battleLosses (troopsA troopsB : Z) (s : nat) : Q * Q * nat :=
  if troopsA <? troopsB then
    let lossesB := meanLoss troopsB s in
    let lossesA := double (lossesB * double (inject_Z troopsB / inject_Z troopsA))%Q in
    (lossesA, lossesB, S s)
  else if troopsA >? troopsB then
    let lossesA := meanLoss troopsA s in
    let lossesB := double (lossesA * double (inject_Z troopsA / inject_Z troopsB))%Q in
    (lossesA, lossesB, S s)
  else
    let lossesA := meanLoss troopsA s in
    let lossesB := meanLoss troopsB (S s) in
    (lossesA, lossesB, S (S s)).

(** [battle(troopsA, troopsB, multA, multB)] *)
Definition battle (troopsA troopsB : Z) (multA multB : Q) (s : nat) : (Z * Z) * nat :=
  if (troopsA <=? 0) || (troopsB <=? 0) then
    ((Z.max troopsA 0, Z.max troopsB 0), s)
  else
    let '(lossesA, lossesB, s') := battleLosses troopsA troopsB s in
    ((troopsA - Math_ceil (double (lossesA * multA)),
      troopsB - Math_ceil (double (lossesB * multB))), s').

(** Does the army's origin node belong to the army's team and hold artillery? *)
Definition hasArtillery (nodes : list MapNode.MapNode) (a : MapArmy) : bool :=
  bool_decide (MapNode.team (MapNode.get nodes (from a)) = team a)
  && bool_decide (MapNode.type (MapNode.get nodes (from a)) = MapNode.Artillery).

(** The store [MapArmy.tick] works on: the nodes, the sorted array of
    armies, the armies to send, the number of the next random draw. *)
Record store : Type := mkStore {
  st_nodes : list MapNode.MapNode;
  st_armies : list MapArmy;
  st_toSend : list (nat * nat * Z);
  st_seed : nat
}.

(** [battleNode(node, army)], with [node] at position [n] of the nodes and
    [army] at position [i] of the armies. *)
Definition battleNode (n i : nat) (st : store) : store :=
  let node := MapNode.get (st_nodes st) n in
  let army := get (st_armies st) i in
  let nodeMult : Q := 1%Q in
  let nodeMult := if bool_decide (MapNode.type node = MapNode.Fort)
                  then double (nodeMult * (1 # 2))%Q else nodeMult in
  let nodeMult := if hasArtillery (st_nodes st) army
                  then double (nodeMult * 2)%Q else nodeMult in
  let armyMult : Q := if bool_decide (MapNode.type node = MapNode.Artillery) then 2%Q else 1%Q in
  let '((newNodeTroops, newArmyTroops), s') :=
    battle (MapNode.troops node) (troops army) nodeMult armyMult (st_seed st) in
  let '(node', army') :=
    if newNodeTroops <=? 0 then
      let node1 := MapNode.set_assign None (MapNode.set_type MapNode.Normal node) in
      let army1 := set_troops 0 army in
      if newArmyTroops >? 0 then
        (MapNode.set_troops newArmyTroops (MapNode.set_team (team army) node1), army1)
      else if newArmyTroops <=? 0 then
        (MapNode.set_troops 0 (MapNode.set_team Player.Neutral node1), army1)
      else (node1, army1)
    else
      (MapNode.set_troops newNodeTroops node, set_troops newArmyTroops army) in
  mkStore (<[n := MapNode.set_wasAttacked true node']> (st_nodes st))
          (<[i := army']> (st_armies st))
          (st_toSend st) s'.

(** [battleEdge(army1, army2)], the armies at positions [i] and [j]. *)
Definition battleEdge (i j : nat) (st : store) : store :=
  let army1 := get (st_armies st) i in
  let army2 := get (st_armies st) j in
  let army1Mult : Q := if hasArtillery (st_nodes st) army2 then 2%Q else 1%Q in
  let army2Mult : Q := if hasArtillery (st_nodes st) army1 then 2%Q else 1%Q in
  let '((newArmy1Count, newArmy2Count), s') :=
    battle (troops army1) (troops army2) army1Mult army2Mult (st_seed st) in
  let armies1 := <[i := set_troops newArmy1Count army1]> (st_armies st) in
  let armies2 := <[j := set_troops newArmy2Count (get armies1 j)]> armies1 in
  mkStore (st_nodes st) armies2 (st_toSend st) s'.

(** [armies.sort((a, b) => b.distance - a.distance)]: a stable sort, the
    armies furthest along their edge first.  [insert a l] puts [a], which
    stood before every army of [l], into the sorted [l]. *)
Fixpoint insert (a : MapArmy) (l : list MapArmy) : list MapArmy :=
  match l with
  | [] => [a]
  | b :: l' => if distance b <=? distance a then a :: l else b :: insert a l'
  end.

Definition sort (armies : list MapArmy) : list MapArmy :=
  foldr insert [] armies.

(** The inner loop of [tick]: the first army of the array that [army]
    collides with, from behind or head on. *)
Inductive collision : Type :=
| Tail (j : nat)
| Head (j : nat).

Fixpoint findCollision (nodes : list MapNode.MapNode) (army : MapArmy)
    (others : list MapArmy) (j : nat) : option collision :=
  match others with
  | [] => None
  | otherArmy :: rest =>
      if areCollidingTail army otherArmy then Some (Tail j)
      else if areCollidingHead nodes army otherArmy
              && negb (bool_decide (team army = team otherArmy)) then Some (Head j)
      else findCollision nodes army rest (S j)
  end.

(** The body of the outer loop of [tick], for the army at position [i]. *)
Definition tickArmy (i : nat) (st : store) : store :=
  let nodes := st_nodes st in
  let armies := st_armies st in
  let army := get armies i in
  let dist := MapNode.intDistance (MapNode.get nodes (from army))
                                  (MapNode.get nodes (to army)) in
  if distance army =? dist then
    let n := to army in
    let node := MapNode.get nodes n in
    if negb (bool_decide (team army = MapNode.team node)) then
      battleNode n i st
    else
      mkStore
        (<[n := MapNode.set_troops (MapNode.troops node + troops army) node]> nodes)
        (<[i := set_troops 0 army]> armies)
        (if negb (finalDest army =? n)%nat
         then st_toSend st ++ [(n, finalDest army, troops army)]
         else st_toSend st)
        (st_seed st)
  else
    match findCollision nodes army armies 0 with
    | Some (Tail j) =>
        let otherArmy := get armies j in
        if bool_decide (team army = team otherArmy)
           && (finalDest army =? finalDest otherArmy)%nat then
          let armies1 := <[j := set_troops (troops otherArmy + troops army) otherArmy]> armies in
          let armies2 := <[i := set_troops 0 (get armies1 i)]> armies1 in
          mkStore nodes armies2 (st_toSend st) (st_seed st)
        else
          battleEdge i j st
    | Some (Head j) => battleEdge i j st
    | None =>
        mkStore nodes (<[i := set_distance (distance army + 1) army]> armies)
                (st_toSend st) (st_seed st)
    end.

(** [MapArmy.tick(armies)]: the nodes after the walk, the surviving armies,
    the armies to send ([node], [finalDest], [troops]) and the next draw. *)
Definition tick (nodes : list MapNode.MapNode) (armies : list MapArmy) (s : nat)
    : list MapNode.MapNode * list MapArmy * list (nat * nat * Z) * nat :=
  let sortedArmies := sort armies in
  let st := fold_left (fun st i => tickArmy i st)
                      (seq 0 (length sortedArmies))
                      (mkStore nodes sortedArmies [] s) in
  (st_nodes st, List.filter (fun army => troops army >? 0) (st_armies st),
   st_toSend st, st_seed st).

End WithMath.

End MapArmy.

(** ** Game *)

Module Game.

Record Game : Type := mk {
  nodes : list MapNode.MapNode;
  tickNumber : Z;
  armies : list MapArmy.MapArmy;
  armyCounter : Z
}.

Definition set_nodes (v : list MapNode.MapNode) (g : Game) : Game :=
  mk v (tickNumber g) (armies g) (armyCounter g).

Definition buildingCosts (type : MapNode.NodeType) : option Z :=
  match type with
  | MapNode.Factory => Some 200
  | MapNode.PowerPlant => Some 1000
  | MapNode.Fort => Some 500
  | MapNode.Artillery => Some 2000
  | MapNode.Normal => None
  end.

(** [getNodeByID(nodeID)]: the reference to the node, or [undefined]. *)
Definition getNodeByID (g : Game) (nodeID : Z) : option nat :=
  if (nodeID <? 0) || (nodeID >=? Z.of_nat (length (nodes g))) then None
  else Some (Z.to_nat nodeID).

(** [build(team, node, type)] *)
Definition build (g : Game) (team : Player.Team) (node : nat)
    (type : MapNode.NodeType) : bool * Game :=
  if bool_decide (team = Player.Neutral) || bool_decide (buildingCosts type = None) then
    (false, g)
  else
    let cost := default 0 (buildingCosts type) in
    let n := MapNode.get (nodes g) node in
    if bool_decide (MapNode.team n = team)
       && negb (bool_decide (MapNode.type n = type))
       && (MapNode.troops n >=? cost) then
      (true, set_nodes (<[node := MapNode.set_troops (MapNode.troops n - cost)
                                    (MapNode.set_type type n)]> (nodes g)) g)
    else (false, g).

(** The three tables of [dijkstra], keyed by node id. *)
Record tables : Type := mkTables {
  dist : list ext;
  prev : list (option nat);
  done : list bool
}.

Definition get_dist (t : tables) (i : nat) : ext := default Infinity (dist t !! i).
Definition get_prev (t : tables) (i : nat) : option nat := default None (prev t !! i).
Definition get_done (t : tables) (i : nat) : bool := default false (done t !! i).

(** The scan for [nextNodeID]: among the nodes not done, the first one of
    least [dist]; [None] is the [-1] of the code. *)
Definition pickStep (t : tables) (nextNodeID : option nat) (i : nat) : option nat :=
  if negb (get_done t i)
     && match nextNodeID with
        | None => true
        | Some c => ext_ltb (get_dist t i) (get_dist t c)
        end
  then Some i else nextNodeID.

Definition pick (t : tables) (n : nat) : option nat :=
  fold_left (pickStep t) (seq 0 n) None.

Section WithMath.
Context `{JSMath}.

(** The body of the loop over [nextNode.adj]. *)
Definition relax (nodes : list MapNode.MapNode) (from to nextNodeID : nat)
    (t : tables) (adjNode : nat) : tables :=
  if negb (get_done t adjNode)
     && ((adjNode =? to)%nat
         || bool_decide (MapNode.team (MapNode.get nodes adjNode)
                         = MapNode.team (MapNode.get nodes from))) then
    let distBtwn := MapNode.distance (MapNode.get nodes nextNodeID)
                                     (MapNode.get nodes adjNode) in
    if ext_ltb (ext_add (get_dist t nextNodeID) distBtwn) (get_dist t adjNode) then
      mkTables (<[adjNode := ext_add (get_dist t nextNodeID) distBtwn]> (dist t))
               (<[adjNode := Some nextNodeID]> (prev t))
               (done t)
    else t
  else t.

(** The [while (true)] loop, unrolled at most [fuel] times: [Ok None] is
    [return undefined], [Ok (Some t)] is [break] with the tables [t]. *)
Fixpoint search (fuel : nat) (nodes : list MapNode.MapNode) (from to : nat)
    (t : tables) : result (option tables) :=
  match fuel with
  | O => Diverges
  | S fuel' =>
      match pick t (length nodes) with
      | None => Ok None
      | Some nextNodeID =>
          if is_Infinity (get_dist t nextNodeID) then Ok None
          else if (nextNodeID =? to)%nat then Ok (Some t)
          else
            let t1 := mkTables (dist t) (prev t) (<[nextNodeID := true]> (done t)) in
            match nodes !! nextNodeID with
            | None => Throws
            | Some nextNode =>
                search fuel' nodes from to
                       (fold_left (relax nodes from to nextNodeID) (MapNode.adj nextNode) t1)
            end
      end
  end.

(** The walk back along [prev], unrolled at most [fuel] times. *)
Fixpoint walkBack (fuel : nat) (t : tables) (from targetID : nat) : result (option nat) :=
  match fuel with
  | O => Diverges
  | S fuel' =>
      match get_prev t targetID with
      | Some p =>
          if (p =? from)%nat then Ok (Some targetID)
          else walkBack fuel' t from p
      | None => Ok None
      end
  end.

(** [dijkstra(from, to)]: the next node on the way from [from] to [to]. *)
Definition dijkstra (g : Game) (from to : nat) : result (option nat) :=
  let n := length (nodes g) in
  let t0 := mkTables (<[from := Fin 0]> (replicate n Infinity))
                     (replicate n None)
                     (replicate n false) in
  let* r := search (S n) (nodes g) from to t0 in
  match r with
  | None => Ok None
  | Some t =>
      let* targetID := walkBack (S n) t from to in
      match targetID with
      | None => Ok None
      | Some targetID => Ok (match nodes g !! targetID with
                               | Some _ => Some targetID
                               | None => None
                               end)
      end
  end.

(** The guard of [sendArmy]: an enemy army on the edge from [to] to [from],
    at the end of it. *)
Definition attacked (g : Game) (team : Player.Team) (from to : nat) : bool :=
  existsb (fun army =>
             (MapArmy.from army =? to)%nat && (MapArmy.to army =? from)%nat
             && negb (bool_decide (MapArmy.team army = team))
             && (MapArmy.distance army
                 =? MapNode.intDistance (MapNode.get (nodes g) from)
                                        (MapNode.get (nodes g) to)))
          (armies g).

(** [sendArmy(team, from, to, troops)] *)
Definition sendArmy (g : Game) (team : Player.Team) (from to : nat) (troops : Z)
    : result (bool * Game) :=
  let fromNode := MapNode.get (nodes g) from in
  if negb (bool_decide (MapNode.team fromNode = team))
     || bool_decide (team = Player.Neutral) then Ok (false, g)
  else if attacked g team from to then Ok (false, g)
  else
    let troops := Z.min troops (MapNode.troops fromNode) in
    if troops =? 0 then Ok (true, g)
    else
      let* target := dijkstra g from to in
      match target with
      | None => Ok (false, g)
      | Some target =>
          Ok (true,
              mk (<[from := MapNode.set_troops (MapNode.troops fromNode - troops) fromNode]>
                    (nodes g))
                 (tickNumber g)
                 (armies g ++ [MapArmy.new from target troops (MapNode.team fromNode)
                                           to (armyCounter g)])
                 (armyCounter g + 1))
      end.

(** [assign(team, from, to)] *)
Definition assign (g : Game) (team : Player.Team) (from to : nat) : result (bool * Game) :=
  let fromNode := MapNode.get (nodes g) from in
  if bool_decide (team = Player.Neutral)
     || negb (bool_decide (MapNode.team fromNode = team)) then Ok (false, g)
  else
    let* target := dijkstra g from to in
    Ok (true,
        set_nodes (<[from := MapNode.set_assign
                               (match target with None => None | Some _ => Some to end)
                               fromNode]> (nodes g)) g).

End WithMath.

(** [unassign(team, from)] *)
Definition unassign (g : Game) (team : Player.Team) (from : nat) : bool * Game :=
  let fromNode := MapNode.get (nodes g) from in
  if bool_decide (team = Player.Neutral)
     || negb (bool_decide (MapNode.team fromNode = team)) then (false, g)
  else (true, set_nodes (<[from := MapNode.set_assign None fromNode]> (nodes g)) g).

(** [forfeit(team)] *)
Definition forfeitNode (team : Player.Team) (node : MapNode.MapNode) : MapNode.MapNode :=
  if bool_decide (MapNode.team node = team) then
    MapNode.set_troops 0
      (MapNode.set_type MapNode.Normal (MapNode.set_team Player.Neutral node))
  else node.

Definition forfeit (g : Game) (team : Player.Team) : bool * Game :=
  if bool_decide (team = Player.Neutral) then (false, g)
  else
    (true,
     mk (map (forfeitNode team) (nodes g))
        (tickNumber g)
        (List.filter (fun army => negb (bool_decide (MapArmy.team army = team))) (armies g))
        (armyCounter g)).

Section WithMath.
Context `{JSMath}.

(** A loop whose body may throw. *)
Fixpoint forEach {A S : Type} (body : A -> S -> result S) (l : list A) (s : S) : result S :=
  match l with
  | [] => Ok s
  | a :: l' => let* s' := body a s in forEach body l' s'
  end.

(** The body of the loop of [tick] over the nodes, for the node at [i]. *)
Definition tickNode (i : nat) (g : Game) : result Game :=
  let g1 := set_nodes (<[i := MapNode.tick (nodes g) (MapNode.get (nodes g) i) (tickNumber g)]>
                         (nodes g)) g in
  let node := MapNode.get (nodes g1) i in
  match MapNode.assign node with
  | Some target =>
      if Z.rem (tickNumber g1) 8 =? 0 then
        let* (success, g2) := sendArmy g1 (MapNode.team node) i target (MapNode.troops node) in
        if success then Ok g2
        else Ok (set_nodes (<[i := MapNode.set_assign None (MapNode.get (nodes g2) i)]>
                              (nodes g2)) g2)
      else Ok g1
  | None => Ok g1
  end.

(** The body of [armiesToSend.forEach]. *)
Definition sendNew (order : nat * nat * Z) (g : Game) : result Game :=
  let '(to, from, troops) := order in
  let* (_, g') := sendArmy g (MapNode.team (MapNode.get (nodes g) to)) to from troops in
  Ok g'.

(** [tick()], with [s] the number of the next random draw. *)
Definition tick (g : Game) (s : nat) : result (Game * nat) :=
  let tickNumber := tickNumber g + 1 in
  let '(nodes1, newArmies, armiesToSend, s') := MapArmy.tick (nodes g) (armies g) s in
  let g1 := mk nodes1 tickNumber newArmies (armyCounter g) in
  let* g2 := forEach tickNode (seq 0 (length (nodes g1))) g1 in
  let* g3 := forEach sendNew armiesToSend g2 in
  Ok (g3, s').

End WithMath.

(** ** The constructor of Game

    [new Game(nPlayers)], with the nodes of the map that [new Map(32 *
    nPlayers)] generated as a parameter and [s] the number of the next random
    draw. *)
Section WithMath.
Context `{JSMath}.

(** The loop over the players: [i] players placed, [count] to place,
    [unselectedNodes] the nodes still free. *)
Fixpoint chooseStarts (i count : nat) (unselectedNodes : list nat)
    (nodes : list MapNode.MapNode) (s : nat) : result (list MapNode.MapNode * nat) :=
  match count with
  | O => Ok (nodes, s)
  | S count' =>
      let k := Z.to_nat (Qfloor (double (Math_random s
                                         * inject_Z (Z.of_nat (length unselectedNodes))))%Q) in
      match unselectedNodes !! k with
      | None => Throws
      | Some node =>
          chooseStarts (S i) count' (delete k unselectedNodes)
            (<[node := MapNode.set_troops 30
                         (MapNode.set_team (Player.ofNumber (S i))
                                           (MapNode.get nodes node))]> nodes)
            (S s)
      end
  end.

Definition new (map : list MapNode.MapNode) (nPlayers : Z) (s : nat)
    : result (Game * nat) :=
  if (nPlayers <? 2) || (nPlayers >? 6) then Throws
  else
    let* (nodes, s') := chooseStarts 0 (Z.to_nat nPlayers) (seq 0 (length map)) map s in
    Ok (mk nodes 0 [] 0, s').

End WithMath.

End Game.

(** ** Room: the handlers of the messages of a player

    What the handlers that [runGame] attaches do to the game; the boolean is
    whether the room data is sent out again.  The parameters of a handler
    are what the client sent, and no handler checks them: each of them can
    be any number of JavaScript, a fraction, [NaN] or an infinity as well as
    an integer. *)

Module Room.

(** A number of JavaScript. *)
Inductive number : Type :=
| Finite (q : Q)
| NaN
| PlusInfinity
| MinusInfinity.

(** The integer that a number is, when it is one. *)
Definition integer (v : number) : option Z :=
  match v with
  | Finite q => if Qeq_bool (inject_Z (Qfloor q)) q then Some (Qfloor q) else None
  | _ => None
  end.


(** [Math.min(v, troops)], for the integer [troops] of a node. *)
Definition Math_min (v : number) (troops : Z) : number :=
  match v with
  | Finite q => if Qle_bool q (inject_Z troops) then Finite q else Finite (inject_Z troops)
  | NaN => NaN
  | PlusInfinity => Finite (inject_Z troops)
  | MinusInfinity => MinusInfinity
  end.

(** [this.game.getNodeByID(nodeID)] for a number: one that is no integer
    fails a comparison of [getNodeByID] or is the index of no node. *)
Definition getNodeByID (g : Game.Game) (nodeID : number) : option nat :=
  match integer nodeID with
  | Some nodeID => Game.getNodeByID g nodeID
  | None => None
  end.


(** What [this.game.sendArmy] leaves when it is given any number: a game of
    this embedding, or, [Spoiled], a game where it returned true and left a
    node and an army with a troop count that is no integer. *)
Inductive outcome : Type :=
| Returned (success : bool) (g : Game.Game)
| Spoiled.

Section WithMath.
Context `{JSMath}.

(** [this.game.sendArmy(player.team, fromNode, toNode, troops)] for a number
    [troops]: the lines of [Game.sendArmy] again, which above are given for
    the integers that the engine itself passes. *)
Definition sendArmy (g : Game.Game) (team : Player.Team) (from to : nat) (troops : number)
    : result outcome :=
  let fromNode := MapNode.get (Game.nodes g) from in
  if negb (bool_decide (MapNode.team fromNode = team))
     || bool_decide (team = Player.Neutral) then Ok (Returned false g)
  else if Game.attacked g team from to then Ok (Returned false g)
  else
    let troops := Math_min troops (MapNode.troops fromNode) in
    if bool_decide (integer troops = Some 0) then Ok (Returned true g)
    else
      let* target := Game.dijkstra g from to in
      match target with
      | None => Ok (Returned false g)
      | Some target =>
          match integer troops with
          | Some troops =>
              Ok (Returned true
                    (Game.mk (<[from := MapNode.set_troops (MapNode.troops fromNode - troops)
                                          fromNode]> (Game.nodes g))
                             (Game.tickNumber g)
                             (Game.armies g ++ [MapArmy.new from target troops
                                                            (MapNode.team fromNode) to
                                                            (Game.armyCounter g)])
                             (Game.armyCounter g + 1)))
          | None => Ok Spoiled
          end
      end.




End WithMath.

(** ** Room: who plays and who watches

    The [Player] objects are named by numbers, and of a player the room
    reads and writes the team only, a number.  What the methods send to the
    sockets, the handlers they attach and detach and what they log are left
    out: no method of [Room] reads them back.  [stopHandler] is the callback
    of whoever made the room, and is left out too.  Of [tickInterval] only
    whether it is defined is kept. *)

Record Room : Type := mk {
  players : list nat;
  spectators : list nat;
  isLaunched : bool;
  isRunning : bool;
  game : option Game.Game;
  tickInterval : bool;
  maxPlayers : Z;
  team : nat -> Z
}.

Definition set_players (v : list nat) (r : Room) : Room :=
  mk v (spectators r) (isLaunched r) (isRunning r) (game r) (tickInterval r)
     (maxPlayers r) (team r).
Definition set_spectators (v : list nat) (r : Room) : Room :=
  mk (players r) v (isLaunched r) (isRunning r) (game r) (tickInterval r)
     (maxPlayers r) (team r).
Definition set_game (v : option Game.Game) (r : Room) : Room :=
  mk (players r) (spectators r) (isLaunched r) (isRunning r) v (tickInterval r)
     (maxPlayers r) (team r).
Definition set_isLaunched (v : bool) (r : Room) : Room :=
  mk (players r) (spectators r) v (isRunning r) (game r) (tickInterval r)
     (maxPlayers r) (team r).
Definition set_running (v : bool) (r : Room) : Room :=
  mk (players r) (spectators r) (isLaunched r) v (game r) v (maxPlayers r) (team r).
(** [player.team = v] *)
Definition set_team (player : nat) (v : Z) (r : Room) : Room :=
  mk (players r) (spectators r) (isLaunched r) (isRunning r) (game r) (tickInterval r)
     (maxPlayers r) (fun p => if (p =? player)%nat then v else team r p).

(** [array.includes(player)] *)
Definition includes (player : nat) (array : list nat) : bool :=
  existsb (Nat.eqb player) array.

(** [array.splice(array.indexOf(player), 1)] on an array that includes
    [player]: what is left of the array. *)
Fixpoint splice (player : nat) (array : list nat) : list nat :=
  match array with
  | [] => []
  | p :: rest => if (p =? player)%nat then rest else p :: splice player rest
  end.

Definition hasGame (r : Room) : bool :=
  match game r with Some _ => true | None => false end.

(** [addPlayer(player)] *)
Definition addPlayer (player : nat) (r : Room) : Room :=
  if isLaunched r || isRunning r || hasGame r
     || (Z.of_nat (length (players r)) >=? maxPlayers r) then
    set_team player 0 (set_spectators (spectators r ++ [player]) r)
  else
    let r1 := set_players (players r ++ [player]) r in
    set_team player (Z.of_nat (length (players r1))) r1.

(** [this.game.forfeit(player.team)] for the number that [player.team]
    holds: a number that is no member of [Player.Team] is the team of no
    node and of no army. *)
Definition forfeitNumber (g : Game.Game) (team : Z) : Game.Game :=
  if (0 <=? team) && (team <=? 6) then (Game.forfeit g (Player.ofNumber (Z.to_nat team))).2
  else g.

(** [runGame()] and [pauseGame()] *)
Definition runGame (r : Room) : Room :=
  if negb (hasGame r) || negb (isLaunched r) || isRunning r then r
  else set_running true r.

Definition pauseGame (r : Room) : Room :=
  if negb (hasGame r) || negb (isLaunched r) || negb (isRunning r)
     || negb (tickInterval r) then r
  else set_running false r.

(** [for (let player of this.players) this.removePlayer(player)]: the loop
    reads the array as the calls leave it; [i] is the index of the iterator,
    [n] bounds the turns that are left. *)
Fixpoint playersLoop (removePlayer : nat -> Room -> result Room) (n i : nat) (r : Room)
    : result Room :=
  match players r !! i with
  | None => Ok r
  | Some player =>
      match n with
      | O => Diverges
      | S n' =>
          let* r' := removePlayer player r in
          playersLoop removePlayer n' (S i) r'
      end
  end.

(** [for (let spectator of this.spectators) this.removePlayer(spectator)]:
    the loop goes through the array [array] that [this.spectators] was when
    it started.  [removePlayer] takes a spectator out of the array that
    [this.spectators] is, and then makes [this.spectators] a new array:
    [aliased] says whether [this.spectators] still is [array]. *)
Fixpoint spectatorsLoop (removePlayer : nat -> Room -> result Room) (n : nat)
    (array : list nat) (aliased : bool) (i : nat) (r : Room) : result Room :=
  match array !! i with
  | None => Ok r
  | Some spectator =>
      match n with
      | O => Diverges
      | S n' =>
          let taken := aliased && negb (includes spectator (players r)) in
          let* r' := removePlayer spectator r in
          spectatorsLoop removePlayer n'
            (if taken then splice spectator array else array)
            (aliased && negb taken) (S i) r'
      end
  end.

(** [removePlayer(player)] and [stopRoom()], which call each other: [fuel]
    bounds the depth of the calls. *)
Fixpoint removePlayer (fuel : nat) (player : nat) (r : Room) {struct fuel} : result Room :=
  match fuel with
  | O => Diverges
  | S fuel' =>
      if includes player (players r) then
        let r1 := set_players (splice player (players r)) r in
        let r2 := match game r1 with
                  | Some g => set_game (Some (forfeitNumber g (team r1 player))) r1
                  | None => r1
                  end in
        let r3 := set_team player 0 r2 in
        if (length (players r3) =? 0)%nat then stopRoom fuel' r3 else Ok r3
      else if includes player (spectators r) then
        Ok (set_spectators [player] r)
      else Ok r
  end
with stopRoom (fuel : nat) (r : Room) {struct fuel} : result Room :=
  match fuel with
  | O => Diverges
  | S fuel' =>
      if negb (isLaunched r) then Ok r
      else
        let r1 := if isRunning r then pauseGame r else r in
        let r2 := set_isLaunched false (set_game None r1) in
        let* r3 := playersLoop (removePlayer fuel') (length (players r2)) 0 r2 in
        spectatorsLoop (removePlayer fuel') (length (spectators r3))
                       (spectators r3) true 0 r3
  end.

Section WithMath.
Context `{JSMath}.

(** [startRoom()], with the nodes of the map that the constructor of [Game]
    generates and the number of the next random draw. *)
Definition startRoom (map : list MapNode.MapNode) (s : nat) (r : Room)
    : result (Room * nat) :=
  if isLaunched r || hasGame r then Ok (r, s)
  else
    let* (g, s') := Game.new map (Z.of_nat (length (players r))) s in
    Ok (set_isLaunched true (set_game (Some g) r), s').

End WithMath.

End Room.

(** * Vocabulary of the properties *)

(** ** Production *)

(** The number of the adjacent nodes that are of the team of [this] and hold
    a power plant. *)
Definition poweredNeighbours (nodes : list MapNode.MapNode) (this : MapNode.MapNode) : Z :=
  Z.of_nat
    (length
       (List.filter
          (fun a => bool_decide (MapNode.team (MapNode.get nodes a) = MapNode.team this
                                 /\ MapNode.type (MapNode.get nodes a) = MapNode.PowerPlant))
          (MapNode.adj this))).

(** ** The modifiers of a battle at a node

    The losses of the node are halved by a fort on it and doubled when the
    node that the army left is still of the army's team and holds
    artillery; the losses of the army are doubled by artillery on the
    node. *)
Definition nodeModifier (nodes : list MapNode.MapNode) (node : MapNode.MapNode)
    (army : MapArmy.MapArmy) : Q :=
  ((if bool_decide (MapNode.type node = MapNode.Fort) then 1 # 2 else 1)
   * (if bool_decide
           (MapNode.team (MapNode.get nodes (MapArmy.from army)) = MapArmy.team army
            /\ MapNode.type (MapNode.get nodes (MapArmy.from army)) = MapNode.Artillery)
      then 2 else 1))%Q.

Definition armyModifier (node : MapNode.MapNode) : Q :=
  if bool_decide (MapNode.type node = MapNode.Artillery) then 2%Q else 1%Q.

(** ** The combat losses as the specification words them

    The smaller pool loses its own randomized mean-ratio loss, the larger
    one that loss times [larger / smaller]. *)
Section SpecBattle.
Context `{JSMath}.

Definition specLosses (troopsA troopsB : Z) (s : nat) : Q * Q :=
  if troopsA <? troopsB then
    let lossesA := MapArmy.meanLoss troopsA s in
    (lossesA, double (lossesA * double (inject_Z troopsB / inject_Z troopsA))%Q)
  else
    let lossesB := MapArmy.meanLoss troopsB s in
    (double (lossesB * double (inject_Z troopsA / inject_Z troopsB))%Q, lossesB).

Definition specBattle (troopsA troopsB : Z) (multA multB : Q) (s : nat) : Z * Z :=
  let '(lossesA, lossesB) := specLosses troopsA troopsB s in
  (troopsA - Math_ceil (double (lossesA * multA)),
   troopsB - Math_ceil (double (lossesB * multB))).

End SpecBattle.

(** ** Routes

    A route from a node [u] is the list of the nodes it goes through after
    [u]: each one adjacent to the one before, and each one either the
    destination or a node of the team of [from]. *)
Section Routes.
Context `{JSMath}.
Variable nodes : list MapNode.MapNode.
Variables from to : nat.

Definition passable (v : nat) : Prop :=
  v = to \/ MapNode.team (MapNode.get nodes v) = MapNode.team (MapNode.get nodes from).

Fixpoint route (u : nat) (hops : list nat) : Prop :=
  match hops with
  | [] => True
  | v :: rest => In v (MapNode.adj (MapNode.get nodes u)) /\ passable v /\ route v rest
  end.

(** The Euclidean length of the edge from [u] to [v], in doubles: the
    differences of the coordinates, their squares, the sum of the squares
    and its root, each of them rounded. *)
Definition edgeLength (u v : nat) : Q :=
  let dx := double (MapNode.x (MapNode.get nodes u) - MapNode.x (MapNode.get nodes v)) in
  let dy := double (MapNode.y (MapNode.get nodes u) - MapNode.y (MapNode.get nodes v)) in
  Math_sqrt (double (double (dx * dx) + double (dy * dy)))%Q.

(** The length of a route, in doubles: the lengths of its edges added one
    after the other to the length [acc] of the way so far, every sum
    rounded. *)
Fixpoint lengthFrom (acc : Q) (u : nat) (hops : list nat) : Q :=
  match hops with
  | [] => acc
  | v :: rest => lengthFrom (double (acc + edgeLength u v)) v rest
  end.

Definition routeLength (u : nat) (hops : list nat) : Q := lengthFrom 0 u hops.

(** The exact length of a route on a map whose nodes all lie on the x axis:
    there the Euclidean length of an edge is the distance of the abscissas. *)
Fixpoint axisLength (u : nat) (hops : list nat) : Q :=
  match hops with
  | [] => 0
  | v :: rest =>
      (Qabs (MapNode.x (MapNode.get nodes u) - MapNode.x (MapNode.get nodes v))
       + axisLength v rest)%Q
  end.

(** A route from [from] that ends at [to]. *)
Definition routeTo (hops : list nat) : Prop :=
  route from hops /\ List.last hops from = to.

(** There is somewhere to go, and a way to get there. *)
Definition reachable : Prop :=
  from <> to /\ exists hops, routeTo hops.

End Routes.

(** ** Well-formed maps *)

(** Every reference held by a node is a position of the list of nodes. *)
Definition wfNodes (nodes : list MapNode.MapNode) : Prop :=
  forall u node, nodes !! u = Some node ->
    (forall v, In v (MapNode.adj node) -> (v < length nodes)%nat).

(** [wfNodes], as a check. *)
Definition wfNodesb (nodes : list MapNode.MapNode) : bool :=
  forallb (fun node => forallb (fun v => (v <? length nodes)%nat) (MapNode.adj node)) nodes.

(** ** The invariant of the search of [dijkstra] *)

(** The order on numbers that may be [Infinity]. *)
Definition ext_le (a b : ext) : Prop :=
  match a, b with
  | Fin p, Fin q => (p <= q)%Q
  | _, Infinity => True
  | Infinity, Fin _ => False
  end.

Section RouterInvariant.
Context `{JSMath}.
Variable nodes : list MapNode.MapNode.
Variables from to : nat.

(** [backtrace t v l]: walking [prev] back from [v] goes through the nodes of
    [l], [v] first, and then reaches [from]. *)
Fixpoint backtrace (t : Game.tables) (v : nat) (l : list nat) : Prop :=
  match l with
  | [] => v = from
  | x :: l' =>
      x = v /\ v <> from /\ exists u, Game.get_prev t v = Some u /\ backtrace t u l'
  end.

(** The route that the tables record for a node [v] at distance [d]. *)
Record recorded (t : Game.tables) (v : nat) (d : Q) (hops : list nat) : Prop := {
  rec_route : route nodes from to from hops;
  rec_last : List.last hops from = v;
  rec_length : (routeLength nodes from hops == d)%Q;
  rec_back : backtrace t v (rev hops);
  rec_nodup : NoDup hops;
  rec_done : forall x, In x (removelast hops) -> Game.get_done t x = true
}.

(** Every edge out of [x] has been relaxed. *)
Definition relaxedFrom (t : Game.tables) (x : nat) (ys : list nat) : Prop :=
  forall y, In y ys -> passable nodes from to y -> Game.get_done t y = false ->
    ext_le (Game.get_dist t y)
           (ext_add (Game.get_dist t x)
                    (MapNode.distance (MapNode.get nodes x) (MapNode.get nodes y))).

Record inv (t : Game.tables) : Prop := {
  inv_dist : length (Game.dist t) = length nodes;
  inv_prev : length (Game.prev t) = length nodes;
  inv_done : length (Game.done t) = length nodes;
  inv_from : Game.get_dist t from = Fin 0 /\ Game.get_prev t from = None;
  inv_recorded : forall v d, Game.get_dist t v = Fin d -> exists hops, recorded t v d hops;
  inv_least : forall u, Game.get_done t u = true ->
      exists du, Game.get_dist t u = Fin du
        /\ forall q, route nodes from to from q -> List.last q from = u ->
             (du <= routeLength nodes from q)%Q;
  inv_to : Game.get_done t to = false
}.

(** The edges out of every done node but [u] have been relaxed. *)
Definition relaxedBut (t : Game.tables) (u : nat) : Prop :=
  forall x, x <> u -> Game.get_done t x = true ->
    relaxedFrom t x (MapNode.adj (MapNode.get nodes x)).

(** Every edge out of a done node has been relaxed. *)
Definition relaxedAll (t : Game.tables) : Prop :=
  forall x, Game.get_done t x = true ->
    relaxedFrom t x (MapNode.adj (MapNode.get nodes x)).

(** The nodes not done yet. *)
Definition undone (t : Game.tables) : nat :=
  length (List.filter negb (Game.done t)).

End RouterInvariant.

(** ** The invariant of a tick *)
Section TickInvariant.
Context `{JSMath}.

(** The army stands at the end of its edge. *)
Definition atEnd (nodes : list MapNode.MapNode) (army : MapArmy.MapArmy) : Prop :=
  MapArmy.distance army
  = MapNode.intDistance (MapNode.get nodes (MapArmy.from army))
                        (MapNode.get nodes (MapArmy.to army)).

(** The same map: the same number of nodes, at the same places, with the
    same neighbours. *)
Definition sameMap (nodes nodes' : list MapNode.MapNode) : Prop :=
  length nodes' = length nodes
  /\ forall k, MapNode.x (MapNode.get nodes' k) = MapNode.x (MapNode.get nodes k)
               /\ MapNode.y (MapNode.get nodes' k) = MapNode.y (MapNode.get nodes k)
               /\ MapNode.adj (MapNode.get nodes' k) = MapNode.adj (MapNode.get nodes k).

(** No node holds a negative number of troops. *)
Definition nodesOk (nodes : list MapNode.MapNode) : Prop :=
  Forall (fun node => 0 <= MapNode.troops node) nodes.

(** What a tick needs of the armies: none has a negative progress, and none
    that stands at the end of its edge has a negative number of troops. *)
Definition armiesReady (nodes : list MapNode.MapNode) (armies : list MapArmy.MapArmy) : Prop :=
  Forall (fun army => 0 <= MapArmy.distance army
                      /\ (atEnd nodes army -> 0 <= MapArmy.troops army)) armies.

(** What a tick leaves of the armies: every one has troops, and none has a
    negative progress. *)
Definition armiesOk (armies : list MapArmy.MapArmy) : Prop :=
  Forall (fun army => 0 < MapArmy.troops army /\ 0 <= MapArmy.distance army) armies.

(** Armies in the order of [sort]: the furthest along first. *)
Fixpoint descending (l : list MapArmy.MapArmy) : Prop :=
  match l with
  | [] => True
  | a :: l' =>
      Forall (fun b => MapArmy.distance b <= MapArmy.distance a) l' /\ descending l'
  end.

(** The invariant of the walk of [MapArmy.tick] over the sorted armies, before
    the army at position [i] is handled. *)
Record walking (nodes0 : list MapNode.MapNode) (len i : nat) (st : MapArmy.store)
    : Prop := {
  walk_len : length (MapArmy.st_armies st) = len;
  walk_map : sameMap nodes0 (MapArmy.st_nodes st);
  walk_nodes : forall k, 0 <= MapNode.troops (MapNode.get (MapArmy.st_nodes st) k);
  walk_dist : forall k, 0 <= MapArmy.distance (MapArmy.get (MapArmy.st_armies st) k);
  walk_ready : forall j, (i <= j)%nat ->
      atEnd (MapArmy.st_nodes st) (MapArmy.get (MapArmy.st_armies st) j) ->
      0 <= MapArmy.troops (MapArmy.get (MapArmy.st_armies st) j);
  walk_sorted : forall j k, (i <= j)%nat -> (j <= k)%nat -> (k < len)%nat ->
      MapArmy.distance (MapArmy.get (MapArmy.st_armies st) k)
      <= MapArmy.distance (MapArmy.get (MapArmy.st_armies st) j);
  walk_send : Forall (fun order : nat * nat * Z => 0 <= snd order) (MapArmy.st_toSend st)
}.

(** The invariant of the rest of [Game.tick]. *)
Definition gameOk (g : Game.Game) : Prop :=
  wfNodes (Game.nodes g) /\ nodesOk (Game.nodes g) /\ armiesOk (Game.armies g).

End TickInvariant.

(** [l'] has the armies of [l], with other troops at the positions [touched]. *)
Definition troopsOnly (l l' : list MapArmy.MapArmy) (touched : list nat) : Prop :=
  length l' = length l
  /\ forall k,
       (exists tr, MapArmy.get l' k = MapArmy.set_troops tr (MapArmy.get l k))
       /\ (~ In k touched -> MapArmy.get l' k = MapArmy.get l k).

(** ** An instance of the runtime, for the examples: the doubles

    [binary64] rounds a rational to the nearest number with a mantissa of 53
    bits, halves to the even mantissa: the rounding of the IEEE 754 doubles
    in their normal range.  [binary64_sqrt] is the square root rounded the
    same way.  Every random draw is one half. *)

(** The nearest integer, halves to the even one. *)
Definition rne (v : Q) : Z :=
  let f := Qfloor v in
  match (v - inject_Z f ?= 1 # 2)%Q with
  | Lt => f
  | Gt => f + 1
  | Eq => if Z.even f then f else f + 1
  end.

(** The exponent [k] of a positive rational [v]: [2 ^ k <= v < 2 ^ (k + 1)]. *)
Definition exponent (v : Q) : Z :=
  let c := Z.log2 (Qnum v) - Z.log2 (Zpos (Qden v)) in
  if Qle_bool (2 ^ c) v then c else c - 1.

(** The double nearest to a positive rational: its 53 leading bits, rounded. *)
Definition nearest (v : Q) : Q :=
  let e := exponent v - 52 in
  Qred (inject_Z (rne (v / 2 ^ e)) * 2 ^ e).

Definition binary64 (v : Q) : Q :=
  match (v ?= 0)%Q with
  | Eq => 0%Q
  | Gt => nearest v
  | Lt => (- nearest (- v))%Q
  end.

(** The double nearest to the square root of [v]: with [t] the rational [v]
    scaled by a power of 4 to between [2 ^ 104] and [2 ^ 106], the integer
    root [f] of [t] or [f + 1], whichever is nearer to the root. *)
Definition binary64_sqrt (v : Q) : Q :=
  match (v ?= 0)%Q with
  | Gt =>
      let e := exponent v / 2 - 52 in
      let t := (v / 2 ^ (2 * e))%Q in
      let f := Z.sqrt (Qfloor t) in
      let h := (inject_Z f + (1 # 2))%Q in
      let m := match (t ?= h * h)%Q with
               | Lt => f
               | Gt => f + 1
               | Eq => if Z.even f then f else f + 1
               end in
      Qred (inject_Z m * 2 ^ e)
  | _ => 0%Q
  end.

Lemma pow2_pos (e : Z) : (0 < 2 ^ e)%Q.
Proof. apply Qpower_0_lt. reflexivity. Qed.

Lemma pow2_add (a b : Z) : (2 ^ (a + b) == 2 ^ a * 2 ^ b)%Q.
Proof. apply Qpower_plus. discriminate. Qed.

Lemma pow2_le (a b : Z) : a <= b -> (2 ^ a <= 2 ^ b)%Q.
Proof. intros L. apply Qpower_le_compat_l; [exact L | discriminate]. Qed.

Lemma pow2_lt (a b : Z) : a < b -> (2 ^ a < 2 ^ b)%Q.
Proof. intros L. apply Qpower_lt_compat_l; [exact L | reflexivity]. Qed.

Lemma pow2_lt_inv (a b : Z) : (2 ^ a < 2 ^ b)%Q -> a < b.
Proof. intros L. apply (Qpower_lt_compat_l_inv 2); [exact L | reflexivity]. Qed.

Lemma pow2_Z (n : Z) : 0 <= n -> (inject_Z (2 ^ n) == 2 ^ n)%Q.
Proof. intros L. apply (Zpower_Qpower 2 n L). Qed.

Lemma pow2_succ (a : Z) : (2 ^ (a + 1) == 2 * 2 ^ a)%Q.
Proof. rewrite pow2_add. change (2 ^ 1)%Q with 2%Q. ring. Qed.

Lemma rne_proper (a b : Q) : (a == b)%Q -> rne a = rne b.
Proof.
  intros E. unfold rne.
  assert (F : Qfloor a = Qfloor b) by (rewrite E; reflexivity).
  rewrite F. 
  assert (C : (a - inject_Z (Qfloor b) ?= 1 # 2)%Q = (b - inject_Z (Qfloor b) ?= 1 # 2)%Q).
  { rewrite E. reflexivity. }
  rewrite C. reflexivity.
Qed.

Lemma rne_cases (v : Q) :
  let f := Qfloor v in
  (inject_Z f <= v < inject_Z f + 1)%Q
  /\ ((rne v = f /\ (v - inject_Z f <= 1 # 2)%Q)
      \/ (rne v = f + 1 /\ ((1 # 2) <= v - inject_Z f)%Q)).
Proof.
  intros f. pose proof (Qfloor_le v) as L. pose proof (Qlt_floor v) as U.
  fold f in L, U. rewrite inject_Z_plus in U. change (inject_Z 1) with 1%Q in U.
  split; [split; assumption |].
  unfold rne. fold f.
  destruct (Qcompare_spec (v - inject_Z f) (1 # 2)) as [E | E | E].
  - destruct (Z.even f); [left | right]; (split; [reflexivity | rewrite E; apply Qle_refl]).
  - left. split; [reflexivity | apply Qlt_le_weak, E].
  - right. split; [reflexivity | apply Qlt_le_weak, E].
Qed.

Lemma rne_error (v : Q) : (Qabs (inject_Z (rne v) - v) <= 1 # 2)%Q.
Proof.
  destruct (rne_cases v) as [[L U] [[E B] | [E B]]]; rewrite E; apply Qabs_Qle_condition.
  - split; lra.
  - rewrite inject_Z_plus. change (inject_Z 1) with 1%Q. split; lra.
Qed.

Lemma rne_Z (z : Z) : rne (inject_Z z) = z.
Proof.
  unfold rne. rewrite Qfloor_Z.
  destruct (Qcompare_spec (inject_Z z - inject_Z z) (1 # 2)) as [E | E | E]; try reflexivity; lra.
Qed.

Lemma rne_mono (a b : Q) : (a <= b)%Q -> rne a <= rne b.
Proof.
  intros L. pose proof (Qfloor_resp_le _ _ L) as F.
  destruct (Z.eq_dec (Qfloor a) (Qfloor b)) as [E | NE].
  - unfold rne. rewrite E.
    destruct (Qcompare_spec (a - inject_Z (Qfloor b)) (1 # 2)) as [A | A | A];
      destruct (Qcompare_spec (b - inject_Z (Qfloor b)) (1 # 2)) as [B | B | B];
      try destruct (Z.even (Qfloor b)); try lia; lra.
  - destruct (rne_cases a) as [_ [[Ea _] | [Ea _]]];
      destruct (rne_cases b) as [_ [[Eb _] | [Eb _]]]; lia.
Qed.
Lemma log2_bounds (n : Z) : 0 < n -> (2 ^ Z.log2 n <= inject_Z n < 2 * 2 ^ Z.log2 n)%Q.
Proof.
  intros P. destruct (Z.log2_spec n P) as [L U].
  pose proof (Z.log2_nonneg n) as NN.
  rewrite <- pow2_Z by exact NN. split.
  - rewrite <- Zle_Qle. exact L.
  - rewrite Z.pow_succ_r in U by exact NN.
    change 2%Q with (inject_Z 2) at 1. rewrite <- inject_Z_mult, <- Zlt_Qlt. exact U.
Qed.

Lemma frac_bounds (N D A B p q : Q) :
  (0 < A)%Q -> (0 < B)%Q -> (A <= N < 2 * A)%Q -> (B <= D < 2 * B)%Q ->
  (p * B == A)%Q -> (q * D == N)%Q ->
  (p <= q -> q < 2 * p)%Q /\ (q < p -> p <= 2 * q)%Q.
Proof.
  intros PA PB [LN UN] [LD UD] EP EQ.
  assert (Pp : (0 < p)%Q) by nra.
  assert (Pq : (0 < q)%Q) by nra.
  split; intros C.
  - destruct (Qlt_le_dec q (2 * p)) as [Y | Y]; [exact Y |]. exfalso.
    assert (2 * p * B <= q * D)%Q by nra. nra.
  - destruct (Qlt_le_dec (2 * q) p) as [Y | Y]; [| exact Y]. exfalso.
    assert (q * D < p * B)%Q; [| nra].
    assert (q * D <= q * (2 * B))%Q by nra. nra.
Qed.

Lemma exponent_spec (v : Q) :
  (0 < v)%Q -> (2 ^ exponent v <= v < 2 ^ (exponent v + 1))%Q.
Proof.
  intros P. unfold exponent.
  set (n := Qnum v). set (d := Z.pos (Qden v)).
  set (c := Z.log2 n - Z.log2 d).
  assert (Pn : 0 < n) by (unfold Qlt in P; simpl in P; lia).
  assert (Pd : 0 < d) by reflexivity.
  pose proof (log2_bounds n Pn) as Bn. pose proof (log2_bounds d Pd) as Bd.
  assert (EP : (2 ^ c * 2 ^ Z.log2 d == 2 ^ Z.log2 n)%Q).
  { rewrite <- pow2_add. unfold c. replace (Z.log2 n - Z.log2 d + Z.log2 d) with (Z.log2 n) by lia.
    reflexivity. }
  assert (EQ : (v * inject_Z d == inject_Z n)%Q).
  { unfold n, d. destruct v as [vn vd]. simpl. rewrite (Qmake_Qdiv vn vd). field.
    discriminate. }
  destruct (frac_bounds _ _ _ _ _ _ (pow2_pos (Z.log2 n)) (pow2_pos (Z.log2 d)) Bn Bd EP EQ)
    as [F1 F2].
  destruct (Qle_bool (2 ^ c) v) eqn:T.
  - apply Qle_bool_iff in T. split; [exact T |]. rewrite pow2_succ. apply F1, T.
  - assert (L : (v < 2 ^ c)%Q).
    { apply Qnot_le_lt. intros C. apply Qle_bool_iff in C. congruence. }
    replace (c - 1 + 1) with c by lia. split; [| exact L].
    specialize (F2 L). replace c with ((c - 1) + 1) in F2 by lia.
    rewrite pow2_succ in F2.
    pose proof (pow2_pos (c - 1)). lra.
Qed.

Lemma exponent_unique (v : Q) (k : Z) :
  (2 ^ k <= v < 2 ^ (k + 1))%Q -> exponent v = k.
Proof.
  intros [L U].
  assert (P : (0 < v)%Q) by (pose proof (pow2_pos k); lra).
  destruct (exponent_spec v P) as [L' U'].
  assert (k < exponent v + 1) by (apply pow2_lt_inv; lra).
  assert (exponent v < k + 1) by (apply pow2_lt_inv; lra).
  lia.
Qed.

Lemma exponent_proper (a b : Q) : (0 < a)%Q -> (a == b)%Q -> exponent a = exponent b.
Proof.
  intros P E. apply exponent_unique. rewrite E. apply exponent_spec. rewrite <- E. exact P.
Qed.

Lemma exponent_mono (a b : Q) : (0 < a)%Q -> (a <= b)%Q -> exponent a <= exponent b.
Proof.
  intros P L.
  destruct (exponent_spec a P) as [La Ua].
  destruct (exponent_spec b) as [Lb Ub]; [lra |].
  assert (exponent a < exponent b + 1) by (apply pow2_lt_inv; lra). lia.
Qed.
Lemma nearest_eq (v : Q) :
  (nearest v == inject_Z (rne (v / 2 ^ (exponent v - 52))) * 2 ^ (exponent v - 52))%Q.
Proof. unfold nearest. apply Qred_correct. Qed.

Lemma pow2_split (k : Z) : (2 ^ k == 2 ^ 52 * 2 ^ (k - 52))%Q.
Proof. rewrite <- pow2_add. replace (52 + (k - 52)) with k by lia. reflexivity. Qed.

Lemma scaled_bounds (v : Q) (k : Z) :
  (2 ^ k <= v < 2 ^ (k + 1))%Q ->
  (2 ^ 52 <= v / 2 ^ (k - 52) < 2 ^ 53)%Q.
Proof.
  intros [L U]. pose proof (pow2_pos (k - 52)) as P.
  rewrite pow2_succ, (pow2_split k) in U. rewrite (pow2_split k) in L.
  assert (E : (v == v / 2 ^ (k - 52) * 2 ^ (k - 52))%Q) by (field; lra).
  set (x := (v / 2 ^ (k - 52))%Q) in *. set (w := (2 ^ (k - 52))%Q) in *.
  change (2 ^ 53)%Q with (2 * 2 ^ 52)%Q.
  set (c := (2 ^ 52)%Q) in *.
  split.
  - destruct (Qlt_le_dec x c) as [Y | Y]; [| exact Y]. exfalso. nra.
  - destruct (Qlt_le_dec x (2 * c)) as [Y | Y]; [exact Y |]. exfalso. nra.
Qed.

Lemma mantissa_bounds (x : Q) :
  (2 ^ 52 <= x < 2 ^ 53)%Q -> 2 ^ 52 <= rne x <= 2 ^ 53.
Proof.
  intros [L U]. split.
  - rewrite <- (rne_Z (2 ^ 52)). apply rne_mono. exact L.
  - rewrite <- (rne_Z (2 ^ 53)). apply rne_mono. apply Qlt_le_weak. exact U.
Qed.

(** What [nearest] gives: a mantissa of 53 bits at the exponent of [v]. *)
Lemma nearest_spec (v : Q) :
  (0 < v)%Q ->
  exists m : Z,
    2 ^ 52 <= m <= 2 ^ 53
    /\ (nearest v == inject_Z m * 2 ^ (exponent v - 52))%Q
    /\ m = rne (v / 2 ^ (exponent v - 52)).
Proof.
  intros P. exists (rne (v / 2 ^ (exponent v - 52))). split; [| split].
  - apply mantissa_bounds, scaled_bounds, exponent_spec, P.
  - apply nearest_eq.
  - reflexivity.
Qed.

Lemma nearest_bounds (v : Q) :
  (0 < v)%Q -> (2 ^ exponent v <= nearest v <= 2 ^ (exponent v + 1))%Q.
Proof.
  intros P. destruct (nearest_spec v P) as (m & [L U] & E & _).
  rewrite E, pow2_succ, (pow2_split (exponent v)).
  pose proof (pow2_pos (exponent v - 52)) as W.
  assert (Lq : (2 ^ 52 <= inject_Z m)%Q) by (rewrite Zle_Qle in L; exact L).
  assert (Uq : (inject_Z m <= 2 * 2 ^ 52)%Q) by (rewrite Zle_Qle in U; exact U).
  set (w := (2 ^ (exponent v - 52))%Q) in *. set (c := (2 ^ 52)%Q) in *.
  split; nra.
Qed.

Lemma nearest_pos (v : Q) : (0 < v)%Q -> (0 < nearest v)%Q.
Proof.
  intros P. destruct (nearest_bounds v P) as [L _].
  pose proof (pow2_pos (exponent v)). lra.
Qed.

Lemma nearest_proper (a b : Q) : (0 < a)%Q -> (a == b)%Q -> (nearest a == nearest b)%Q.
Proof.
  intros P E. rewrite !nearest_eq. rewrite (exponent_proper a b P E).
  rewrite (rne_proper (a / 2 ^ (exponent b - 52)) (b / 2 ^ (exponent b - 52))).
  - reflexivity.
  - rewrite E. reflexivity.
Qed.

Lemma nearest_mono (a b : Q) : (0 < a)%Q -> (a <= b)%Q -> (nearest a <= nearest b)%Q.
Proof.
  intros P L. assert (Pb : (0 < b)%Q) by lra.
  pose proof (exponent_mono a b P L) as K.
  destruct (Z.eq_dec (exponent a) (exponent b)) as [E | NE].
  - rewrite !nearest_eq, E.
    pose proof (pow2_pos (exponent b - 52)) as W.
    apply Qmult_le_compat_r; [| lra].
    rewrite <- Zle_Qle. apply rne_mono.
    apply Qmult_le_compat_r; [exact L |]. apply Qlt_le_weak, Qinv_lt_0_compat, W.
  - destruct (nearest_bounds a P) as [_ U]. destruct (nearest_bounds b Pb) as [B _].
    assert (M : (2 ^ (exponent a + 1) <= 2 ^ exponent b)%Q) by (apply pow2_le; lia).
    lra.
Qed.

Lemma nearest_grid (m e : Z) :
  2 ^ 52 <= m <= 2 ^ 53 -> (nearest (inject_Z m * 2 ^ e) == inject_Z m * 2 ^ e)%Q.
Proof.
  intros [L U]. pose proof (pow2_pos e) as W.
  assert (Lq : (2 ^ 52 <= inject_Z m)%Q) by (rewrite Zle_Qle in L; exact L).
  destruct (Z.eq_dec m (2 ^ 53)) as [E | NE].
  - subst m.
    assert (V : (inject_Z (2 ^ 53) * 2 ^ e == 2 ^ (53 + e))%Q).
    { rewrite pow2_add. reflexivity. }
    assert (K : exponent (inject_Z (2 ^ 53) * 2 ^ e) = 53 + e).
    { apply exponent_unique. rewrite V. split; [apply Qle_refl | apply pow2_lt; lia]. }
    rewrite nearest_eq, K.
    replace (53 + e - 52) with (1 + e) by lia.
    rewrite (rne_proper _ (inject_Z (2 ^ 52))).
    + rewrite rne_Z, pow2_add. change (2 ^ 1)%Q with 2%Q.
      change (inject_Z (2 ^ 53)) with (2 * inject_Z (2 ^ 52))%Q. ring.
    + rewrite pow2_add. change (2 ^ 1)%Q with 2%Q.
      change (inject_Z (2 ^ 53)) with (2 * inject_Z (2 ^ 52))%Q. field. lra.
  - assert (Uq : (inject_Z m < 2 * 2 ^ 52)%Q).
    { assert (m < 2 ^ 53) by lia. rewrite Zlt_Qlt in H. exact H. }
    assert (K : exponent (inject_Z m * 2 ^ e) = 52 + e).
    { apply exponent_unique. rewrite pow2_succ, pow2_add.
      set (w := (2 ^ e)%Q) in *. set (c := (2 ^ 52)%Q) in *. split; nra. }
    rewrite nearest_eq, K.
    replace (52 + e - 52) with e by lia.
    rewrite (rne_proper _ (inject_Z m)).
    + rewrite rne_Z. reflexivity.
    + field. lra.
Qed.

Lemma nearest_idem (v : Q) : (0 < v)%Q -> (nearest (nearest v) == nearest v)%Q.
Proof.
  intros P. destruct (nearest_spec v P) as (m & B & E & _).
  rewrite (nearest_proper _ _ (nearest_pos v P) E), E.
  apply nearest_grid, B.
Qed.

Lemma nearest_exact (m e : Z) :
  0 < m <= 2 ^ 53 -> (nearest (inject_Z m * 2 ^ e) == inject_Z m * 2 ^ e)%Q.
Proof.
  intros [P U].
  destruct (Z.eq_dec m (2 ^ 53)) as [E | NE]; [apply nearest_grid; lia |].
  destruct (Z.log2_spec m P) as [L1 L2]. pose proof (Z.log2_nonneg m) as NN.
  assert (J : Z.log2 m <= 52).
  { assert (Z.log2 m < 53); [| lia]. apply (Z.pow_lt_mono_r_iff 2); lia. }
  set (j := 52 - Z.log2 m).
  assert (V : (inject_Z m * 2 ^ e == inject_Z (m * 2 ^ j) * 2 ^ (e - j))%Q).
  { rewrite inject_Z_mult, pow2_Z by (unfold j; lia).
    rewrite <- Qmult_assoc, <- pow2_add. replace (j + (e - j)) with e by lia. reflexivity. }
  assert (Pv : (0 < inject_Z m * 2 ^ e)%Q).
  { pose proof (pow2_pos e). assert (0 < inject_Z m)%Q by (rewrite Zlt_Qlt in P; exact P). nra. }
  rewrite (nearest_proper _ _ Pv V), V. apply nearest_grid.
  assert (S52 : 2 ^ 52 = 2 ^ Z.log2 m * 2 ^ j).
  { rewrite <- Z.pow_add_r by (unfold j; lia). f_equal. unfold j. lia. }
  assert (S53 : 2 ^ 53 = 2 ^ Z.succ (Z.log2 m) * 2 ^ j).
  { rewrite <- Z.pow_add_r by (unfold j; lia). f_equal. unfold j. lia. }
  assert (0 < 2 ^ j) by (apply Z.pow_pos_nonneg; unfold j; lia).
  rewrite S52 at 1. rewrite S53. split; nia.
Qed.

Lemma nearest_error (v : Q) :
  (0 < v)%Q -> (Qabs (nearest v - v) <= v * (1 # 2 ^ 53))%Q.
Proof.
  intros P. pose proof (exponent_spec v P) as S.
  pose proof (scaled_bounds v _ S) as [L _].
  pose proof (rne_error (v / 2 ^ (exponent v - 52))) as R.
  rewrite nearest_eq.
  pose proof (pow2_pos (exponent v - 52)) as W.
  assert (E : (v == v / 2 ^ (exponent v - 52) * 2 ^ (exponent v - 52))%Q) by (field; lra).
  set (x := (v / 2 ^ (exponent v - 52))%Q) in *. set (w := (2 ^ (exponent v - 52))%Q) in *.
  apply Qabs_Qle_condition in R. destruct R as [R1 R2].
  set (m := inject_Z (rne x)) in *.
  assert (X : ((1 # 2) <= x * (1 # 2 ^ 53))%Q).
  { change (2 ^ 52)%Q with (4503599627370496 # 1)%Q in L. 
    change (1 # 2 ^ 53)%Q with (1 # 9007199254740992)%Q. lra. }
  apply Qabs_Qle_condition. rewrite E at 2 3 4.
  set (u := (1 # 2 ^ 53)%Q) in *.
  split; nra.
Qed.
Lemma binary64_pos (v : Q) : (0 < v)%Q -> binary64 v = nearest v.
Proof. intros P. unfold binary64. rewrite (proj1 (Qgt_alt v 0) P). reflexivity. Qed.

Lemma binary64_neg (v : Q) : (v < 0)%Q -> binary64 v = (- nearest (- v))%Q.
Proof. intros P. unfold binary64. rewrite (proj1 (Qlt_alt v 0) P). reflexivity. Qed.

Lemma binary64_zero (v : Q) : (v == 0)%Q -> binary64 v = 0%Q.
Proof. intros P. unfold binary64. rewrite (proj1 (Qeq_alt v 0) P). reflexivity. Qed.

Lemma binary64_sign (v : Q) :
  ((v < 0)%Q /\ binary64 v = (- nearest (- v))%Q /\ (0 < nearest (- v))%Q)
  \/ ((v == 0)%Q /\ binary64 v = 0%Q)
  \/ ((0 < v)%Q /\ binary64 v = nearest v /\ (0 < nearest v)%Q).
Proof.
  destruct (Q_dec v 0) as [[N | P] | Z].
  - left. split; [exact N |]. split; [apply binary64_neg, N | apply nearest_pos; lra].
  - right. right. split; [exact P |]. split; [apply binary64_pos, P | apply nearest_pos, P].
  - right. left. split; [exact Z | apply binary64_zero, Z].
Qed.

Lemma binary64_proper (a b : Q) : (a == b)%Q -> (binary64 a == binary64 b)%Q.
Proof.
  intros E.
  destruct (binary64_sign a) as [(Sa & Ea & _) | [(Sa & Ea) | (Sa & Ea & _)]];
    destruct (binary64_sign b) as [(Sb & Eb & _) | [(Sb & Eb) | (Sb & Eb & _)]];
    rewrite Ea, Eb; try lra.
  - apply Qopp_comp. apply nearest_proper; lra.
  - apply nearest_proper; lra.
Qed.

Lemma binary64_mono (a b : Q) : (a <= b)%Q -> (binary64 a <= binary64 b)%Q.
Proof.
  intros L.
  destruct (binary64_sign a) as [(Sa & Ea & Pa) | [(Sa & Ea) | (Sa & Ea & Pa)]];
    destruct (binary64_sign b) as [(Sb & Eb & Pb) | [(Sb & Eb) | (Sb & Eb & Pb)]];
    rewrite Ea, Eb; try lra.
  - assert (nearest (- b) <= nearest (- a))%Q by (apply nearest_mono; lra). lra.
  - apply nearest_mono; lra.
Qed.

Lemma binary64_opp (a : Q) : (binary64 (- a) == - binary64 a)%Q.
Proof.
  destruct (binary64_sign a) as [(Sa & Ea & _) | [(Sa & Ea) | (Sa & Ea & _)]]; rewrite Ea.
  - rewrite binary64_pos by lra. lra.
  - rewrite binary64_zero by lra. lra.
  - rewrite binary64_neg by lra. apply Qopp_comp. apply nearest_proper; lra.
Qed.

Lemma binary64_idem (a : Q) : (binary64 (binary64 a) == binary64 a)%Q.
Proof.
  destruct (binary64_sign a) as [(Sa & Ea & Pa) | [(Sa & Ea) | (Sa & Ea & Pa)]]; rewrite Ea.
  - rewrite binary64_neg by lra. apply Qopp_comp.
    rewrite (nearest_proper (- - nearest (- a)) (nearest (- a))) by lra.
    apply nearest_idem. lra.
  - reflexivity.
  - rewrite binary64_pos by exact Pa. apply nearest_idem, Sa.
Qed.

Lemma binary64_exact (m e : Z) :
  Z.abs m <= 2 ^ 53 -> (binary64 (inject_Z m * 2 ^ e) == inject_Z m * 2 ^ e)%Q.
Proof.
  intros B. pose proof (pow2_pos e) as W.
  destruct (Z.lt_trichotomy m 0) as [N | [Z | P]].
  - assert (Nq : (inject_Z m < 0)%Q) by (rewrite Zlt_Qlt in N; exact N).
    rewrite binary64_neg by nra.
    rewrite (nearest_proper _ (inject_Z (- m) * 2 ^ e)).
    + rewrite nearest_exact by lia. rewrite inject_Z_opp. ring.
    + nra.
    + rewrite inject_Z_opp. ring.
  - subst m. rewrite binary64_zero; ring.
  - assert (Pq : (0 < inject_Z m)%Q) by (rewrite Zlt_Qlt in P; exact P).
    rewrite binary64_pos by nra. apply nearest_exact. lia.
Qed.

Lemma binary64_error (a : Q) : (Qabs (binary64 a - a) <= Qabs a * (1 # 2 ^ 53))%Q.
Proof.
  destruct (binary64_sign a) as [(Sa & Ea & Pa) | [(Sa & Ea) | (Sa & Ea & Pa)]]; rewrite Ea.
  - rewrite (Qabs_neg a) by lra.
    pose proof (nearest_error (- a) ltac:(lra)) as R.
    apply Qabs_Qle_condition in R. apply Qabs_Qle_condition. split; lra.
  - rewrite Sa. discriminate.
  - rewrite (Qabs_pos a) by lra. apply nearest_error, Sa.
Qed.

Lemma binary64_sqrt_nonneg (v : Q) : (0 <= binary64_sqrt v)%Q.
Proof.
  unfold binary64_sqrt. destruct (v ?= 0)%Q; try apply Qle_refl.
  rewrite Qred_correct.
  set (f := Z.sqrt _). pose proof (Z.sqrt_nonneg (Qfloor (v / 2 ^ (2 * (exponent v / 2 - 52))))) as F.
  fold f in F. pose proof (pow2_pos (exponent v / 2 - 52)) as W.
  apply Qmult_le_0_compat; [| lra].
  change 0%Q with (inject_Z 0). rewrite <- Zle_Qle.
  destruct (_ ?= _)%Q; try destruct (Z.even f); lia.
Qed.

Lemma example_random_range (n : nat) : (0 <= (1 # 2) /\ (1 # 2) < 1)%Q.
Proof. split; lra. Qed.

Lemma example_random_double (n : nat) : ((1 # 2) <= 1 - (1 # 2 ^ 53))%Q.
Proof. unfold Qle. simpl. lia. Qed.

Definition exampleMath : JSMath :=
  Build_JSMath binary64 binary64_proper binary64_mono binary64_opp binary64_idem
               binary64_exact binary64_error
               binary64_sqrt binary64_sqrt_nonneg
               (fun _ => (1 # 2)%Q) example_random_range example_random_double.

(** ** Example games *)

Definition exampleNode (x y : Z) (adj : list nat) (team : Player.Team) (troops : Z)
    : MapNode.MapNode :=
  MapNode.mk (inject_Z x) (inject_Z y) adj team troops MapNode.Normal None false.

(** Three nodes on a 3-4-5 triangle and an isolated fourth one. *)
Definition exampleGame : Game.Game :=
  Game.mk [exampleNode 0 0 [1; 2]%nat Player.Red 50;
           exampleNode 3 0 [0; 2]%nat Player.Red 10;
           exampleNode 3 4 [0; 1]%nat Player.Blue 10;
           exampleNode 10 10 [] Player.Red 5] 0 [] 0.

(** Four red nodes on the x axis: node 0 at 0, node 1 a hair to its left,
    at [- 2^-60], node 2 at one half and node 3 at 1; nodes 1 and 2 are
    joined to nodes 0 and 3. *)
Definition lineGame : Game.Game :=
  Game.mk [MapNode.mk 0 0 [1; 2]%nat Player.Red 50 MapNode.Normal None false;
           MapNode.mk (- (1 # 2 ^ 60)) 0 [0; 3]%nat Player.Red 10 MapNode.Normal None false;
           MapNode.mk (1 # 2) 0 [0; 3]%nat Player.Red 10 MapNode.Normal None false;
           MapNode.mk 1 0 [1; 2]%nat Player.Red 10 MapNode.Normal None false] 0 [] 0.

(** Two neutral nodes, the first with the price of a factory. *)
Definition neutralGame : Game.Game :=
  Game.mk [exampleNode 0 0 [1]%nat Player.Neutral 200;
           exampleNode 3 4 [0]%nat Player.Neutral 10] 0 [] 0.

(** The example game, with a standing order from node 0 to node 2. *)
Definition orderedGame : Game.Game :=
  Game.mk (<[0%nat := MapNode.set_assign (Some 2%nat)
                        (MapNode.get (Game.nodes exampleGame) 0)]> (Game.nodes exampleGame))
          0 [] 0.

(** The example game with two armies under way: a red one at the gates of
    the blue node 2, a blue one leaving it. *)
Definition marchingGame : Game.Game :=
  Game.mk (Game.nodes exampleGame) 7
          [MapArmy.mk 2 0 20 Player.Blue 0 1 0; MapArmy.mk 0 2 50 Player.Red 2 0 5] 2.

(** Two armies that differ in their final destination only. *)
Definition armyToNear : MapArmy.MapArmy := MapArmy.mk 0 1 50 Player.Red 1 7 3.
Definition armyToFar : MapArmy.MapArmy := MapArmy.mk 0 1 50 Player.Red 2 7 3.

(** ** Games ready for a tick *)
Section Ready.
Context `{JSMath}.

(** No edge of the map rounds to a length of zero (the generator keeps the
    nodes it joins at least [minDist] apart). *)
Definition edgesLong (nodes : list MapNode.MapNode) : Prop :=
  forall u v, In v (MapNode.adj (MapNode.get nodes u)) ->
    1 <= MapNode.intDistance (MapNode.get nodes u) (MapNode.get nodes v).

(** What [tick] asks of a game, on a map with no such edge. *)
Definition ready (g : Game.Game) : Prop :=
  wfNodes (Game.nodes g) /\ edgesLong (Game.nodes g)
  /\ nodesOk (Game.nodes g) /\ armiesReady (Game.nodes g) (Game.armies g).

End Ready.

(** ** Counting troops and naming armies *)

(** The troops of all the nodes, of all the armies, and of the game. *)
Definition nodeTroops (nodes : list MapNode.MapNode) : Z :=
  foldr (fun node total => MapNode.troops node + total) 0 nodes.

Definition armyTroops (armies : list MapArmy.MapArmy) : Z :=
  foldr (fun army total => MapArmy.troops army + total) 0 armies.

Definition totalTroops (g : Game.Game) : Z :=
  nodeTroops (Game.nodes g) + armyTroops (Game.armies g).

(** The ids of the armies are all different and all below the counter. *)
Definition idsFresh (g : Game.Game) : Prop :=
  NoDup (map MapArmy.id (Game.armies g))
  /\ Forall (fun army => MapArmy.id army < Game.armyCounter g) (Game.armies g).

(** ** Armies from one tick to the next *)

Section Marching.
Context `{JSMath}.

(** [b] is the army [a] a tick later: on the same edge, of the same team,
    with the same destination and id, at the same place or, if [a] was not
    at the end of its edge, one step further. *)
Definition marched (nodes : list MapNode.MapNode) (a b : MapArmy.MapArmy) : Prop :=
  MapArmy.from b = MapArmy.from a /\ MapArmy.to b = MapArmy.to a
  /\ MapArmy.team b = MapArmy.team a /\ MapArmy.finalDest b = MapArmy.finalDest a
  /\ MapArmy.id b = MapArmy.id a
  /\ (MapArmy.distance b = MapArmy.distance a
      \/ MapArmy.distance b = MapArmy.distance a + 1 /\ ~ atEnd nodes a).

(** The order to send troops on comes from the army [a], which arrived at a
    node that is not its destination. *)
Definition sentOnBy (nodes : list MapNode.MapNode) (a : MapArmy.MapArmy)
    (order : nat * nat * Z) : Prop :=
  order.1.1 = MapArmy.to a /\ order.1.2 = MapArmy.finalDest a
  /\ MapArmy.finalDest a <> MapArmy.to a /\ atEnd nodes a.

(** The invariant of the loop of [MapArmy.tick] for [marched], before the
    army at position [i] has its turn. *)
Definition marching (nodes0 : list MapNode.MapNode) (sorted : list MapArmy.MapArmy)
    (i : nat) (st : MapArmy.store) : Prop :=
  sameMap nodes0 (MapArmy.st_nodes st)
  /\ length (MapArmy.st_armies st) = length sorted
  /\ (forall k, marched nodes0 (MapArmy.get sorted k) (MapArmy.get (MapArmy.st_armies st) k)
                /\ ((i <= k)%nat ->
                    MapArmy.distance (MapArmy.get (MapArmy.st_armies st) k)
                    = MapArmy.distance (MapArmy.get sorted k)))
  /\ Forall (fun order => exists k, (k < length sorted)%nat
                                    /\ sentOnBy nodes0 (MapArmy.get sorted k) order)
            (MapArmy.st_toSend st).

End Marching.

(** What the commands and the loops of [tick] keep of the ids: the counter
    never goes back, and armies with ids that were fresh have fresh ids. *)
Definition keepsIds (g g' : Game.Game) : Prop :=
  Game.tickNumber g' = Game.tickNumber g
  /\ Game.armyCounter g <= Game.armyCounter g'
  /\ (idsFresh g -> idsFresh g').

(** The troops in the field: an army that has been beaten below zero counts
    for nothing. *)
Definition fieldTroops (armies : list MapArmy.MapArmy) : Z :=
  foldr (fun army total => Z.max (MapArmy.troops army) 0 + total) 0 armies.

(** ** Armies on the edges of the map *)

Section OnEdges.
Context `{JSMath}.

(** The army is on an edge of the map, somewhere between its two ends. *)
Definition onEdge (nodes : list MapNode.MapNode) (a : MapArmy.MapArmy) : Prop :=
  In (MapArmy.to a) (MapNode.adj (MapNode.get nodes (MapArmy.from a)))
  /\ 0 <= MapArmy.distance a
       <= MapNode.intDistance (MapNode.get nodes (MapArmy.from a))
                              (MapNode.get nodes (MapArmy.to a)).

Definition onEdges (g : Game.Game) : Prop :=
  Forall (onEdge (Game.nodes g)) (Game.armies g).

(** What the commands and the loops of [tick] keep of the map and of the
    places of the armies. *)
Definition keepsEdges (g g' : Game.Game) : Prop :=
  sameMap (Game.nodes g) (Game.nodes g')
  /\ (wfNodes (Game.nodes g) -> onEdges g -> onEdges g').

End OnEdges.

(** ** Production *)

(** The most a node can make in a tick: a factory twice one more than the
    number of its neighbours, any other node one. *)
Definition capacity (node : MapNode.MapNode) : Z :=
  if bool_decide (MapNode.type node = MapNode.Factory)
  then 2 * (1 + Z.of_nat (length (MapNode.adj node))) else 1.

(** The most the nodes can make in the tick of number [tickNumber]. *)
Definition production (nodes : list MapNode.MapNode) (tickNumber : Z) : Z :=
  if Z.even tickNumber then foldr (fun node total => capacity node + total) 0 nodes else 0.

(** Every node of [nodes'] has the building it has in [nodes], or none. *)
Definition lowered (nodes nodes' : list MapNode.MapNode) : Prop :=
  forall k, MapNode.type (MapNode.get nodes' k) = MapNode.type (MapNode.get nodes k)
            \/ MapNode.type (MapNode.get nodes' k) = MapNode.Normal.

(** The invariant of the loops of [Game.tick] for the count of the troops:
    the map and the tick number are those of the start, and no node has
    got a building. *)
Definition producing (nodes0 : list MapNode.MapNode) (t : Z) (g : Game.Game) : Prop :=
  sameMap nodes0 (Game.nodes g) /\ lowered nodes0 (Game.nodes g) /\ Game.tickNumber g = t.

(** ** Standing orders *)

(** Every node of [nodes'] has the standing order it has in [nodes], or none. *)
Definition ordersKept (nodes nodes' : list MapNode.MapNode) : Prop :=
  forall k, MapNode.assign (MapNode.get nodes' k) = MapNode.assign (MapNode.get nodes k)
            \/ MapNode.assign (MapNode.get nodes' k) = None.

(** The node at [k] has no standing order, or no troops left. *)
Definition settled (g : Game.Game) (k : nat) : Prop :=
  MapNode.assign (MapNode.get (Game.nodes g) k) = None
  \/ MapNode.troops (MapNode.get (Game.nodes g) k) = 0.

(** ** Rooms *)

(** A room in its lobby: no game yet. *)
Definition lobby (r : Room.Room) : Prop :=
  Room.isLaunched r = false /\ Room.isRunning r = false /\ Room.game r = None.

(** The teams of the players are their ranks in the room: 1 for the first. *)
Definition ranked (r : Room.Room) : Prop :=
  forall i player, Room.players r !! i = Some player -> Room.team r player = Z.of_nat (S i).

(** A room whose flags agree: it has a game exactly when it is launched,
    a timer exactly when it is running, it runs only when launched, and it
    is launched only while somebody plays. *)
Definition coherent (r : Room.Room) : Prop :=
  Room.hasGame r = Room.isLaunched r
  /\ Room.tickInterval r = Room.isRunning r
  /\ (Room.isRunning r = true -> Room.isLaunched r = true)
  /\ (Room.isLaunched r = true -> Room.players r <> []).

(** * Properties *)

(** ** The rounding to the nearest double *)

Section Doubles.
Context `{JSMath}.

#[global] Instance double_Proper : Proper (Qeq ==> Qeq) double.
Proof. intros a b E. apply double_proper, E. Qed.

Lemma double_Z (m : Z) : Z.abs m <= 2 ^ 53 -> (double (inject_Z m) == inject_Z m)%Q.
Proof.
  intros B. pose proof (double_exact m 0 B) as E.
  change (2 ^ 0)%Q with 1%Q in E. rewrite Qmult_1_r in E. exact E.
Qed.

Lemma double_0 : (double 0 == 0)%Q.
Proof. apply (double_Z 0). discriminate. Qed.

Lemma double_nonneg (a : Q) : (0 <= a)%Q -> (0 <= double a)%Q.
Proof. intros P. rewrite <- double_0. apply double_mono, P. Qed.

(** A non-negative number moves by at most its 2^53rd part. *)
Lemma double_near (a : Q) :
  (0 <= a)%Q ->
  (a - a * (1 # 2 ^ 53) <= double a /\ double a <= a + a * (1 # 2 ^ 53))%Q.
Proof.
  intros P. pose proof (double_error a) as E.
  rewrite (Qabs_pos a P) in E. apply Qabs_Qle_condition in E. lra.
Qed.

Lemma double_pos (a : Q) : (0 < a)%Q -> (0 < double a)%Q.
Proof.
  intros P. destruct (double_near a) as [L _]; [lra |].
  assert (a * (1 # 2 ^ 53) < a)%Q; [| lra].
  assert (U : ((1 # 2 ^ 53) < 1)%Q) by reflexivity. nra.
Qed.

(** Adding a non-negative number to a double gives no less, rounded. *)
Lemma double_grows (a w : Q) :
  (double a == a)%Q -> (0 <= w)%Q -> (a <= double (a + w))%Q.
Proof.
  intros E P. rewrite <- E at 1. apply double_mono. lra.
Qed.

End Doubles.

(** ** MapNode.tick *)

Lemma rem2_even (t : Z) : (Z.rem t 2 =? 0) = Z.even t.
Proof.
  pose proof (Z.quot_rem' t 2) as E.
  assert (B : -1 <= Z.rem t 2 <= 1).
  { pose proof (Z.rem_bound_abs t 2 ltac:(lia)). lia. }
  destruct (Z.eqb_spec (Z.rem t 2) 0) as [Z0 | NZ].
  - rewrite E, Z0, Z.add_0_r. symmetry. apply Z.even_mul; reflexivity.
  - rewrite E. rewrite Z.add_comm, Z.even_add_mul_2.
    assert (C : Z.rem t 2 = 1 \/ Z.rem t 2 = -1) by lia.
    destruct C as [-> | ->]; reflexivity.
Qed.

Lemma mult_fold nodes this (l : list nat) (m : Z) :
  fold_left (fun m a => if MapNode.powered nodes this a then m + 1 else m) l m
  = m + Z.of_nat
          (length
             (List.filter
                (fun a => bool_decide
                            (MapNode.team (MapNode.get nodes a) = MapNode.team this
                             /\ MapNode.type (MapNode.get nodes a) = MapNode.PowerPlant))
                l)).
Proof.
  revert m. induction l as [| a l IH]; intros m; simpl.
  - lia.
  - rewrite IH. unfold MapNode.powered.
    destruct (decide (MapNode.team (MapNode.get nodes a) = MapNode.team this)) as [T | T],
             (decide (MapNode.type (MapNode.get nodes a) = MapNode.PowerPlant)) as [P | P];
      rewrite ?(bool_decide_eq_true_2 _ T), ?(bool_decide_eq_false_2 _ T),
              ?(bool_decide_eq_true_2 _ P), ?(bool_decide_eq_false_2 _ P); simpl andb.
    + rewrite bool_decide_eq_true_2 by tauto. simpl length. lia.
    + rewrite bool_decide_eq_false_2 by tauto. lia.
    + rewrite bool_decide_eq_false_2 by tauto. lia.
    + rewrite bool_decide_eq_false_2 by tauto. lia.
Qed.

Lemma mult_count nodes this :
  MapNode.mult nodes this = 1 + poweredNeighbours nodes this.
Proof. apply mult_fold. Qed.

(** C8.  The production step of a node.  On an odd tick number, or when the
    node was attacked, the troops are unchanged; otherwise a factory gains
    twice one more than the number of its adjacent nodes that are of its
    team and hold a power plant, and any other node gains exactly one; the
    flag is false afterwards in every branch, and nothing else of the node
    changes. *)
Theorem node_tick_production (nodes : list MapNode.MapNode) (this : MapNode.MapNode)
    (tickNumber : Z) :
  let after := MapNode.tick nodes this tickNumber in
  MapNode.wasAttacked after = false
  /\ (Z.odd tickNumber = true \/ MapNode.wasAttacked this = true ->
      MapNode.troops after = MapNode.troops this)
  /\ (Z.odd tickNumber = false -> MapNode.wasAttacked this = false ->
      MapNode.troops after
      = MapNode.troops this
        + (if bool_decide (MapNode.type this = MapNode.Factory)
           then 2 * (1 + poweredNeighbours nodes this) else 1))
  /\ MapNode.team after = MapNode.team this
  /\ MapNode.type after = MapNode.type this
  /\ MapNode.assign after = MapNode.assign this
  /\ MapNode.adj after = MapNode.adj this.
Proof.
  unfold MapNode.tick. rewrite rem2_even, <- Z.negb_even, <- mult_count.
  destruct (Z.even tickNumber), (MapNode.wasAttacked this) eqn:W,
    (bool_decide (MapNode.type this = MapNode.Factory)); simpl;
    repeat split; try reflexivity; try assumption; intros; try lia; try discriminate;
    intuition discriminate.
Qed.

(** ** Game.unassign *)

Lemma get_insert_eq (nodes : list MapNode.MapNode) (i : nat) (n : MapNode.MapNode) :
  (i < length nodes)%nat -> MapNode.get (<[i := n]> nodes) i = n.
Proof. intros L. unfold MapNode.get. rewrite list_lookup_insert_eq; [reflexivity | exact L]. Qed.

Lemma get_insert_ne (nodes : list MapNode.MapNode) (i j : nat) (n : MapNode.MapNode) :
  i <> j -> MapNode.get (<[i := n]> nodes) j = MapNode.get nodes j.
Proof. intros N. unfold MapNode.get. rewrite list_lookup_insert_ne; [reflexivity | exact N]. Qed.

Lemma get_owned_in_range (nodes : list MapNode.MapNode) (i : nat) (team : Player.Team) :
  team <> Player.Neutral -> MapNode.team (MapNode.get nodes i) = team ->
  (i < length nodes)%nat.
Proof.
  intros NN E. unfold MapNode.get in E.
  destruct (nodes !! i) eqn:L.
  - eapply lookup_lt_Some; eassumption.
  - simpl in E. congruence.
Qed.

(** C9.  [unassign] is idempotent: a second call returns what the first one
    returned and leaves the game as the first one left it. *)
Theorem unassign_idempotent (g : Game.Game) (team : Player.Team) (from : nat) :
  Game.unassign (snd (Game.unassign g team from)) team from = Game.unassign g team from.
Proof.
  unfold Game.unassign.
  destruct (bool_decide (team = Player.Neutral)) eqn:N; simpl; [reflexivity |].
  destruct (bool_decide (MapNode.team (MapNode.get (Game.nodes g) from) = team)) eqn:T;
    simpl; [| rewrite T; reflexivity].
  apply bool_decide_eq_false in N. pose proof T as T'. apply bool_decide_eq_true in T'.
  pose proof (get_owned_in_range _ _ _ N T') as L.
  rewrite get_insert_eq by exact L.
  simpl. rewrite T. simpl. unfold Game.set_nodes; simpl.
  rewrite list_insert_insert_eq. reflexivity.
Qed.

(** ** Game.build *)

(** C6, as stated, fails: the neutral team "owns" a neutral node that holds
    the price of a factory and has no building, yet [build] refuses. *)
Lemma build_neutral_refused :
  let node := MapNode.get (Game.nodes neutralGame) 0 in
  (MapNode.team node = Player.Neutral
   /\ MapNode.type node <> MapNode.Factory
   /\ Game.buildingCosts MapNode.Factory = Some 200
   /\ MapNode.troops node >= 200)
  /\ Game.build neutralGame Player.Neutral 0 MapNode.Factory = (false, neutralGame).
Proof. vm_compute. repeat split; try discriminate; reflexivity. Qed.

(** C6, amended.  [build] succeeds exactly when the team is not the neutral
    one, the type is one of the four buildings, the team owns the node, the
    type differs from the node's building and the node holds the cost; then
    the cost is debited and the building set, nothing else changing;
    otherwise the game is unchanged. *)
Theorem build_spec (g : Game.Game) (team : Player.Team) (node : nat)
    (type : MapNode.NodeType) :
  let n := MapNode.get (Game.nodes g) node in
  let cost :=
    match type with
    | MapNode.Factory => 200 | MapNode.PowerPlant => 1000
    | MapNode.Fort => 500 | MapNode.Artillery => 2000
    | MapNode.Normal => 0
    end in
  let ok := fst (Game.build g team node type) in
  let g' := snd (Game.build g team node type) in
  (ok = true <->
     team <> Player.Neutral /\ type <> MapNode.Normal
     /\ MapNode.team n = team /\ MapNode.type n <> type /\ cost <= MapNode.troops n)
  /\ (ok = true ->
        MapNode.get (Game.nodes g') node
        = MapNode.set_troops (MapNode.troops n - cost) (MapNode.set_type type n)
        /\ (forall other, other <> node ->
              MapNode.get (Game.nodes g') other = MapNode.get (Game.nodes g) other)
        /\ length (Game.nodes g') = length (Game.nodes g)
        /\ Game.armies g' = Game.armies g
        /\ Game.tickNumber g' = Game.tickNumber g
        /\ Game.armyCounter g' = Game.armyCounter g)
  /\ (ok = false -> g' = g).
Proof.
  intros n cost ok g'. subst ok g'. unfold Game.build. fold n.
  destruct (bool_decide (team = Player.Neutral)) eqn:N; simpl.
  { apply bool_decide_eq_true in N.
    split; [split; [discriminate | tauto] | split; [discriminate | reflexivity]]. }
  apply bool_decide_eq_false in N.
  destruct (bool_decide (Game.buildingCosts type = None)) eqn:C; simpl.
  { apply bool_decide_eq_true in C.
    assert (type = MapNode.Normal) by (destruct type; simpl in C; congruence).
    split; [split; [discriminate | tauto] | split; [discriminate | reflexivity]]. }
  apply bool_decide_eq_false in C.
  assert (TN : type <> MapNode.Normal) by (intros ->; apply C; reflexivity).
  assert (CE : default 0 (Game.buildingCosts type) = cost) by (destruct type; reflexivity).
  rewrite CE.
  destruct (bool_decide (MapNode.team n = team)) eqn:T; simpl.
  2:{ apply bool_decide_eq_false in T.
      split; [split; [discriminate | tauto] | split; [discriminate | reflexivity]]. }
  apply bool_decide_eq_true in T.
  destruct (bool_decide (MapNode.type n = type)) eqn:Y; simpl.
  { apply bool_decide_eq_true in Y.
    split; [split; [discriminate | tauto] | split; [discriminate | reflexivity]]. }
  apply bool_decide_eq_false in Y.
  destruct (Z.geb_spec (MapNode.troops n) cost) as [GE | LT]; simpl.
  - split; [split; [intros _; repeat split; try assumption; lia | reflexivity] |].
    split; [| discriminate]. intros _.
    pose proof (get_owned_in_range _ _ _ N T) as L.
    repeat split.
    + apply get_insert_eq, L.
    + intros other NE. apply get_insert_ne. congruence.
    + apply length_insert.
  - split; [split; [discriminate | intros (_ & _ & _ & _ & LE); lia] |].
    split; [discriminate | reflexivity].
Qed.

(** ** MapArmy.toJSON *)

(** C2, as stated, fails: two armies that differ in their final destination
    only serialize to the same JSON, so nothing re-hydrates the final
    destination from it. *)
Lemma toJSON_forgets_finalDest :
  MapArmy.toJSON armyToNear = MapArmy.toJSON armyToFar
  /\ MapArmy.finalDest armyToNear <> MapArmy.finalDest armyToFar
  /\ ~ (exists rehydrate : MapArmy.MapArmyJSON -> nat,
          rehydrate (MapArmy.toJSON armyToNear) = MapArmy.finalDest armyToNear
          /\ rehydrate (MapArmy.toJSON armyToFar) = MapArmy.finalDest armyToFar).
Proof.
  split; [reflexivity |]. split; [discriminate |].
  intros (f & E1 & E2). change (MapArmy.toJSON armyToFar) with (MapArmy.toJSON armyToNear) in E2.
  rewrite E1 in E2. discriminate.
Qed.

(** C2, amended.  The serialization of an army holds the id of its origin
    node, the id of the node it is heading to, its troops, its progress, its
    team and its id, and nothing of its final destination: an army is
    re-hydrated from its JSON once its final destination is supplied, and two
    armies have the same JSON exactly when they agree on those six fields. *)
Theorem toJSON_spec (army other : MapArmy.MapArmy) :
  let json := MapArmy.toJSON army in
  (MapArmy.json_from json = MapArmy.from army
   /\ MapArmy.json_to json = MapArmy.to army
   /\ MapArmy.json_troops json = MapArmy.troops army
   /\ MapArmy.json_distance json = MapArmy.distance army
   /\ MapArmy.json_team json = MapArmy.team army
   /\ MapArmy.json_id json = MapArmy.id army)
  /\ MapArmy.mk (MapArmy.json_from json) (MapArmy.json_to json) (MapArmy.json_troops json)
                (MapArmy.json_team json) (MapArmy.finalDest army) (MapArmy.json_id json)
                (MapArmy.json_distance json) = army
  /\ (MapArmy.toJSON army = MapArmy.toJSON other <->
      MapArmy.from army = MapArmy.from other
      /\ MapArmy.to army = MapArmy.to other
      /\ MapArmy.troops army = MapArmy.troops other
      /\ MapArmy.distance army = MapArmy.distance other
      /\ MapArmy.team army = MapArmy.team other
      /\ MapArmy.id army = MapArmy.id other).
Proof.
  destruct army, other; unfold MapArmy.toJSON; simpl.
  split; [repeat split | split; [reflexivity | split]].
  - intros E. inversion E; subst. repeat split.
  - intros (-> & -> & -> & -> & -> & ->). reflexivity.
Qed.

(** ** MapArmy.battle *)

(** C1, as stated, fails: with pools of 100 and 200, both modifiers 1 and a
    random draw of one half, the code leaves 95 and 197 troops, where the
    losses as the specification words them would leave 98 and 197. *)
Lemma battle_not_as_specified :
  fst (@MapArmy.battle exampleMath 100 200 1 1 0) = (95, 197)
  /\ @specBattle exampleMath 100 200 1 1 0 = (98, 197)
  /\ fst (@MapArmy.battle exampleMath 100 200 1 1 0) <> @specBattle exampleMath 100 200 1 1 0.
Proof. vm_compute. repeat split; discriminate. Qed.

Section Battle.
Context `{JSMath}.

Lemma factor_bounds (u r a b c f : Q) :
  (u == 1 # 9007199254740992)%Q ->
  ((1 # 10) - (1 # 10) * u <= r /\ r <= (1 # 10) + (1 # 10) * u)%Q ->
  ((1 - r) - (1 - r) * u <= a /\ a <= (1 - r) + (1 - r) * u)%Q ->
  (0 <= b /\ b <= 2)%Q ->
  (0 <= c /\ c <= b * r + b * r * u)%Q ->
  ((a + c) - (a + c) * u <= f /\ f <= (a + c) + (a + c) * u)%Q ->
  ((9 # 10) - (1 # 1000000000000000) <= f /\ f <= (11 # 10) + (1 # 1000000000000000))%Q.
Proof.
  intros Eu [R1 R2] [A1 A2] [B1 B2] [C1 C2] [F1 F2].
  assert (P1 : (b * r <= 2 * r)%Q) by nra.
  assert (Pu : (b * r * u <= 2 * r * u)%Q) by nra.
  assert (Au : (a * u <= 1 * u)%Q) by nra.
  assert (Ru : (r * u <= 1 * u)%Q) by nra.
  assert (Cu : (c * u <= 1 * u)%Q) by nra.
  assert (Ru' : (0 <= r * u)%Q) by nra.
  assert (Au' : (0 <= a * u)%Q) by nra.
  assert (Cu' : (0 <= c * u)%Q) by nra.
  split; lra.
Qed.

(** The random factor of a loss is within a tenth of one, up to the
    rounding of the doubles. *)
Lemma factor_range (s : nat) :
  let factor := double (double (1 - double (1 # 10))
                        + double (double (Math_random s * 2) * double (1 # 10)))%Q in
  ((9 # 10) - (1 # 10 ^ 15) <= factor /\ factor <= (11 # 10) + (1 # 10 ^ 15))%Q.
Proof.
  intros factor. subst factor.
  pose proof (Math_random_range s) as [L U].
  pose proof (double_near (1 # 10) ltac:(lra)) as R.
  assert (R' : (double (1 # 10) <= 1 # 2)%Q).
  { destruct R as [_ R]. assert (((1 # 10) * (1 # 2 ^ 53) <= 1 # 10)%Q) by (unfold Qle; simpl; lia). lra. }
  assert (A' : (0 <= 1 - double (1 # 10))%Q) by lra.
  pose proof (double_near _ A') as A.
  assert (B : (0 <= double (Math_random s * 2) /\ double (Math_random s * 2) <= 2)%Q).
  { split; [apply double_nonneg; lra |].
    pose proof (double_Z 2 ltac:(discriminate)) as E2. change (inject_Z 2) with 2%Q in E2.
    assert (M : (Math_random s * 2 <= 2)%Q) by lra.
    pose proof (double_mono _ _ M). lra. }
  assert (P0 : (0 <= double (Math_random s * 2) * double (1 # 10))%Q).
  { apply Qmult_le_0_compat; [apply B | apply double_nonneg; lra]. }
  pose proof (double_near _ P0) as [_ C].
  pose proof (double_nonneg _ P0) as C0.
  assert (A0 : (0 <= double (1 - double (1 # 10)))%Q) by (apply double_nonneg; lra).
  assert (F' : (0 <= double (1 - double (1 # 10))
                     + double (double (Math_random s * 2) * double (1 # 10)))%Q) by lra.
  pose proof (double_near _ F') as F.
  exact (factor_bounds (1 # 2 ^ 53) _ _ _ _ _ ltac:(reflexivity) R A B (conj C0 C) F).
Qed.

(** C1, amended.  For two positive, unequal pools it is the larger pool
    whose raw loss is its own troop count times 1/80 times a random factor
    [1 - 0.1 + Math.random() * 2 * 0.1], within [0.9, 1.1] up to the
    rounding, and the smaller pool's raw loss is that loss times
    [larger / smaller]; each raw loss is then multiplied by its modifier,
    rounded up and subtracted from its pool.  Every product, quotient, sum
    and difference is that of the doubles. *)
Theorem battle_losses (troopsA troopsB : Z) (multA multB : Q) (s : nat) :
  0 < troopsA -> 0 < troopsB -> troopsA <> troopsB ->
  let larger := Z.max troopsA troopsB in
  let smaller := Z.min troopsA troopsB in
  let factor := double (double (1 - double (1 # 10))
                        + double (double (Math_random s * 2) * double (1 # 10)))%Q in
  let lossLarger := double (double (inject_Z larger * double (1 / 80)) * factor)%Q in
  let lossSmaller := double (lossLarger * double (inject_Z larger / inject_Z smaller))%Q in
  let lossesA := if troopsA <? troopsB then lossSmaller else lossLarger in
  let lossesB := if troopsA <? troopsB then lossLarger else lossSmaller in
  MapArmy.battleLosses troopsA troopsB s = (lossesA, lossesB, S s)
  /\ MapArmy.battle troopsA troopsB multA multB s
     = ((troopsA - Qceiling (double (lossesA * multA)),
         troopsB - Qceiling (double (lossesB * multB))), S s)
  /\ ((9 # 10) - (1 # 10 ^ 15) <= factor /\ factor <= (11 # 10) + (1 # 10 ^ 15))%Q.
Proof.
  intros PA PB NE larger smaller factor lossLarger lossSmaller lossesA lossesB.
  assert (E : MapArmy.battleLosses troopsA troopsB s = (lossesA, lossesB, S s)).
  { unfold MapArmy.battleLosses.
    subst lossesA lossesB lossSmaller lossLarger factor larger smaller.
    destruct (Z.ltb_spec troopsA troopsB) as [LT | GE].
    - rewrite Z.max_r, Z.min_l by lia. reflexivity.
    - destruct (Z.gtb_spec troopsA troopsB) as [GT | LE]; [| lia].
      rewrite Z.max_l, Z.min_r by lia. reflexivity. }
  split; [exact E |]. split; [| apply factor_range].
  unfold MapArmy.battle. rewrite E.
  destruct (Z.leb_spec troopsA 0); [lia |].
  destruct (Z.leb_spec troopsB 0); [lia |]. reflexivity.
Qed.

End Battle.

(** The pools of the example above, through the theorem; and pools of 144
    and 1200, where the rounding of the quotient 1200 / 144 makes the loss
    of the smaller pool 126 and not 125. *)
Lemma battle_losses_witness :
  fst (@MapArmy.battle exampleMath 100 200 1 1 0) = (95, 197)
  /\ fst (@MapArmy.battle exampleMath 144 1200 1 1 0) = (18, 1185).
Proof.
  split.
  - pose proof (@battle_losses exampleMath 100 200 1 1 0%nat
                  ltac:(lia) ltac:(lia) ltac:(lia)) as (_ & E & _).
    rewrite E. vm_compute. reflexivity.
  - pose proof (@battle_losses exampleMath 144 1200 1 1 0%nat
                  ltac:(lia) ltac:(lia) ltac:(lia)) as (_ & E & _).
    rewrite E. vm_compute. reflexivity.
Defined.

(** ** Game.dijkstra *)

Lemma Qltb_true (a b : Q) : Qltb a b = true <-> (a < b)%Q.
Proof.
  unfold Qltb. rewrite negb_true_iff. split.
  - intros E. apply Qnot_le_lt. intros L. apply Qle_bool_iff in L. congruence.
  - intros L. destruct (Qle_bool b a) eqn:E; [| reflexivity].
    apply Qle_bool_iff in E. lra.
Qed.

Lemma Qltb_false (a b : Q) : Qltb a b = false <-> (b <= a)%Q.
Proof.
  unfold Qltb. rewrite negb_false_iff. apply Qle_bool_iff.
Qed.

Lemma ext_ltb_false (a b : ext) : ext_ltb a b = false <-> ext_le b a.
Proof.
  destruct a as [p |], b as [q |]; simpl; try tauto.
  - apply Qltb_false.
  - split; [discriminate | tauto].
Qed.

Lemma ext_ltb_true_le (a b : ext) : ext_ltb a b = true -> ext_le a b.
Proof.
  destruct a as [p |], b as [q |]; simpl; try tauto; try discriminate.
  intros E. apply Qltb_true in E. lra.
Qed.

Lemma ext_le_refl (a : ext) : ext_le a a.
Proof. destruct a; simpl; [lra | exact I]. Qed.

Lemma ext_le_trans (a b c : ext) : ext_le a b -> ext_le b c -> ext_le a c.
Proof. destruct a, b, c; simpl; try tauto. lra. Qed.

Lemma ext_ltb_le_false (a b c : ext) :
  ext_ltb a b = true -> ext_ltb c b = false -> ext_ltb c a = false.
Proof.
  intros L1 L2. apply ext_ltb_false. apply ext_ltb_false in L2.
  apply ext_ltb_true_le in L1. eapply ext_le_trans; eassumption.
Qed.

(** The scan for the next node: a node not done, no node not done being
    strictly nearer; or every node is done. *)
Lemma pick_None (t : Game.tables) (n : nat) :
  Game.pick t n = None -> forall y, (y < n)%nat -> Game.get_done t y = true.
Proof.
  unfold Game.pick. induction n as [| n IH]; [intros; lia |].
  rewrite seq_S, fold_left_app. simpl. unfold Game.pickStep at 1.
  destruct (Game.get_done t n) eqn:D; simpl.
  - intros E y Ly. destruct (Nat.eq_dec y n) as [-> | NE]; [exact D |].
    apply IH; [exact E | lia].
  - destruct (fold_left (Game.pickStep t) (seq 0 n) None); simpl;
      [destruct (ext_ltb _ _) |]; discriminate.
Qed.

Lemma pick_Some (t : Game.tables) (n u : nat) :
  Game.pick t n = Some u ->
  (u < n)%nat /\ Game.get_done t u = false
  /\ forall y, (y < n)%nat -> Game.get_done t y = false ->
       ext_ltb (Game.get_dist t y) (Game.get_dist t u) = false.
Proof.
  revert u. induction n as [| n IH]; intros u.
  - discriminate.
  - unfold Game.pick. rewrite seq_S, fold_left_app. simpl.
    fold (Game.pick t n). unfold Game.pickStep.
    destruct (Game.get_done t n) eqn:D; simpl.
    + intros E. destruct (IH u E) as (L & U & M).
      split; [lia |]. split; [exact U |].
      intros y Ly Dy. apply M; [| exact Dy].
      assert (y <> n) by congruence. lia.
    + destruct (Game.pick t n) as [c |] eqn:C.
      * destruct (IH c eq_refl) as (L & U & M).
        destruct (ext_ltb (Game.get_dist t n) (Game.get_dist t c)) eqn:LT; intros [= <-].
        -- split; [lia |]. split; [exact D |].
           intros y Ly Dy. destruct (Nat.eq_dec y n) as [-> | NE].
           ++ apply ext_ltb_false, ext_le_refl.
           ++ eapply ext_ltb_le_false; [exact LT |]. apply M; [lia | exact Dy].
        -- split; [lia |]. split; [exact U |].
           intros y Ly Dy. destruct (Nat.eq_dec y n) as [-> | NE].
           ++ exact LT.
           ++ apply M; [lia | exact Dy].
      * intros [= <-]. split; [lia |]. split; [exact D |].
        intros y Ly Dy. destruct (Nat.eq_dec y n) as [-> | NE].
        -- apply ext_ltb_false, ext_le_refl.
        -- rewrite (pick_None t n C y) in Dy; [discriminate | lia].
Qed.

Section Router.
Context `{JSMath}.
Variable nodes : list MapNode.MapNode.
Variables from to : nat.
Hypothesis nodes_wf : wfNodes nodes.
Hypothesis from_in : (from < length nodes)%nat.

Local Abbreviation route := (route nodes from to).
Local Abbreviation routeLength := (routeLength nodes).
Local Abbreviation lengthFrom := (lengthFrom nodes).
Local Abbreviation edgeLength := (edgeLength nodes).

(** The length that the code gives an edge is its Euclidean length. *)
Lemma distance_edgeLength (u v : nat) :
  MapNode.distance (MapNode.get nodes u) (MapNode.get nodes v) = edgeLength u v.
Proof. reflexivity. Qed.

Lemma edgeLength_nonneg (u v : nat) : (0 <= edgeLength u v)%Q.
Proof. apply Math_sqrt_nonneg. Qed.

Lemma lengthFrom_proper (a b : Q) (u : nat) (p : list nat) :
  (a == b)%Q -> (lengthFrom a u p == lengthFrom b u p)%Q.
Proof.
  revert a b u. induction p as [| v p IH]; intros a b u E; simpl; [exact E |].
  apply IH. rewrite E. reflexivity.
Qed.

(** A length is a double, and no less than the length of the way so far. *)
Lemma lengthFrom_grows (a : Q) (u : nat) (p : list nat) :
  (double a == a)%Q ->
  (double (lengthFrom a u p) == lengthFrom a u p)%Q /\ (a <= lengthFrom a u p)%Q.
Proof.
  revert a u. induction p as [| v p IH]; intros a u E; simpl.
  - split; [exact E | apply Qle_refl].
  - destruct (IH (double (a + edgeLength u v)) v (double_idem _)) as [D L].
    split; [exact D |].
    pose proof (double_grows a (edgeLength u v) E (edgeLength_nonneg u v)). lra.
Qed.

Lemma routeLength_eq (u : nat) (p : list nat) : routeLength u p = lengthFrom 0 u p.
Proof. reflexivity. Qed.

Lemma routeLength_double (u : nat) (p : list nat) :
  (double (routeLength u p) == routeLength u p)%Q.
Proof. apply lengthFrom_grows, double_0. Qed.

Lemma routeLength_nonneg (u : nat) (p : list nat) : (0 <= routeLength u p)%Q.
Proof. apply lengthFrom_grows, double_0. Qed.

Lemma last_cons (p : list nat) (u x : nat) : List.last (x :: p) u = List.last p x.
Proof.
  revert u x. induction p as [| z p IHp]; intros u x; [reflexivity |].
  change (List.last (x :: z :: p) u) with (List.last (z :: p) u).
  rewrite (IHp u z), (IHp x z). reflexivity.
Qed.

Lemma route_app (u v : nat) (p : list nat) :
  route u (p ++ [v])
  <-> route u p /\ In v (MapNode.adj (MapNode.get nodes (List.last p u)))
      /\ passable nodes from to v.
Proof.
  revert u. induction p as [| x p IH]; intros u.
  - simpl. tauto.
  - change (route u ((x :: p) ++ [v])) with
      (In x (MapNode.adj (MapNode.get nodes u)) /\ passable nodes from to x
       /\ route x (p ++ [v])).
    rewrite IH. simpl route.
    rewrite last_cons. tauto.
Qed.

Lemma lengthFrom_app (a : Q) (u : nat) (p q : list nat) :
  lengthFrom a u (p ++ q) = lengthFrom (lengthFrom a u p) (List.last p u) q.
Proof.
  revert a u. induction p as [| x p IH]; intros a u; [reflexivity |].
  rewrite last_cons. simpl. apply IH.
Qed.

Lemma routeLength_app (u v : nat) (p : list nat) :
  routeLength u (p ++ [v]) = double (routeLength u p + edgeLength (List.last p u) v).
Proof. rewrite !routeLength_eq, lengthFrom_app. reflexivity. Qed.

Lemma route_app_le (u : nat) (p q : list nat) :
  (routeLength u p <= routeLength u (p ++ q))%Q.
Proof.
  rewrite !routeLength_eq, lengthFrom_app.
  apply lengthFrom_grows, routeLength_double.
Qed.

Lemma route_app_split (u : nat) (p q : list nat) :
  route u (p ++ q) <-> route u p /\ route (List.last p u) q.
Proof.
  revert u. induction p as [| x p IH]; intros u.
  - simpl. tauto.
  - rewrite last_cons. simpl. rewrite IH. tauto.
Qed.

Lemma in_adj_in_range (u v : nat) :
  In v (MapNode.adj (MapNode.get nodes u)) -> (u < length nodes)%nat /\ (v < length nodes)%nat.
Proof.
  unfold MapNode.get. destruct (nodes !! u) as [node |] eqn:L; simpl; [| tauto].
  intros I. split; [eapply lookup_lt_Some; eassumption |].
  eapply nodes_wf; eassumption.
Qed.

Lemma route_in_range (u : nat) (p : list nat) :
  route u p -> forall x, In x p -> (x < length nodes)%nat.
Proof.
  revert u. induction p as [| v p IH]; intros u R x I; [destruct I |].
  destruct R as (A & _ & R). destruct I as [<- | I].
  - apply (in_adj_in_range u v A).
  - eapply IH; eassumption.
Qed.

Lemma backtrace_ext (t t' : Game.tables) (l : list nat) (v : nat) :
  (forall x, In x l -> Game.get_prev t' x = Game.get_prev t x) ->
  backtrace from t v l -> backtrace from t' v l.
Proof.
  revert v. induction l as [| x l IH]; intros v E B; [exact B |].
  destruct B as (-> & NF & u & P & B).
  split; [reflexivity |]. split; [exact NF |]. exists u. split.
  - rewrite E; [exact P | left; reflexivity].
  - apply IH; [| exact B]. intros z I. apply E. right. exact I.
Qed.

Lemma get_dist_insert_eq (t : Game.tables) (v : nat) (x : ext) p d :
  (v < length (Game.dist t))%nat ->
  Game.get_dist (Game.mkTables (<[v := x]> (Game.dist t)) p d) v = x.
Proof.
  intros L. unfold Game.get_dist; simpl. rewrite list_lookup_insert_eq by exact L. reflexivity.
Qed.

Lemma get_dist_insert_ne (t : Game.tables) (v y : nat) (x : ext) p d :
  y <> v -> Game.get_dist (Game.mkTables (<[v := x]> (Game.dist t)) p d) y = Game.get_dist t y.
Proof.
  intros N. unfold Game.get_dist; simpl. rewrite list_lookup_insert_ne by congruence. reflexivity.
Qed.

Lemma get_prev_insert_eq (t : Game.tables) (v : nat) (x : option nat) q d :
  (v < length (Game.prev t))%nat ->
  Game.get_prev (Game.mkTables q (<[v := x]> (Game.prev t)) d) v = x.
Proof.
  intros L. unfold Game.get_prev; simpl. rewrite list_lookup_insert_eq by exact L. reflexivity.
Qed.

Lemma get_prev_insert_ne (t : Game.tables) (v y : nat) (x : option nat) q d :
  y <> v -> Game.get_prev (Game.mkTables q (<[v := x]> (Game.prev t)) d) y = Game.get_prev t y.
Proof.
  intros N. unfold Game.get_prev; simpl. rewrite list_lookup_insert_ne by congruence. reflexivity.
Qed.

Lemma get_done_insert_eq (t : Game.tables) (v : nat) (x : bool) q p :
  (v < length (Game.done t))%nat ->
  Game.get_done (Game.mkTables q p (<[v := x]> (Game.done t))) v = x.
Proof.
  intros L. unfold Game.get_done; simpl. rewrite list_lookup_insert_eq by exact L. reflexivity.
Qed.

Lemma get_done_insert_ne (t : Game.tables) (v y : nat) (x : bool) q p :
  y <> v -> Game.get_done (Game.mkTables q p (<[v := x]> (Game.done t))) y = Game.get_done t y.
Proof.
  intros N. unfold Game.get_done; simpl. rewrite list_lookup_insert_ne by congruence. reflexivity.
Qed.

Lemma in_removelast_or_last (p : list nat) (x d : nat) :
  In x p -> In x (removelast p) \/ x = List.last p d.
Proof.
  intros I. destruct p as [| a p]; [destruct I |].
  rewrite (app_removelast_last d (l := a :: p)) in I by discriminate.
  apply in_app_or in I. destruct I as [I | [E | []]]; [left; exact I | right; congruence].
Qed.

(** Every node of a recorded route to a done node is done. *)
Lemma recorded_all_done (t : Game.tables) (u : nat) (d : Q) (p : list nat) :
  recorded nodes from to t u d p -> Game.get_done t u = true ->
  forall x, In x p -> Game.get_done t x = true.
Proof.
  intros [_ L _ _ _ Dn] D x I.
  destruct (in_removelast_or_last p x from I) as [I' | ->].
  - apply Dn, I'.
  - rewrite L. exact D.
Qed.

(** A recorded route is read the same in tables that agree on it. *)
Lemma recorded_ext (t t' : Game.tables) (v : nat) (d : Q) (p : list nat) :
  (forall x, In x p -> Game.get_prev t' x = Game.get_prev t x) ->
  (forall x, Game.get_done t x = true -> Game.get_done t' x = true) ->
  recorded nodes from to t v d p -> recorded nodes from to t' v d p.
Proof.
  intros EP ED [R L Len B N Dn]. constructor; try assumption.
  - eapply backtrace_ext; [| exact B]. intros x I. apply EP. apply in_rev. exact I.
  - intros x I. apply ED, Dn, I.
Qed.

Lemma recorded_nonneg (t : Game.tables) (v : nat) (d : Q) (p : list nat) :
  recorded nodes from to t v d p -> (0 <= d)%Q.
Proof.
  intros [_ _ Len _ _ _]. rewrite <- Len. apply routeLength_nonneg.
Qed.

(** Edges stay relaxed when distances only go down and those of done nodes stay. *)
Lemma relaxedFrom_mono (t t' : Game.tables) (x : nat) (ys : list nat) :
  (forall y, Game.get_done t' y = Game.get_done t y) ->
  (forall y, ext_le (Game.get_dist t' y) (Game.get_dist t y)) ->
  Game.get_dist t' x = Game.get_dist t x ->
  relaxedFrom nodes from to t x ys -> relaxedFrom nodes from to t' x ys.
Proof.
  intros ED LE EX R y I P U. rewrite ED in U. rewrite EX.
  eapply ext_le_trans; [apply LE |]. apply R; assumption.
Qed.

Lemma passable_true (v : nat) :
  (v =? to)%nat
  || bool_decide (MapNode.team (MapNode.get nodes v) = MapNode.team (MapNode.get nodes from))
  = true <-> passable nodes from to v.
Proof.
  unfold passable. rewrite orb_true_iff, Nat.eqb_eq, bool_decide_eq_true. tauto.
Qed.

(** One step of the loop over the neighbours of the node [u] just done. *)
Lemma relax_inv (t : Game.tables) (u v : nat) (acc : list nat) :
  inv nodes from to t -> relaxedBut nodes from to t u -> Game.get_done t u = true ->
  In v (MapNode.adj (MapNode.get nodes u)) ->
  relaxedFrom nodes from to t u acc ->
  let t' := Game.relax nodes from to u t v in
  inv nodes from to t' /\ relaxedBut nodes from to t' u /\ Game.get_done t' u = true
  /\ relaxedFrom nodes from to t' u (v :: acc) /\ Game.done t' = Game.done t.
Proof.
  intros I RB Du A RA t'. subst t'. unfold Game.relax.
  destruct (negb (Game.get_done t v) && _) eqn:C1.
  2:{ split; [exact I | split; [exact RB | split; [exact Du | split; [| reflexivity]]]].
      intros y [<- | Iy] P U; [| apply RA; assumption].
      apply passable_true in P. rewrite U, P in C1. discriminate. }
  apply andb_true_iff in C1 as [Uv Pv].
  apply negb_true_iff in Uv. apply passable_true in Pv.
  destruct (inv_least _ _ _ _ I u Du) as (du & Eu & Least).
  rewrite Eu. simpl ext_add.
  destruct (ext_ltb _ (Game.get_dist t v)) eqn:C2.
  2:{ split; [exact I | split; [exact RB | split; [exact Du | split; [| reflexivity]]]].
      intros y [<- | Iy] P U; [| apply RA; assumption].
      rewrite Eu. simpl. apply ext_ltb_false. exact C2. }
  destruct (inv_recorded _ _ _ _ I u du Eu) as (pu & Ru).
  pose proof (recorded_nonneg _ _ _ _ Ru) as Pdu.
  pose proof (edgeLength_nonneg u v) as Pw.
  destruct (in_adj_in_range u v A) as [Lu Lv].
  rewrite distance_edgeLength in *.
  assert (NF : v <> from).
  { intros ->. destruct (inv_from _ _ _ _ I) as [E0 _]. rewrite E0 in C2.
    simpl in C2. apply Qltb_true in C2.
    assert (S0 : (0 <= du + edgeLength u from)%Q) by lra.
    pose proof (double_nonneg _ S0). lra. }
  assert (NU : v <> u) by congruence.
  set (w := edgeLength u v) in *.
  set (t' := Game.mkTables _ _ _).
  assert (Ddone : forall y, Game.get_done t' y = Game.get_done t y) by reflexivity.
  assert (Dv : Game.get_dist t' v = Fin (double (du + w))).
  { apply get_dist_insert_eq. rewrite (inv_dist _ _ _ _ I). exact Lv. }
  assert (Dne : forall y, y <> v -> Game.get_dist t' y = Game.get_dist t y).
  { intros y N. apply get_dist_insert_ne. exact N. }
  assert (Pne : forall y, y <> v -> Game.get_prev t' y = Game.get_prev t y).
  { intros y N. apply get_prev_insert_ne. exact N. }
  assert (Pv' : Game.get_prev t' v = Some u).
  { apply get_prev_insert_eq. rewrite (inv_prev _ _ _ _ I). exact Lv. }
  assert (Dle : forall y, ext_le (Game.get_dist t' y) (Game.get_dist t y)).
  { intros y. destruct (Nat.eq_dec y v) as [-> | N].
    - rewrite Dv. apply ext_ltb_true_le. exact C2.
    - rewrite Dne by exact N. apply ext_le_refl. }
  assert (Ddn : forall x, Game.get_done t x = true -> Game.get_dist t' x = Game.get_dist t x).
  { intros x Dx. apply Dne. congruence. }
  split; [| split; [| split; [exact Du | split; [| reflexivity]]]].
  - destruct I as [I1 I2 I3 [I4 I4'] I5 I6 I7]. constructor.
    + unfold t'; simpl. rewrite length_insert. exact I1.
    + unfold t'; simpl. rewrite length_insert. exact I2.
    + exact I3.
    + split; [rewrite Dne by congruence; exact I4 | rewrite Pne by congruence; exact I4'].
    + intros y d Ey. destruct (Nat.eq_dec y v) as [-> | N].
      * rewrite Dv in Ey. injection Ey as <-.
        exists (pu ++ [v]).
        assert (Ru' : recorded nodes from to t' u du pu).
        { eapply recorded_ext; [| | exact Ru].
          - intros x Ix. apply Pne. intros ->.
            rewrite (recorded_all_done _ _ _ _ Ru Du v Ix) in Uv. discriminate.
          - intros x Dx. exact Dx. }
        destruct Ru' as [R L Len B Nd Dn]. constructor.
        -- apply route_app. rewrite L. auto.
        -- apply last_last.
        -- rewrite routeLength_app, L. apply double_proper. rewrite Len. reflexivity.
        -- rewrite rev_unit. split; [reflexivity |]. split; [exact NF |].
           exists u. split; [exact Pv' | exact B].
        -- apply NoDup_app. split; [exact Nd |]. split; [| apply NoDup_singleton].
           intros x Ix Iv. apply list_elem_of_singleton in Iv. subst x.
           apply list_elem_of_In in Ix.
           rewrite (recorded_all_done _ _ _ _ Ru Du v Ix) in Uv. discriminate.
        -- rewrite removelast_last. intros x Ix.
           apply (recorded_all_done _ _ _ _ Ru Du x Ix).
      * rewrite Dne in Ey by exact N. destruct (I5 y d Ey) as (py & Ry).
        exists py. eapply recorded_ext; [| | exact Ry].
        -- intros x Ix. apply Pne. intros ->.
           destruct Ry as [_ L _ _ _ Dn].
           destruct (in_removelast_or_last py v from Ix) as [I' | E].
           ++ rewrite (Dn v I') in Uv. discriminate.
           ++ apply N. rewrite <- L. symmetry. exact E.
        -- intros x Dx. exact Dx.
    + intros x Dx. destruct (I6 x Dx) as (dx & Ex & Lx).
      exists dx. split; [rewrite Ddn by exact Dx; exact Ex | exact Lx].
    + exact I7.
  - intros x Nx Dx. eapply relaxedFrom_mono; [exact Ddone | exact Dle | | apply RB; assumption].
    apply Ddn. exact Dx.
  - intros y [<- | Iy] P U.
    + rewrite Dv, (Ddn u Du), Eu. apply Qle_refl.
    + eapply relaxedFrom_mono; [exact Ddone | exact Dle | apply Ddn, Du | exact RA | | |];
        assumption.
Qed.

(** The whole loop over the neighbours of [u]. *)
Lemma relax_fold (u : nat) (l : list nat) :
  (forall v, In v l -> In v (MapNode.adj (MapNode.get nodes u))) ->
  forall (t : Game.tables) (acc : list nat),
  inv nodes from to t -> relaxedBut nodes from to t u -> Game.get_done t u = true ->
  relaxedFrom nodes from to t u acc ->
  let t' := fold_left (Game.relax nodes from to u) l t in
  inv nodes from to t' /\ relaxedBut nodes from to t' u /\ Game.get_done t' u = true
  /\ relaxedFrom nodes from to t' u (rev l ++ acc) /\ Game.done t' = Game.done t.
Proof.
  induction l as [| v l IH]; intros A t acc I RB Du RA.
  - simpl. auto.
  - destruct (relax_inv t u v acc I RB Du (A v (or_introl eq_refl)) RA)
      as (I' & RB' & Du' & RA' & E').
    destruct (IH (fun x Ix => A x (or_intror Ix)) _ _ I' RB' Du' RA')
      as (I'' & RB'' & Du'' & RA'' & E'').
    simpl. split; [exact I'' |]. split; [exact RB'' |]. split; [exact Du'' |].
    split; [| congruence].
    rewrite <- app_assoc. exact RA''.
Qed.

Lemma finite_in_range (t : Game.tables) (y : nat) (d : Q) :
  inv nodes from to t -> Game.get_dist t y = Fin d -> (y < length nodes)%nat.
Proof.
  intros I E. rewrite <- (inv_dist _ _ _ _ I).
  unfold Game.get_dist in E. destruct (Game.dist t !! y) eqn:L; [| discriminate].
  eapply lookup_lt_Some; eassumption.
Qed.

(** A route that ends at a node not done goes through a node not done whose
    recorded distance is at most the length of the route. *)
Lemma frontier_from (t : Game.tables) :
  inv nodes from to t -> relaxedAll nodes from to t ->
  forall q pre : list nat,
  route from (pre ++ q) ->
  (Game.get_done t (List.last pre from) = true
   \/ exists y dy, Game.get_done t y = false /\ Game.get_dist t y = Fin dy
                   /\ (dy <= routeLength from pre)%Q) ->
  Game.get_done t (List.last (pre ++ q) from) = false ->
  exists y dy, Game.get_done t y = false /\ Game.get_dist t y = Fin dy
               /\ (dy <= routeLength from (pre ++ q))%Q.
Proof.
  intros I RA. induction q as [| v q IH]; intros pre R C U.
  - rewrite app_nil_r in *. destruct C as [D | C]; [congruence | exact C].
  - change (pre ++ v :: q) with (pre ++ [v] ++ q) in *. rewrite app_assoc in *.
    apply IH; [exact R | | exact U].
    apply route_app_split in R. destruct R as [R _].
    destruct C as [D | (y & dy & Uy & Ey & Ly)].
    + destruct (Game.get_done t v) eqn:Dv; [left; rewrite last_last; exact Dv |].
      right. apply route_app in R. destruct R as (Rp & A & P).
      destruct (inv_least _ _ _ _ I _ D) as (dx & Ex & Least).
      pose proof (RA _ D v A P Dv) as LE. rewrite Ex in LE. simpl in LE.
      destruct (Game.get_dist t v) as [dv |] eqn:Ev; [| destruct LE].
      exists v, dv. split; [exact Dv |]. split; [exact Ev |].
      rewrite routeLength_app. simpl in LE. rewrite distance_edgeLength in LE.
      pose proof (Least pre Rp eq_refl) as LP.
      assert (S0 : (dx + edgeLength (List.last pre from) v
                    <= routeLength from pre + edgeLength (List.last pre from) v)%Q) by lra.
      pose proof (double_mono _ _ S0). lra.
    + right. exists y, dy. split; [exact Uy |]. split; [exact Ey |].
      pose proof (route_app_le from pre [v]). lra.
Qed.

Lemma frontier (t : Game.tables) (q : list nat) :
  inv nodes from to t -> relaxedAll nodes from to t ->
  route from q -> Game.get_done t (List.last q from) = false ->
  exists y dy, Game.get_done t y = false /\ Game.get_dist t y = Fin dy
               /\ (dy <= routeLength from q)%Q.
Proof.
  intros I RA R U. apply (frontier_from t I RA q []); [exact R | | exact U].
  simpl. destruct (Game.get_done t from) eqn:D; [left; reflexivity |].
  right. exists from, 0%Q. split; [exact D |].
  split; [apply (inv_from _ _ _ _ I) | apply Qle_refl].
Qed.

Lemma undone_mark (l : list bool) (u : nat) :
  l !! u = Some false ->
  S (length (List.filter negb (<[u := true]> l))) = length (List.filter negb l).
Proof.
  revert u. induction l as [| b l IH]; intros u E; [discriminate |].
  destruct u as [| u]; simpl in *.
  - injection E as ->. reflexivity.
  - destruct b; simpl; rewrite <- (IH u E); reflexivity.
Qed.

(** The node picked is marked done. *)
Lemma mark_inv (t : Game.tables) (u : nat) (du : Q) :
  inv nodes from to t -> relaxedAll nodes from to t ->
  (u < length nodes)%nat -> Game.get_done t u = false ->
  (forall y, (y < length nodes)%nat -> Game.get_done t y = false ->
     ext_ltb (Game.get_dist t y) (Game.get_dist t u) = false) ->
  Game.get_dist t u = Fin du -> u <> to ->
  let t1 := Game.mkTables (Game.dist t) (Game.prev t) (<[u := true]> (Game.done t)) in
  inv nodes from to t1 /\ relaxedBut nodes from to t1 u /\ Game.get_done t1 u = true
  /\ S (undone t1) = undone t.
Proof.
  intros I RA Lu Uu Min Eu NT t1.
  assert (Du1 : Game.get_done t1 u = true).
  { apply get_done_insert_eq. rewrite (inv_done _ _ _ _ I). exact Lu. }
  assert (Dn : forall x, x <> u -> Game.get_done t1 x = Game.get_done t x).
  { intros x N. apply get_done_insert_ne. exact N. }
  assert (Dg : forall x, Game.get_done t x = true -> Game.get_done t1 x = true).
  { intros x Dx. rewrite Dn; [exact Dx | congruence]. }
  split; [| split; [| split; [exact Du1 |]]].
  - destruct I as [I1 I2 I3 I4 I5 I6 I7] eqn:EI. constructor; try assumption.
    + unfold t1; simpl. rewrite length_insert. exact I3.
    + intros v d Ev. destruct (I5 v d Ev) as (p & R). exists p.
      eapply recorded_ext; [| exact Dg | exact R]. reflexivity.
    + intros x Dx. destruct (Nat.eq_dec x u) as [-> | N].
      * exists du. split; [exact Eu |]. intros q R L.
        destruct (frontier t q I RA R) as (y & dy & Uy & Ey & Ly); [rewrite L; exact Uu |].
        pose proof (Min y (finite_in_range t y dy I Ey) Uy) as M.
        apply ext_ltb_false in M. rewrite Ey in M.
        rewrite Eu in M. simpl in M. lra.
      * rewrite Dn in Dx by exact N. exact (I6 x Dx).
    + rewrite Dn by congruence. exact I7.
  - intros x N Dx y Iy P Uy. rewrite Dn in Dx by exact N.
    assert (y <> u) by congruence.
    rewrite Dn in Uy by assumption. exact (RA x Dx y Iy P Uy).
  - unfold undone, t1; simpl. apply undone_mark.
    unfold Game.get_done in Uu. destruct (Game.done t !! u) as [b |] eqn:L.
    + simpl in Uu. congruence.
    + apply lookup_ge_None in L. rewrite (inv_done _ _ _ _ I) in L. lia.
Qed.

(** The search: with enough fuel it returns, with the least distance to [to]
    recorded when it breaks, and only when no route leads to [to] when it
    gives up. *)
Lemma search_spec (fuel : nat) (t : Game.tables) :
  inv nodes from to t -> relaxedAll nodes from to t -> (undone t < fuel)%nat ->
  (exists t' d,
     Game.search fuel nodes from to t = Ok (Some t')
     /\ inv nodes from to t' /\ Game.get_dist t' to = Fin d
     /\ forall q, routeTo nodes from to q -> (d <= routeLength from q)%Q)
  \/ (Game.search fuel nodes from to t = Ok None
      /\ forall q, ~ routeTo nodes from to q).
Proof.
  revert t. induction fuel as [| fuel IH]; intros t I RA F; [lia |].
  simpl. destruct (Game.pick t (length nodes)) as [u |] eqn:P.
  2:{ right. split; [reflexivity |]. intros q [R L].
      destruct (frontier t q I RA R) as (y & dy & Uy & Ey & _).
      { rewrite L. apply (inv_to _ _ _ _ I). }
      rewrite (pick_None t _ P y (finite_in_range t y dy I Ey)) in Uy. discriminate. }
  destruct (pick_Some t _ u P) as (Lu & Uu & Min).
  destruct (Game.get_dist t u) as [du |] eqn:Eu; simpl.
  2:{ right. split; [reflexivity |]. intros q [R L].
      destruct (frontier t q I RA R) as (y & dy & Uy & Ey & _).
      { rewrite L. apply (inv_to _ _ _ _ I). }
      pose proof (Min y (finite_in_range t y dy I Ey) Uy) as M.
      rewrite Ey in M. discriminate. }
  destruct (Nat.eqb_spec u to) as [-> | NT].
  { left. exists t, du. split; [reflexivity |]. split; [exact I |]. split; [exact Eu |].
    intros q [R L].
    destruct (frontier t q I RA R) as (y & dy & Uy & Ey & Ly); [rewrite L; exact Uu |].
    pose proof (Min y (finite_in_range t y dy I Ey) Uy) as M.
    apply ext_ltb_false in M. rewrite Ey in M. simpl in M. lra. }
  destruct (nodes !! u) as [nextNode |] eqn:N.
  2:{ apply lookup_ge_None in N. lia. }
  assert (G : MapNode.get nodes u = nextNode) by (unfold MapNode.get; rewrite N; reflexivity).
  assert (Min' : forall y, (y < length nodes)%nat -> Game.get_done t y = false ->
                   ext_ltb (Game.get_dist t y) (Game.get_dist t u) = false).
  { intros y Ly Uy. rewrite Eu. apply Min; assumption. }
  destruct (mark_inv t u du I RA Lu Uu Min' Eu NT) as (I1 & RB1 & D1 & C1).
  destruct (relax_fold u (MapNode.adj nextNode) ltac:(rewrite G; auto) _ []
              I1 RB1 D1 ltac:(intros y []))
    as (I2 & RB2 & D2 & RA2 & E2).
  apply IH.
  - exact I2.
  - intros x Dx. destruct (Nat.eq_dec x u) as [-> | NE].
    + rewrite G. intros y Iy. apply RA2. apply in_or_app. left. apply in_rev in Iy. exact Iy.
    + apply RB2; assumption.
  - unfold undone in *. rewrite E2. simpl in C1. simpl. lia.
Qed.

(** The walk back along a recorded route ends at its first hop. *)
Lemma walkBack_spec (t : Game.tables) (l : list nat) :
  forall (v : nat) (fuel : nat),
  backtrace from t v l -> l <> [] -> (length l <= fuel)%nat ->
  Game.walkBack fuel t from v = Ok (Some (List.last l v)).
Proof.
  induction l as [| x l IH]; intros v fuel B NE F; [congruence |].
  destruct B as (-> & NF & u & P & B).
  destruct fuel as [| fuel]; [simpl in F; lia |].
  simpl Game.walkBack. rewrite P.
  destruct l as [| y l].
  - simpl in B. subst u. rewrite Nat.eqb_refl. reflexivity.
  - pose proof B as B'. destruct B' as (-> & NF' & _).
    destruct (Nat.eqb_spec u from) as [E | _]; [congruence |].
    rewrite (IH u fuel B ltac:(discriminate) ltac:(simpl in *; lia)).
    rewrite !last_cons. reflexivity.
Qed.

Lemma recorded_length (t : Game.tables) (v : nat) (d : Q) (p : list nat) :
  recorded nodes from to t v d p -> (length p <= length nodes)%nat.
Proof.
  intros [R _ _ _ N _].
  replace (length nodes) with (length (seq 0 (length nodes))) by apply length_seq.
  apply submseteq_length, NoDup_submseteq; [exact N |].
  intros x Ix. apply elem_of_seq. apply list_elem_of_In in Ix.
  pose proof (route_in_range from p R x Ix). lia.
Qed.

Lemma filter_replicate_false (n : nat) :
  length (List.filter negb (replicate n false)) = n.
Proof. induction n as [| n IH]; simpl; [reflexivity | rewrite IH; reflexivity]. Qed.

Lemma lookup_replicate_default {A : Type} (n i : nat) (x : A) :
  default x (replicate n x !! i) = x.
Proof.
  destruct (replicate n x !! i) as [y |] eqn:L; [| reflexivity].
  apply lookup_replicate in L. destruct L as [-> _]. reflexivity.
Qed.

(** The tables before the loop. *)
Lemma init_inv :
  let n := length nodes in
  let t0 := Game.mkTables (<[from := Fin 0]> (replicate n Infinity))
                          (replicate n None) (replicate n false) in
  inv nodes from to t0 /\ relaxedAll nodes from to t0 /\ undone t0 = n.
Proof.
  intros n t0.
  assert (D : forall x, Game.get_done t0 x = false).
  { intros x. unfold Game.get_done; simpl. apply lookup_replicate_default. }
  assert (P : forall x, Game.get_prev t0 x = None).
  { intros x. unfold Game.get_prev; simpl. apply lookup_replicate_default. }
  assert (E0 : Game.get_dist t0 from = Fin 0).
  { unfold Game.get_dist; simpl. rewrite list_lookup_insert_eq; [reflexivity |].
    rewrite length_replicate. exact from_in. }
  split; [| split].
  - constructor.
    + simpl. rewrite length_insert. apply length_replicate.
    + apply length_replicate.
    + apply length_replicate.
    + split; [exact E0 | apply P].
    + intros v d E. destruct (Nat.eq_dec v from) as [-> | N].
      * rewrite E0 in E. injection E as <-. exists [].
        constructor; simpl; try reflexivity; try exact I; try tauto. apply NoDup_nil_2.
      * unfold Game.get_dist in E; simpl in E.
        rewrite list_lookup_insert_ne in E by congruence.
        rewrite lookup_replicate_default in E. discriminate.
    + intros u Du. rewrite D in Du. discriminate.
    + apply D.
  - intros x Dx. rewrite D in Dx. discriminate.
  - apply filter_replicate_false.
Qed.

(** The router, on a well-formed list of nodes: it returns; what it returns
    is the first hop of a route to [to] that no route to [to] beats; and it
    returns nothing only when [to] is [from] or no route leads to [to]. *)
Lemma dijkstra_run (g : Game.Game) :
  Game.nodes g = nodes ->
  (exists h p,
     Game.dijkstra g from to = Ok (Some h)
     /\ from <> to /\ routeTo nodes from to (h :: p)
     /\ forall q, routeTo nodes from to q ->
          (routeLength from (h :: p) <= routeLength from q)%Q)
  \/ (Game.dijkstra g from to = Ok None /\ ~ reachable nodes from to).
Proof.
  intros Eg. unfold Game.dijkstra. rewrite Eg.
  destruct init_inv as (I0 & RA0 & U0).
  set (t0 := Game.mkTables _ _ _) in *.
  destruct (search_spec (S (length nodes)) t0 I0 RA0 ltac:(rewrite U0; lia))
    as [(t & d & -> & I & Ed & Least) | [-> NR]]; cbn [bind].
  2:{ right. split; [reflexivity |]. intros [_ [q R]]. exact (NR q R). }
  destruct (inv_recorded _ _ _ _ I to d Ed) as (p & R).
  pose proof (recorded_length t to d p R) as Lp.
  destruct R as [R L Len B Nd Dn].
  destruct (Nat.eq_dec from to) as [E | NE].
  - right. destruct (inv_from _ _ _ _ I) as [_ Pf]. rewrite <- E.
    simpl Game.walkBack. rewrite Pf. cbn [bind].
    split; [reflexivity |]. intros [N _]. congruence.
  - left. destruct p as [| h p]; [simpl in L; congruence |].
    exists h, p.
    rewrite (walkBack_spec t (rev (h :: p)) to _ B).
    + simpl rev. rewrite last_last. cbn [bind].
      assert (Lh : (h < length nodes)%nat).
      { apply (route_in_range from (h :: p) R). left. reflexivity. }
      destruct (nodes !! h) eqn:Nh; [| apply lookup_ge_None in Nh; lia].
      split; [reflexivity |]. split; [exact NE |]. split; [split; assumption |].
      intros q Rq. rewrite Len. apply Least, Rq.
    + simpl. intros E. apply app_eq_nil in E. destruct E; discriminate.
    + rewrite length_rev. lia.
Qed.

End Router.

Lemma wfNodesb_sound (nodes : list MapNode.MapNode) :
  wfNodesb nodes = true -> wfNodes nodes.
Proof.
  unfold wfNodesb, wfNodes. rewrite forallb_forall. intros F u node L v I.
  assert (In node nodes) as IN.
  { apply list_elem_of_In. eapply list_elem_of_lookup_2. exact L. }
  specialize (F node IN). rewrite forallb_forall in F.
  apply Nat.ltb_lt. apply F. exact I.
Qed.

(** On a map whose nodes are all on the x axis, a route is no shorter than
    the distance between its ends. *)
Lemma axisLength_ends (nodes : list MapNode.MapNode) (u : nat) (p : list nat) :
  (Qabs (MapNode.x (MapNode.get nodes u) - MapNode.x (MapNode.get nodes (List.last p u)))
   <= axisLength nodes u p)%Q.
Proof.
  assert (B : forall a : Q, (- Qabs a <= a /\ a <= Qabs a)%Q).
  { intros a. apply (proj1 (Qabs_Qle_condition a (Qabs a))), Qle_refl. }
  revert u. induction p as [| v p IH]; intros u.
  - cbn [axisLength List.last]. apply (proj2 (Qabs_Qle_condition _ _)). split; lra.
  - rewrite last_cons. cbn [axisLength]. specialize (IH v).
    pose proof (B (MapNode.x (MapNode.get nodes u) - MapNode.x (MapNode.get nodes v))%Q).
    pose proof (B (MapNode.x (MapNode.get nodes v)
                   - MapNode.x (MapNode.get nodes (List.last p v)))%Q).
    apply (proj2 (Qabs_Qle_condition _ _)). split; lra.
Qed.

(** C4, as stated, fails.  On the four nodes of the line, all on the x
    axis, so that the Euclidean length of an edge is the distance of the
    abscissas: the way from node 0 to node 3 through node 2 has length 1
    exactly, and every way that starts with node 1 is longer, by twice the
    hair [2^-60] at least.  But in doubles [2^-60 + 1] is 1, the two ways
    come out equal, and the router keeps the one it found first and returns
    node 1. *)
Lemma dijkstra_not_shortest :
  let nodes := Game.nodes lineGame in
  wfNodesb nodes = true
  /\ forallb (fun node => Qeq_bool (MapNode.y node) 0) nodes = true
  /\ @Game.dijkstra exampleMath lineGame 0 3 = Ok (Some 1%nat)
  /\ routeTo nodes 0 3 [2; 3]%nat
  /\ (axisLength nodes 0 [2; 3]%nat == 1)%Q
  /\ (forall p, routeTo nodes 0 3 (1%nat :: p) ->
        (1 + (1 # 2 ^ 59) <= axisLength nodes 0 (1%nat :: p))%Q)
  /\ (@routeLength exampleMath nodes 0 [2; 3]%nat == 1)%Q
  /\ (@routeLength exampleMath nodes 0 [1; 3]%nat == 1)%Q.
Proof.
  intros nodes. split; [reflexivity |]. split; [reflexivity |].
  split; [vm_compute; reflexivity |].
  split; [split; [simpl; unfold passable; tauto | reflexivity] |].
  split; [reflexivity |].
  split; [| split; vm_compute; reflexivity].
  intros p [_ L]. rewrite last_cons in L.
  pose proof (axisLength_ends nodes 1 p) as B. rewrite L in B.
  change (axisLength nodes 0 (1%nat :: p))
    with (Qabs (MapNode.x (MapNode.get nodes 0) - MapNode.x (MapNode.get nodes 1))
          + axisLength nodes 1 p)%Q.
  assert (E1 : (Qabs (MapNode.x (MapNode.get nodes 0) - MapNode.x (MapNode.get nodes 1))
                == 1 # 2 ^ 60)%Q) by reflexivity.
  assert (E2 : (Qabs (MapNode.x (MapNode.get nodes 1) - MapNode.x (MapNode.get nodes 3))
                == 1 + (1 # 2 ^ 60))%Q) by reflexivity.
  rewrite E1. rewrite E2 in B.
  assert (E3 : ((1 # 2 ^ 60) + (1 + (1 # 2 ^ 60)) == 1 + (1 # 2 ^ 59))%Q) by reflexivity.
  lra.
Qed.

Section RouterSpec.
Context `{JSMath}.

(** The router returns on a well-formed map: it neither throws nor loops. *)
Lemma dijkstra_total (g : Game.Game) (from to : nat) :
  wfNodes (Game.nodes g) -> (from < length (Game.nodes g))%nat ->
  exists r, Game.dijkstra g from to = Ok r.
Proof.
  intros W L.
  destruct (dijkstra_run (Game.nodes g) from to W L g eq_refl)
    as [(h & p & E & _) | [E _]]; rewrite E; eauto.
Qed.

(** C4, amended.  On a well-formed map, for every node [from] of the map and
    every [to]: when [to] differs from [from] and some route leads from
    [from] to [to] through nodes of the team of [from] (the destination
    apart), the router returns the first hop of such a route that is
    shortest in doubles: the weight of an edge is its Euclidean length as
    the doubles give it ([edgeLength]), and the length of a route is the
    sum of the weights of its edges, added one after the other from [from]
    on, every sum rounded ([routeLength]).  Otherwise, and so when [to] is
    [from], it returns [undefined]. *)
Theorem dijkstra_first_hop (g : Game.Game) (from to : nat) :
  wfNodes (Game.nodes g) -> (from < length (Game.nodes g))%nat ->
  (reachable (Game.nodes g) from to ->
   exists h p,
     Game.dijkstra g from to = Ok (Some h)
     /\ routeTo (Game.nodes g) from to (h :: p)
     /\ forall q, routeTo (Game.nodes g) from to q ->
          (routeLength (Game.nodes g) from (h :: p) <= routeLength (Game.nodes g) from q)%Q)
  /\ (~ reachable (Game.nodes g) from to -> Game.dijkstra g from to = Ok None).
Proof.
  intros W L.
  destruct (dijkstra_run (Game.nodes g) from to W L g eq_refl)
    as [(h & p & E & NE & R & Least) | [E NR]].
  - split.
    + intros _. exists h, p. auto.
    + intros NR. exfalso. apply NR. split; [exact NE | exists (h :: p); exact R].
  - split.
    + intros R. exfalso. exact (NR R).
    + intros _. exact E.
Qed.

End RouterSpec.

(** The red node 0 of the example is sent straight to the blue node 2, five
    away, rather than through the red node 1, seven away. *)
Lemma dijkstra_first_hop_witness :
  @Game.dijkstra exampleMath exampleGame 0 2 = Ok (Some 2%nat)
  /\ exists h p,
       @Game.dijkstra exampleMath exampleGame 0 2 = Ok (Some h)
       /\ routeTo (Game.nodes exampleGame) 0 2 (h :: p)
       /\ forall q, routeTo (Game.nodes exampleGame) 0 2 q ->
            (@routeLength exampleMath (Game.nodes exampleGame) 0 (h :: p)
             <= @routeLength exampleMath (Game.nodes exampleGame) 0 q)%Q.
Proof.
  split; [vm_compute; reflexivity |].
  apply (@dijkstra_first_hop exampleMath exampleGame 0 2).
  - apply wfNodesb_sound. reflexivity.
  - simpl. lia.
  - split; [discriminate |]. exists [2%nat]. split; [| reflexivity].
    simpl. unfold passable. tauto.
Defined.

(** ** Game.sendArmy, Game.assign and the commands as a whole *)


Section Commands.
Context `{JSMath}.


(** C10.  For a team other than the neutral one that owns [from], on a
    well-formed map, [assign] reports success whatever the target; when the
    router finds no way the standing order of [from] is set to none, whatever
    it was; when it finds one the standing order is [to]. *)
Theorem assign_reports_success (g : Game.Game) (team : Player.Team) (from to : nat) :
  wfNodes (Game.nodes g) ->
  team <> Player.Neutral ->
  MapNode.team (MapNode.get (Game.nodes g) from) = team ->
  exists g',
    Game.assign g team from to = Ok (true, g')
    /\ (Game.dijkstra g from to = Ok None ->
        MapNode.assign (MapNode.get (Game.nodes g') from) = None)
    /\ (forall h, Game.dijkstra g from to = Ok (Some h) ->
        MapNode.assign (MapNode.get (Game.nodes g') from) = Some to).
Proof.
  intros W NN T.
  pose proof (get_owned_in_range _ _ _ NN T) as L.
  destruct (dijkstra_total g from to W L) as [r D].
  unfold Game.assign.
  rewrite (bool_decide_eq_true_2 _ T), (bool_decide_eq_false_2 _ NN). simpl.
  rewrite D. cbn [bind]. eexists. split; [reflexivity |].
  simpl. rewrite get_insert_eq by exact L. simpl.
  split; [intros [= ->] | intros h [= ->]]; reflexivity.
Qed.

(** C7.  On a well-formed map every command returns — a boolean for
    [build], [sendArmy], [assign], [unassign] and [forfeit], a node or
    [undefined] for [getNodeByID] — with no exception and no call that fails
    to come back, whatever the team, the nodes, the building, the troops and
    the id; and a command that reports failure leaves the game as it was.
    ([build], [unassign], [forfeit] and [getNodeByID] read fields of their
    arguments only and have no loop: they are total functions as embedded.) *)
Theorem commands_total_failure_safe (g : Game.Game) (team : Player.Team)
    (from to node : nat) (type : MapNode.NodeType) (troops nodeID : Z) :
  wfNodes (Game.nodes g) ->
  (exists ok g', Game.sendArmy g team from to troops = Ok (ok, g') /\ (ok = false -> g' = g))
  /\ (exists ok g', Game.assign g team from to = Ok (ok, g') /\ (ok = false -> g' = g))
  /\ (fst (Game.build g team node type) = false -> snd (Game.build g team node type) = g)
  /\ (fst (Game.unassign g team from) = false -> snd (Game.unassign g team from) = g)
  /\ (fst (Game.forfeit g team) = false -> snd (Game.forfeit g team) = g)
  /\ (Game.getNodeByID g nodeID = None
       <-> nodeID < 0 \/ Z.of_nat (length (Game.nodes g)) <= nodeID)
  /\ (forall n, Game.getNodeByID g nodeID = Some n ->
        (n < length (Game.nodes g))%nat /\ Z.of_nat n = nodeID).
Proof.
  intros W.
  split; [| split; [| split; [| split; [| split; [| split]]]]].
  - unfold Game.sendArmy.
    destruct (bool_decide (MapNode.team (MapNode.get (Game.nodes g) from) = team)) eqn:T;
      simpl; [| eauto].
    destruct (bool_decide (team = Player.Neutral)) eqn:N; simpl; [eauto |].
    destruct (Game.attacked g team from to); [eauto |].
    destruct (Z.min troops _ =? 0); [exists true, g; split; [reflexivity | discriminate] |].
    apply bool_decide_eq_true in T. apply bool_decide_eq_false in N.
    destruct (dijkstra_total g from to W (get_owned_in_range _ _ _ N T)) as [[h |] ->];
      cbn [bind]; [| eauto].
    eexists true, _. split; [reflexivity | discriminate].
  - unfold Game.assign.
    destruct (bool_decide (team = Player.Neutral)) eqn:N; simpl; [eauto |].
    destruct (bool_decide (MapNode.team (MapNode.get (Game.nodes g) from) = team)) eqn:T;
      simpl; [| eauto].
    apply bool_decide_eq_true in T. apply bool_decide_eq_false in N.
    destruct (dijkstra_total g from to W (get_owned_in_range _ _ _ N T)) as [r ->];
      cbn [bind].
    eexists true, _. split; [reflexivity | discriminate].
  - unfold Game.build.
    destruct (_ || _); [reflexivity |]. destruct (_ && _); [discriminate | reflexivity].
  - unfold Game.unassign. destruct (_ || _); [reflexivity | discriminate].
  - unfold Game.forfeit. destruct (bool_decide _); [reflexivity | discriminate].
  - unfold Game.getNodeByID.
    destruct (Z.ltb_spec nodeID 0), (Z.geb_spec nodeID (Z.of_nat (length (Game.nodes g))));
      simpl; split; intros; try reflexivity; try discriminate; lia.
  - unfold Game.getNodeByID. intros n.
    destruct (Z.ltb_spec nodeID 0), (Z.geb_spec nodeID (Z.of_nat (length (Game.nodes g))));
      simpl; try discriminate.
    intros [= <-]. lia.
Qed.

End Commands.


(** The standing order of node 0 is lost when it is pointed at the isolated
    node 3. *)
Lemma assign_reports_success_witness :
  exists g',
    @Game.assign exampleMath orderedGame Player.Red 0 3 = Ok (true, g')
    /\ MapNode.assign (MapNode.get (Game.nodes orderedGame) 0) = Some 2%nat
    /\ MapNode.assign (MapNode.get (Game.nodes g') 0) = None.
Proof.
  destruct (@assign_reports_success exampleMath orderedGame Player.Red 0 3)
    as (g' & E & N & _).
  - apply wfNodesb_sound. reflexivity.
  - discriminate.
  - reflexivity.
  - exists g'. split; [exact E |]. split; [reflexivity |]. apply N. reflexivity.
Defined.

(** Sending to the isolated node 3 fails and changes nothing. *)
Lemma commands_total_failure_safe_witness :
  (exists ok g', @Game.sendArmy exampleMath exampleGame Player.Red 0 3 10 = Ok (ok, g')
                 /\ (ok = false -> g' = exampleGame))
  /\ @Game.sendArmy exampleMath exampleGame Player.Red 0 3 10 = Ok (false, exampleGame)
  /\ Game.getNodeByID exampleGame 4 = None.
Proof.
  split; [| split; reflexivity].
  apply (@commands_total_failure_safe exampleMath exampleGame Player.Red 0 3 0
           MapNode.Factory 10 4).
  apply wfNodesb_sound. reflexivity.
Defined.

(** ** Game.tick *)

Lemma army_get_insert_eq (armies : list MapArmy.MapArmy) (i : nat) (a : MapArmy.MapArmy) :
  (i < length armies)%nat -> MapArmy.get (<[i := a]> armies) i = a.
Proof. intros L. unfold MapArmy.get. rewrite list_lookup_insert_eq; [reflexivity | exact L]. Qed.

Lemma army_get_insert_ne (armies : list MapArmy.MapArmy) (i j : nat) (a : MapArmy.MapArmy) :
  i <> j -> MapArmy.get (<[i := a]> armies) j = MapArmy.get armies j.
Proof. intros N. unfold MapArmy.get. rewrite list_lookup_insert_ne; [reflexivity | exact N]. Qed.

(** A property of every slot survives a write of a value that has it. *)
Lemma get_insert_all (P : MapNode.MapNode -> Prop) (nodes : list MapNode.MapNode)
    (n : nat) (v : MapNode.MapNode) :
  P v -> (forall k, P (MapNode.get nodes k)) -> forall k, P (MapNode.get (<[n := v]> nodes) k).
Proof.
  intros Pv Pall k. destruct (Nat.eq_dec n k) as [<- | N].
  - destruct (Nat.lt_ge_cases n (length nodes)) as [L | G].
    + rewrite get_insert_eq by exact L. exact Pv.
    + rewrite list_insert_ge by exact G. apply Pall.
  - rewrite get_insert_ne by exact N. apply Pall.
Qed.

Lemma army_get_insert_all (P : MapArmy.MapArmy -> Prop) (armies : list MapArmy.MapArmy)
    (n : nat) (v : MapArmy.MapArmy) :
  P v -> (forall k, P (MapArmy.get armies k)) ->
  forall k, P (MapArmy.get (<[n := v]> armies) k).
Proof.
  intros Pv Pall k. destruct (Nat.eq_dec n k) as [<- | N].
  - destruct (Nat.lt_ge_cases n (length armies)) as [L | G].
    + rewrite army_get_insert_eq by exact L. exact Pv.
    + rewrite list_insert_ge by exact G. apply Pall.
  - rewrite army_get_insert_ne by exact N. apply Pall.
Qed.

Lemma Forall_get (P : MapNode.MapNode -> Prop) (nodes : list MapNode.MapNode) :
  P MapNode.blank -> (Forall P nodes <-> forall k, P (MapNode.get nodes k)).
Proof.
  intros Pb. rewrite Forall_lookup. unfold MapNode.get. split.
  - intros F k. destruct (nodes !! k) eqn:L; [exact (F k _ L) | exact Pb].
  - intros G k node L. specialize (G k). rewrite L in G. exact G.
Qed.

Lemma army_Forall_get (P : MapArmy.MapArmy -> Prop) (armies : list MapArmy.MapArmy) :
  P MapArmy.blank -> (Forall P armies <-> forall k, P (MapArmy.get armies k)).
Proof.
  intros Pb. rewrite Forall_lookup. unfold MapArmy.get. split.
  - intros F k. destruct (armies !! k) eqn:L; [exact (F k _ L) | exact Pb].
  - intros G k army L. specialize (G k). rewrite L in G. exact G.
Qed.

Lemma nodesOk_get (nodes : list MapNode.MapNode) :
  nodesOk nodes <-> forall k, 0 <= MapNode.troops (MapNode.get nodes k).
Proof. apply (Forall_get (fun node => 0 <= MapNode.troops node)). simpl. lia. Qed.

(** *** The sort *)

Lemma Forall_insert_army (P : MapArmy.MapArmy -> Prop) (a : MapArmy.MapArmy)
    (l : list MapArmy.MapArmy) :
  P a -> Forall P l -> Forall P (MapArmy.insert a l).
Proof.
  intros Pa F. induction F as [| b l Pb F IH]; simpl.
  - constructor; [exact Pa | constructor].
  - destruct (MapArmy.distance b <=? MapArmy.distance a).
    + constructor; [exact Pa |]. constructor; assumption.
    + constructor; assumption.
Qed.

Lemma Forall_sort (P : MapArmy.MapArmy -> Prop) (l : list MapArmy.MapArmy) :
  Forall P l -> Forall P (MapArmy.sort l).
Proof.
  intros F. induction F as [| a l Pa F IH]; simpl; [constructor |].
  apply Forall_insert_army; assumption.
Qed.

Lemma descending_insert (a : MapArmy.MapArmy) (l : list MapArmy.MapArmy) :
  descending l -> descending (MapArmy.insert a l).
Proof.
  induction l as [| b l IH]; simpl; intros D.
  - split; [constructor | exact I].
  - destruct D as [F D].
    destruct (Z.leb_spec (MapArmy.distance b) (MapArmy.distance a)) as [LE | GT]; simpl.
    + split; [| split; assumption]. constructor; [exact LE |].
      eapply Forall_impl; [exact F |]. simpl. intros c Lc. lia.
    + split; [| apply IH, D]. apply Forall_insert_army; [lia | exact F].
Qed.

Lemma descending_sort (l : list MapArmy.MapArmy) : descending (MapArmy.sort l).
Proof.
  induction l as [| a l IH]; simpl; [exact I |]. apply descending_insert, IH.
Qed.

Lemma descending_get (l : list MapArmy.MapArmy) :
  descending l ->
  forall j k, (j <= k)%nat -> (k < length l)%nat ->
    MapArmy.distance (MapArmy.get l k) <= MapArmy.distance (MapArmy.get l j).
Proof.
  induction l as [| a l IH]; intros D j k JK KL; [simpl in KL; lia |].
  destruct D as [F D]. destruct j as [| j], k as [| k]; try lia.
  - unfold MapArmy.get at 2. simpl.
    unfold MapArmy.get. simpl in KL.
    destruct (lookup_lt_is_Some_2 l k ltac:(lia)) as [b Lb].
    change ((a :: l) !! S k) with (l !! k). rewrite Lb. simpl.
    rewrite Forall_lookup in F. exact (F k b Lb).
  - apply (IH D j k); simpl in KL; lia.
Qed.

(** *** Writes that change troops only *)

Lemma set_troops_same (a : MapArmy.MapArmy) : MapArmy.set_troops (MapArmy.troops a) a = a.
Proof. destruct a; reflexivity. Qed.

Lemma set_troops_twice (tr tr' : Z) (a : MapArmy.MapArmy) :
  MapArmy.set_troops tr (MapArmy.set_troops tr' a) = MapArmy.set_troops tr a.
Proof. destruct a; reflexivity. Qed.

Lemma troopsOnly_insert (l : list MapArmy.MapArmy) (i : nat) (tr : Z) :
  troopsOnly l (<[i := MapArmy.set_troops tr (MapArmy.get l i)]> l) [i].
Proof.
  split; [apply length_insert |]. intros k. split.
  - destruct (Nat.eq_dec i k) as [<- | N].
    + destruct (Nat.lt_ge_cases i (length l)) as [L | G].
      * rewrite army_get_insert_eq by exact L. eauto.
      * rewrite list_insert_ge by exact G. exists (MapArmy.troops (MapArmy.get l i)).
        symmetry. apply set_troops_same.
    + rewrite army_get_insert_ne by exact N. exists (MapArmy.troops (MapArmy.get l k)).
      symmetry. apply set_troops_same.
  - intros NI. apply army_get_insert_ne. intros ->. apply NI. left. reflexivity.
Qed.

Lemma troopsOnly_trans (l l' l'' : list MapArmy.MapArmy) (t1 t2 : list nat) :
  troopsOnly l l' t1 -> troopsOnly l' l'' t2 -> troopsOnly l l'' (t1 ++ t2).
Proof.
  intros [L1 T1] [L2 T2]. split; [congruence |]. intros k.
  destruct (T1 k) as [[tr1 E1] F1], (T2 k) as [[tr2 E2] F2]. split.
  - exists tr2. rewrite E2, E1. apply set_troops_twice.
  - intros NI. rewrite F2, F1; [reflexivity | |]; intros I; apply NI, in_or_app; auto.
Qed.

Section ArmyTick.
Context `{JSMath}.

Lemma distance_same (p q p' q' : MapNode.MapNode) :
  MapNode.x p' = MapNode.x p -> MapNode.y p' = MapNode.y p ->
  MapNode.x q' = MapNode.x q -> MapNode.y q' = MapNode.y q ->
  MapNode.intDistance p' q' = MapNode.intDistance p q.
Proof.
  intros E1 E2 E3 E4. unfold MapNode.intDistance, MapNode.distance.
  rewrite E1, E2, E3, E4. reflexivity.
Qed.

Lemma sameMap_refl (nodes : list MapNode.MapNode) : sameMap nodes nodes.
Proof. split; [reflexivity | intros k; auto]. Qed.

Lemma sameMap_trans (n1 n2 n3 : list MapNode.MapNode) :
  sameMap n1 n2 -> sameMap n2 n3 -> sameMap n1 n3.
Proof.
  intros [L1 S1] [L2 S2]. split; [congruence |]. intros k.
  destruct (S1 k) as (A1 & B1 & C1), (S2 k) as (A2 & B2 & C2).
  repeat split; congruence.
Qed.

Lemma sameMap_insert (nodes : list MapNode.MapNode) (n : nat) (v : MapNode.MapNode) :
  MapNode.x v = MapNode.x (MapNode.get nodes n) ->
  MapNode.y v = MapNode.y (MapNode.get nodes n) ->
  MapNode.adj v = MapNode.adj (MapNode.get nodes n) ->
  sameMap nodes (<[n := v]> nodes).
Proof.
  intros Ex Ey Ea. split; [apply length_insert |]. intros k.
  destruct (Nat.eq_dec n k) as [<- | N].
  - destruct (Nat.lt_ge_cases n (length nodes)) as [L | G].
    + rewrite get_insert_eq by exact L. auto.
    + rewrite list_insert_ge by exact G. auto.
  - rewrite get_insert_ne by exact N. auto.
Qed.

Lemma atEnd_same (nodes nodes' : list MapNode.MapNode) (a a' : MapArmy.MapArmy) :
  sameMap nodes nodes' ->
  MapArmy.from a' = MapArmy.from a -> MapArmy.to a' = MapArmy.to a ->
  MapArmy.distance a' = MapArmy.distance a ->
  atEnd nodes' a' -> atEnd nodes a.
Proof.
  intros [_ S] Ef Et Ed. unfold atEnd. rewrite Ef, Et, Ed.
  destruct (S (MapArmy.from a)) as (X1 & Y1 & _), (S (MapArmy.to a)) as (X2 & Y2 & _).
  rewrite (distance_same _ _ _ _ X1 Y1 X2 Y2). tauto.
Qed.

Lemma wfNodes_same (nodes nodes' : list MapNode.MapNode) :
  sameMap nodes nodes' -> wfNodes nodes -> wfNodes nodes'.
Proof.
  intros [L S] W u node' Lu v Iv. rewrite L.
  destruct (S u) as (_ & _ & A). unfold MapNode.get in A. rewrite Lu in A. simpl in A.
  destruct (nodes !! u) as [node |] eqn:Lo.
  - simpl in A. rewrite A in Iv. exact (W u node Lo v Iv).
  - simpl in A. rewrite A in Iv. destruct Iv.
Qed.

(** One army handled: what is enough for the invariant to go on. *)
Lemma walking_step (nodes0 : list MapNode.MapNode) (len i : nat) (st st' : MapArmy.store) :
  walking nodes0 len i st ->
  length (MapArmy.st_armies st') = len ->
  sameMap (MapArmy.st_nodes st) (MapArmy.st_nodes st') ->
  (forall k, 0 <= MapNode.troops (MapNode.get (MapArmy.st_nodes st') k)) ->
  (forall k, 0 <= MapArmy.distance (MapArmy.get (MapArmy.st_armies st') k)) ->
  (forall j, (S i <= j)%nat ->
     exists tr, MapArmy.get (MapArmy.st_armies st') j
                = MapArmy.set_troops tr (MapArmy.get (MapArmy.st_armies st) j)) ->
  (forall j, (S i <= j)%nat ->
     atEnd (MapArmy.st_nodes st) (MapArmy.get (MapArmy.st_armies st) j) ->
     MapArmy.get (MapArmy.st_armies st') j = MapArmy.get (MapArmy.st_armies st) j) ->
  Forall (fun order : nat * nat * Z => 0 <= snd order) (MapArmy.st_toSend st') ->
  walking nodes0 len (S i) st'.
Proof.
  intros [W1 W2 W3 W4 W5 W6 W7] A1 A2 A3 A4 A5 A6 A7. constructor; try assumption.
  - eapply sameMap_trans; eassumption.
  - intros j Lj E. destruct (A5 j Lj) as [tr Etr].
    assert (E0 : atEnd (MapArmy.st_nodes st) (MapArmy.get (MapArmy.st_armies st) j)).
    { eapply atEnd_same; [exact A2 | | | | exact E]; rewrite Etr; reflexivity. }
    rewrite (A6 j Lj E0). apply W5; [lia | exact E0].
  - intros j k Lj Ljk Lk.
    destruct (A5 j Lj) as [tr1 ->]. destruct (A5 k ltac:(lia)) as [tr2 ->]. simpl.
    apply W6; lia.
Qed.

Lemma findCollision_spec (nodes : list MapNode.MapNode) (army : MapArmy.MapArmy)
    (others : list MapArmy.MapArmy) (j0 : nat) (c : MapArmy.collision) :
  MapArmy.findCollision nodes army others j0 = Some c ->
  match c with
  | MapArmy.Tail j =>
      (j0 <= j)%nat
      /\ exists other, others !! (j - j0)%nat = Some other
                       /\ MapArmy.areCollidingTail army other = true
  | MapArmy.Head j =>
      (j0 <= j)%nat
      /\ exists other, others !! (j - j0)%nat = Some other
                       /\ MapArmy.areCollidingHead nodes army other = true
  end.
Proof.
  revert j0. induction others as [| other rest IH]; intros j0; simpl; [discriminate |].
  destruct (MapArmy.areCollidingTail army other) eqn:T.
  { intros [= <-]. split; [lia |]. exists other. rewrite Nat.sub_diag. auto. }
  destruct (MapArmy.areCollidingHead nodes army other) eqn:Hd; simpl.
  - destruct (bool_decide (MapArmy.team army = MapArmy.team other)); simpl.
    + intros E. specialize (IH (S j0) E). destruct c as [j | j];
        destruct IH as (L & o & Lo & C); (split; [lia |]); exists o;
        (replace (j - j0)%nat with (S (j - S j0)) by lia); auto.
    + intros [= <-]. split; [lia |]. exists other. rewrite Nat.sub_diag. auto.
  - intros E. specialize (IH (S j0) E). destruct c as [j | j];
      destruct IH as (L & o & Lo & C); (split; [lia |]); exists o;
      (replace (j - j0)%nat with (S (j - S j0)) by lia); auto.
Qed.

Lemma battleNode_shape (n i : nat) (st : MapArmy.store) :
  exists node' tr s',
    MapArmy.battleNode n i st
    = MapArmy.mkStore (<[n := node']> (MapArmy.st_nodes st))
        (<[i := MapArmy.set_troops tr (MapArmy.get (MapArmy.st_armies st) i)]>
           (MapArmy.st_armies st))
        (MapArmy.st_toSend st) s'
    /\ 0 <= MapNode.troops node'
    /\ MapNode.x node' = MapNode.x (MapNode.get (MapArmy.st_nodes st) n)
    /\ MapNode.y node' = MapNode.y (MapNode.get (MapArmy.st_nodes st) n)
    /\ MapNode.adj node' = MapNode.adj (MapNode.get (MapArmy.st_nodes st) n).
Proof.
  unfold MapArmy.battleNode.
  destruct (MapArmy.battle _ _ _ _ _) as [[newNodeTroops newArmyTroops] s'].
  destruct (Z.leb_spec newNodeTroops 0) as [L0 | G0].
  - destruct (Z.gtb_spec newArmyTroops 0) as [GA | LA].
    + eexists _, _, _. split; [reflexivity |]. simpl. repeat split; lia.
    + destruct (Z.leb_spec newArmyTroops 0) as [_ | C]; [| lia].
      eexists _, _, _. split; [reflexivity |]. simpl. repeat split; lia.
  - eexists _, _, _. split; [reflexivity |]. simpl. repeat split; lia.
Qed.

Lemma battleEdge_shape (i j : nat) (st : MapArmy.store) :
  exists armies' s',
    MapArmy.battleEdge i j st
    = MapArmy.mkStore (MapArmy.st_nodes st) armies' (MapArmy.st_toSend st) s'
    /\ troopsOnly (MapArmy.st_armies st) armies' [i; j].
Proof.
  unfold MapArmy.battleEdge.
  destruct (MapArmy.battle _ _ _ _ _) as [[c1 c2] s'].
  eexists _, _. split; [reflexivity |].
  eapply (troopsOnly_trans _ _ _ [i] [j]); apply troopsOnly_insert.
Qed.

Lemma troopsOnly_walking (nodes0 : list MapNode.MapNode) (len i : nat) (st : MapArmy.store)
    (armies' : list MapArmy.MapArmy) (s' : nat) (touched : list nat) :
  walking nodes0 len i st ->
  troopsOnly (MapArmy.st_armies st) armies' touched ->
  (forall j, (S i <= j)%nat -> In j touched ->
     ~ atEnd (MapArmy.st_nodes st) (MapArmy.get (MapArmy.st_armies st) j)) ->
  walking nodes0 len (S i)
          (MapArmy.mkStore (MapArmy.st_nodes st) armies' (MapArmy.st_toSend st) s').
Proof.
  intros W [L T] NE. apply (walking_step nodes0 len i st); simpl; try exact W.
  - rewrite L. apply (walk_len _ _ _ _ W).
  - apply sameMap_refl.
  - apply (walk_nodes _ _ _ _ W).
  - intros k. destruct (T k) as [[tr ->] _]. simpl. apply (walk_dist _ _ _ _ W).
  - intros j _. apply (T j).
  - intros j Lj E. apply (T j). intros I. exact (NE j Lj I E).
  - apply (walk_send _ _ _ _ W).
Qed.

(** The body of the loop keeps the invariant. *)
Lemma tickArmy_walking (nodes0 : list MapNode.MapNode) (len i : nat) (st : MapArmy.store) :
  (i < len)%nat -> walking nodes0 len i st -> walking nodes0 len (S i) (MapArmy.tickArmy i st).
Proof.
  intros Li W. pose proof W as [W1 W2 W3 W4 W5 W6 W7].
  unfold MapArmy.tickArmy.
  set (nodes := MapArmy.st_nodes st) in *.
  set (armies := MapArmy.st_armies st) in *.
  set (army := MapArmy.get armies i).
  destruct (Z.eqb_spec (MapArmy.distance army)
              (MapNode.intDistance (MapNode.get nodes (MapArmy.from army))
                                   (MapNode.get nodes (MapArmy.to army)))) as [E | NE].
  - (* the army arrives *)
    assert (Tr : 0 <= MapArmy.troops army) by (apply (W5 i); [lia | exact E]).
    destruct (bool_decide (MapArmy.team army = _)); simpl.
    + apply (walking_step nodes0 len i st); simpl; try exact W.
      * rewrite length_insert. exact W1.
      * apply sameMap_insert; reflexivity.
      * apply (get_insert_all (fun node => 0 <= MapNode.troops node)); [| exact W3]. simpl. specialize (W3 (MapArmy.to army)).
        fold nodes. lia.
      * apply (army_get_insert_all (fun a => 0 <= MapArmy.distance a)); [| exact W4]. simpl. apply W4.
      * intros j Lj. rewrite army_get_insert_ne by lia.
        eexists. symmetry. apply set_troops_same.
      * intros j Lj _. apply army_get_insert_ne. lia.
      * destruct (negb _); [| exact W7]. apply Forall_app. split; [exact W7 |].
        constructor; [exact Tr | constructor].
    + destruct (battleNode_shape (MapArmy.to army) i st)
        as (node' & tr & s' & -> & Tn & Ex & Ey & Ea).
      apply (walking_step nodes0 len i st); simpl; try exact W.
      * rewrite length_insert. exact W1.
      * apply sameMap_insert; assumption.
      * apply (get_insert_all (fun node => 0 <= MapNode.troops node)); [exact Tn | exact W3].
      * apply (army_get_insert_all (fun a => 0 <= MapArmy.distance a)); [| exact W4]. simpl. apply W4.
      * intros j Lj. rewrite army_get_insert_ne by lia.
        eexists. symmetry. apply set_troops_same.
      * intros j Lj _. apply army_get_insert_ne. lia.
      * exact W7.
  - (* the army is on its way *)
    destruct (MapArmy.findCollision nodes army armies 0) as [[j | j] |] eqn:C.
    + (* from behind *)
      destruct (findCollision_spec _ _ _ _ _ C) as (_ & other & Lo & T).
      rewrite Nat.sub_0_r in Lo.
      assert (Go : MapArmy.get armies j = other) by (unfold MapArmy.get; rewrite Lo; reflexivity).
      assert (Lj : (j < i)%nat).
      { apply andb_true_iff in T. destruct T as [_ T]. apply Z.eqb_eq in T.
        destruct (Nat.lt_ge_cases j i) as [L | G]; [exact L |].
        pose proof (lookup_lt_Some _ _ _ Lo) as Ll. fold armies in W1. rewrite W1 in Ll.
        pose proof (W6 i j ltac:(lia) G Ll) as S. rewrite Go in S. fold army in S. lia. }
      assert (Tch : forall touched, (forall x, In x touched -> x = i \/ x = j) ->
                forall j', (S i <= j')%nat -> In j' touched ->
                  ~ atEnd nodes (MapArmy.get armies j')).
      { intros touched Ht j' Lj' I. destruct (Ht j' I); lia. }
      destruct (_ && _).
      * apply (troopsOnly_walking nodes0 len i st _ _ [j; i] W).
        -- eapply (troopsOnly_trans _ _ _ [j] [i]); apply troopsOnly_insert.
        -- apply Tch. simpl. intuition.
      * destruct (battleEdge_shape i j st) as (armies' & s' & -> & T').
        apply (troopsOnly_walking nodes0 len i st _ _ [i; j] W T').
        apply Tch. simpl. intuition.
    + (* head on *)
      destruct (findCollision_spec _ _ _ _ _ C) as (_ & other & Lo & Hd).
      rewrite Nat.sub_0_r in Lo.
      assert (Go : MapArmy.get armies j = other) by (unfold MapArmy.get; rewrite Lo; reflexivity).
      destruct (battleEdge_shape i j st) as (armies' & s' & -> & T').
      apply (troopsOnly_walking nodes0 len i st _ _ [i; j] W T').
      intros j' Lj' [<- | [<- | []]]; [lia |]. fold armies. rewrite Go.
      unfold atEnd. intros A.
      apply andb_true_iff in Hd. destruct Hd as [O Hd]. apply Z.eqb_eq in Hd.
      apply andb_true_iff in O. destruct O as [O1 O2].
      apply Nat.eqb_eq in O1, O2. rewrite <- O1, <- O2 in A. fold nodes in A.
      pose proof (W4 i) as P. fold army in P. lia.
    + (* nothing in the way *)
      apply (walking_step nodes0 len i st); simpl; try exact W.
      * rewrite length_insert. exact W1.
      * apply sameMap_refl.
      * exact W3.
      * apply (army_get_insert_all (fun a => 0 <= MapArmy.distance a)); [| exact W4]. simpl. pose proof (W4 i) as P.
        fold army in P. lia.
      * intros j' Lj'. rewrite army_get_insert_ne by lia.
        eexists. symmetry. apply set_troops_same.
      * intros j' Lj' _. apply army_get_insert_ne. lia.
      * exact W7.
Qed.

Lemma fold_seq_inv {S : Type} (J : nat -> S -> Prop) (f : S -> nat -> S) (len : nat) (s0 : S) :
  J 0%nat s0 ->
  (forall i s, (i < len)%nat -> J i s -> J (Datatypes.S i) (f s i)) ->
  J len (fold_left f (seq 0 len) s0).
Proof.
  intros J0. induction len as [| len IH]; intros Step; [exact J0 |].
  rewrite seq_S, fold_left_app. simpl. apply Step; [lia |].
  apply IH. intros i s Li. apply Step. lia.
Qed.

(** [MapArmy.tick]: the map is the same, no node is left with negative
    troops, every army kept has troops, and no army to send is negative. *)
Lemma armyTick_ok (nodes : list MapNode.MapNode) (armies : list MapArmy.MapArmy) (s : nat) :
  nodesOk nodes -> armiesReady nodes armies ->
  exists nodes' newArmies toSend s',
    MapArmy.tick nodes armies s = (nodes', newArmies, toSend, s')
    /\ sameMap nodes nodes' /\ nodesOk nodes' /\ armiesOk newArmies
    /\ Forall (fun order : nat * nat * Z => 0 <= snd order) toSend.
Proof.
  intros N A. unfold MapArmy.tick.
  set (sorted := MapArmy.sort armies).
  set (st0 := MapArmy.mkStore nodes sorted [] s).
  assert (W0 : walking nodes (length sorted) 0 st0).
  { apply Forall_sort in A. fold sorted in A.
    rewrite army_Forall_get in A by (simpl; split; [lia | intros _; lia]).
    constructor; simpl.
    - reflexivity.
    - apply sameMap_refl.
    - apply nodesOk_get. exact N.
    - intros k. apply (A k).
    - intros j _. apply (A j).
    - intros j k _ Ljk Lk. apply descending_get; [apply descending_sort | exact Ljk | exact Lk].
    - constructor. }
  pose proof (fold_seq_inv (walking nodes (length sorted))
                (fun st i => MapArmy.tickArmy i st) (length sorted) st0 W0
                (fun i st Li W => tickArmy_walking nodes (length sorted) i st Li W)) as W.
  set (st := fold_left _ _ st0) in *.
  destruct W as [W1 W2 W3 W4 _ _ W7].
  eexists _, _, _, _. split; [reflexivity |].
  split; [exact W2 |]. split; [| split; [| exact W7]].
  - apply nodesOk_get. exact W3.
  - apply Forall_forall. intros army I. apply list_elem_of_In, filter_In in I.
    destruct I as [I P].
    split; [apply Z.gtb_lt in P; lia |].
    apply list_elem_of_In, list_elem_of_lookup in I. destruct I as [k Lk].
    specialize (W4 k). unfold MapArmy.get in W4. rewrite Lk in W4. exact W4.
Qed.

End ArmyTick.

Section GameTick.
Context `{JSMath}.

Lemma forEach_ok {A S : Type} (P : S -> Prop) (Q : A -> Prop)
    (body : A -> S -> result S) (l : list A) :
  (forall a s, Q a -> P s -> exists s', body a s = Ok s' /\ P s') ->
  Forall Q l ->
  forall s, P s -> exists s', Game.forEach body l s = Ok s' /\ P s'.
Proof.
  intros B F. induction F as [| a l Qa F IH]; intros s Ps; simpl; [eauto |].
  destruct (B a s Qa Ps) as (s1 & -> & P1). cbn [bind]. apply IH, P1.
Qed.

Lemma gameOk_set_node (g : Game.Game) (n : nat) (v : MapNode.MapNode) :
  gameOk g ->
  MapNode.x v = MapNode.x (MapNode.get (Game.nodes g) n) ->
  MapNode.y v = MapNode.y (MapNode.get (Game.nodes g) n) ->
  MapNode.adj v = MapNode.adj (MapNode.get (Game.nodes g) n) ->
  0 <= MapNode.troops v ->
  gameOk (Game.set_nodes (<[n := v]> (Game.nodes g)) g).
Proof.
  intros (W & N & A) Ex Ey Ea T. split; [| split]; simpl.
  - eapply wfNodes_same; [| exact W]. apply sameMap_insert; assumption.
  - apply nodesOk_get.
    apply (get_insert_all (fun node => 0 <= MapNode.troops node)); [exact T |].
    apply nodesOk_get, N.
  - exact A.
Qed.

(** [sendArmy] with a request that is not negative returns and keeps the
    invariant. *)
Lemma sendArmy_ok (g : Game.Game) (team : Player.Team) (from to : nat) (troops : Z) :
  gameOk g -> 0 <= troops ->
  exists ok g', Game.sendArmy g team from to troops = Ok (ok, g') /\ gameOk g'.
Proof.
  intros G T. unfold Game.sendArmy.
  destruct (bool_decide (MapNode.team (MapNode.get (Game.nodes g) from) = team)) eqn:O;
    simpl; [| eauto].
  destruct (bool_decide (team = Player.Neutral)) eqn:N; simpl; [eauto |].
  destruct (Game.attacked g team from to); [eauto |].
  destruct (Z.eqb_spec (Z.min troops (MapNode.troops (MapNode.get (Game.nodes g) from))) 0)
    as [Z0 | NZ]; [eauto |].
  apply bool_decide_eq_true in O. apply bool_decide_eq_false in N.
  pose proof G as (W & No & A).
  destruct (dijkstra_total g from to W (get_owned_in_range _ _ _ N O)) as [[h |] ->];
    cbn [bind]; [| eauto].
  eexists _, _. split; [reflexivity |].
  pose proof (proj1 (nodesOk_get _) No from) as Tf.
  destruct (gameOk_set_node g from
              (MapNode.set_troops
                 (MapNode.troops (MapNode.get (Game.nodes g) from)
                  - Z.min troops (MapNode.troops (MapNode.get (Game.nodes g) from)))
                 (MapNode.get (Game.nodes g) from)) G) as (W' & N' & _);
    try reflexivity; [simpl; lia |].
  split; [exact W' |]. split; [exact N' |]. simpl.
  apply Forall_app. split; [exact A |]. constructor; [| constructor]. simpl. lia.
Qed.

Lemma mult_pos (nodes : list MapNode.MapNode) (this : MapNode.MapNode) :
  1 <= MapNode.mult nodes this.
Proof. rewrite mult_count. unfold poweredNeighbours. lia. Qed.

Lemma node_tick_keeps (nodes : list MapNode.MapNode) (this : MapNode.MapNode) (t : Z) :
  let after := MapNode.tick nodes this t in
  MapNode.x after = MapNode.x this /\ MapNode.y after = MapNode.y this
  /\ MapNode.adj after = MapNode.adj this
  /\ MapNode.troops this <= MapNode.troops after.
Proof.
  unfold MapNode.tick. pose proof (mult_pos nodes this).
  destruct (_ || _); [simpl; repeat split; lia |].
  destruct (bool_decide _); simpl; repeat split; lia.
Qed.

(** The body of the loop over the nodes returns and keeps the invariant. *)
Lemma tickNode_ok (i : nat) (g : Game.Game) :
  gameOk g -> exists g', Game.tickNode i g = Ok g' /\ gameOk g'.
Proof.
  intros G. unfold Game.tickNode.
  destruct (node_tick_keeps (Game.nodes g) (MapNode.get (Game.nodes g) i) (Game.tickNumber g))
    as (Ex & Ey & Ea & Tr).
  pose proof (proj1 (nodesOk_get _) (proj1 (proj2 G)) i) as Ti.
  assert (G1 : gameOk (Game.set_nodes
                 (<[i := MapNode.tick (Game.nodes g) (MapNode.get (Game.nodes g) i)
                                      (Game.tickNumber g)]> (Game.nodes g)) g)).
  { apply gameOk_set_node; try assumption. lia. }
  set (g1 := Game.set_nodes _ g) in *.
  destruct (MapNode.assign (MapNode.get (Game.nodes g1) i)) as [target |]; [| eauto].
  destruct (Z.rem (Game.tickNumber g1) 8 =? 0); [| eauto].
  pose proof (proj1 (nodesOk_get _) (proj1 (proj2 G1)) i) as T1.
  destruct (sendArmy_ok g1 (MapNode.team (MapNode.get (Game.nodes g1) i)) i target
              (MapNode.troops (MapNode.get (Game.nodes g1) i)) G1 T1)
    as (ok & g2 & -> & G2).
  cbn [bind]. destruct ok; [eauto |].
  eexists. split; [reflexivity |].
  apply gameOk_set_node; try reflexivity; [exact G2 |].
  simpl. apply (proj1 (nodesOk_get _) (proj1 (proj2 G2)) i).
Qed.

Lemma sendNew_ok (order : nat * nat * Z) (g : Game.Game) :
  0 <= snd order -> gameOk g -> exists g', Game.sendNew order g = Ok g' /\ gameOk g'.
Proof.
  destruct order as [[to from] troops]. simpl. intros T G.
  destruct (sendArmy_ok g (MapNode.team (MapNode.get (Game.nodes g) to)) to from troops G T)
    as (ok & g' & -> & G').
  cbn [bind]. eauto.
Qed.

Lemma forEach_frame {A S : Type} (R : S -> S -> Prop)
    (body : A -> S -> result S) (l : list A) :
  (forall s, R s s) -> (forall s1 s2 s3, R s1 s2 -> R s2 s3 -> R s1 s3) ->
  (forall a s s', body a s = Ok s' -> R s s') ->
  forall s s', Game.forEach body l s = Ok s' -> R s s'.
Proof.
  intros Rr Rt B. induction l as [| a l IH]; intros s s'; simpl.
  - intros [= <-]. apply Rr.
  - destruct (body a s) as [s1 | |] eqn:E; cbn [bind]; try discriminate.
    intros E'. eapply Rt; [apply (B a s s1 E) | apply IH, E'].
Qed.

(** The commands that reach the nodes leave the map as it is. *)
Lemma sendArmy_sameMap (g g' : Game.Game) (team : Player.Team) (from to : nat)
    (troops : Z) (ok : bool) :
  Game.sendArmy g team from to troops = Ok (ok, g') ->
  sameMap (Game.nodes g) (Game.nodes g').
Proof.
  unfold Game.sendArmy.
  destruct (_ || _); [intros [= _ <-]; apply sameMap_refl |].
  destruct (Game.attacked g team from to); [intros [= _ <-]; apply sameMap_refl |].
  destruct (_ =? 0); [intros [= _ <-]; apply sameMap_refl |].
  destruct (Game.dijkstra g from to) as [[h |] | |]; cbn [bind]; try discriminate.
  - intros [= _ <-]. simpl. apply sameMap_insert; reflexivity.
  - intros [= _ <-]. apply sameMap_refl.
Qed.

Lemma tickNode_sameMap (i : nat) (g g' : Game.Game) :
  Game.tickNode i g = Ok g' -> sameMap (Game.nodes g) (Game.nodes g').
Proof.
  unfold Game.tickNode.
  destruct (node_tick_keeps (Game.nodes g) (MapNode.get (Game.nodes g) i) (Game.tickNumber g))
    as (Ex & Ey & Ea & _).
  assert (S1 : sameMap (Game.nodes g)
                 (<[i := MapNode.tick (Game.nodes g) (MapNode.get (Game.nodes g) i)
                                      (Game.tickNumber g)]> (Game.nodes g))).
  { apply sameMap_insert; assumption. }
  set (g1 := Game.set_nodes _ g) in *.
  destruct (MapNode.assign (MapNode.get (Game.nodes g1) i)) as [target |];
    [| intros [= <-]; exact S1].
  destruct (Z.rem (Game.tickNumber g1) 8 =? 0); [| intros [= <-]; exact S1].
  destruct (Game.sendArmy g1 _ i target _) as [[ok g2] | |] eqn:E; cbn [bind];
    try discriminate.
  pose proof (sendArmy_sameMap _ _ _ _ _ _ _ E) as S2.
  destruct ok; intros [= <-].
  - eapply sameMap_trans; eassumption.
  - eapply sameMap_trans; [exact S1 |]. eapply sameMap_trans; [exact S2 |].
    simpl. apply sameMap_insert; reflexivity.
Qed.

Lemma sendNew_sameMap (order : nat * nat * Z) (g g' : Game.Game) :
  Game.sendNew order g = Ok g' -> sameMap (Game.nodes g) (Game.nodes g').
Proof.
  destruct order as [[to from] troops]. unfold Game.sendNew.
  destruct (Game.sendArmy g _ to from troops) as [[ok g1] | |] eqn:E; cbn [bind];
    try discriminate.
  intros [= <-]. apply (sendArmy_sameMap _ _ _ _ _ _ _ E).
Qed.

(** A tick from a game ready for it: it returns, with the invariant and the
    same map. *)
Lemma tick_ok (g : Game.Game) (s : nat) :
  wfNodes (Game.nodes g) -> nodesOk (Game.nodes g) ->
  armiesReady (Game.nodes g) (Game.armies g) ->
  exists g' s',
    Game.tick g s = Ok (g', s') /\ gameOk g' /\ sameMap (Game.nodes g) (Game.nodes g').
Proof.
  intros W N A. unfold Game.tick.
  destruct (armyTick_ok (Game.nodes g) (Game.armies g) s N A)
    as (nodes1 & newArmies & toSend & s' & -> & SM & N1 & A1 & TS).
  set (g1 := Game.mk nodes1 (Game.tickNumber g + 1) newArmies (Game.armyCounter g)).
  assert (G1 : gameOk g1).
  { split; [| split]; simpl; try assumption. eapply wfNodes_same; eassumption. }
  destruct (forEach_ok gameOk (fun _ => True) Game.tickNode (seq 0 (length (Game.nodes g1)))
              (fun i g0 _ G0 => tickNode_ok i g0 G0)
              ltac:(apply Forall_forall; intros; exact I) g1 G1) as (g2 & E2 & G2).
  rewrite E2. cbn [bind].
  destruct (forEach_ok gameOk (fun order : nat * nat * Z => 0 <= snd order) Game.sendNew toSend
              (fun order g0 T G0 => sendNew_ok order g0 T G0) TS g2 G2) as (g3 & E3 & G3).
  rewrite E3. cbn [bind]. exists g3, s'. split; [reflexivity |]. split; [exact G3 |].
  pose proof (forEach_frame (fun a b => sameMap (Game.nodes a) (Game.nodes b)) Game.tickNode _
                (fun a => sameMap_refl _) (fun a b c => sameMap_trans _ _ _)
                tickNode_sameMap g1 g2 E2) as S2.
  pose proof (forEach_frame (fun a b => sameMap (Game.nodes a) (Game.nodes b)) Game.sendNew _
                (fun a => sameMap_refl _) (fun a b c => sameMap_trans _ _ _)
                sendNew_sameMap g2 g3 E3) as S3.
  eapply sameMap_trans; [exact SM |]. eapply sameMap_trans; [exact S2 | exact S3].
Qed.

(** C3.  From a game on a well-formed map in which no node holds a negative
    number of troops, no army has a negative progress and no army standing
    at the end of its edge has a negative number of troops, [tick] returns,
    and when it has every node holds a non-negative number of troops and
    every army of the active set has a positive number of troops (the others
    have been dropped); the game is again one that a tick can start from. *)
Theorem tick_troops (g : Game.Game) (s : nat) :
  wfNodes (Game.nodes g) -> nodesOk (Game.nodes g) ->
  armiesReady (Game.nodes g) (Game.armies g) ->
  exists g' s',
    Game.tick g s = Ok (g', s')
    /\ Forall (fun node => 0 <= MapNode.troops node) (Game.nodes g')
    /\ Forall (fun army => 0 < MapArmy.troops army) (Game.armies g')
    /\ wfNodes (Game.nodes g')
    /\ armiesReady (Game.nodes g') (Game.armies g').
Proof.
  intros W N A.
  destruct (tick_ok g s W N A) as (g' & s' & E & (W' & N' & A') & _).
  exists g', s'. split; [exact E |]. split; [exact N' |]. split; [| split; [exact W' |]].
  - eapply Forall_impl; [exact A' |]. simpl. tauto.
  - eapply Forall_impl; [exact A' |]. simpl. intros army [P D]. split; [exact D | lia].
Qed.

End GameTick.

(** A tick of the example: the red army takes its losses at the gates. *)
Lemma tick_troops_witness :
  exists g' s',
    @Game.tick exampleMath marchingGame 0 = Ok (g', s')
    /\ Forall (fun node => 0 <= MapNode.troops node) (Game.nodes g')
    /\ Forall (fun army => 0 < MapArmy.troops army) (Game.armies g')
    /\ wfNodes (Game.nodes g')
    /\ @armiesReady exampleMath (Game.nodes g') (Game.armies g').
Proof.
  apply (@tick_troops exampleMath marchingGame 0).
  - apply wfNodesb_sound. reflexivity.
  - repeat constructor; simpl; lia.
  - repeat constructor; simpl; lia.
Defined.

(** ** The commands and the tick keep a game ready for a tick *)

Section KeepReady.
Context `{JSMath}.

Lemma dijkstra_adjacent (g : Game.Game) (from to h : nat) :
  wfNodes (Game.nodes g) -> (from < length (Game.nodes g))%nat ->
  Game.dijkstra g from to = Ok (Some h) ->
  In h (MapNode.adj (MapNode.get (Game.nodes g) from)).
Proof.
  intros W L E.
  destruct (dijkstra_run (Game.nodes g) from to W L g eq_refl)
    as [(h' & p & E' & _ & [R _] & _) | [E' _]]; rewrite E' in E; [| discriminate].
  injection E as <-. apply R.
Qed.

Lemma edgesLong_same (nodes nodes' : list MapNode.MapNode) :
  sameMap nodes nodes' -> edgesLong nodes -> edgesLong nodes'.
Proof.
  intros [_ S] E u v I.
  destruct (S u) as (Xu & Yu & Au), (S v) as (Xv & Yv & _).
  rewrite (distance_same _ _ _ _ Xu Yu Xv Yv). apply E. rewrite <- Au. exact I.
Qed.




(** So does a tick. *)
Lemma tick_keeps_ready (g : Game.Game) (s : nat) :
  ready g -> exists g' s', Game.tick g s = Ok (g', s') /\ ready g'.
Proof.
  intros (W & E & N & A).
  destruct (tick_ok g s W N A) as (g' & s' & T & (W' & N' & A') & S).
  exists g', s'. split; [exact T |].
  split; [exact W' |]. split; [eapply edgesLong_same; eassumption |]. split; [exact N' |].
  eapply Forall_impl; [exact A' |]. simpl. intros army [P D]. split; [exact D | lia].
Qed.

End KeepReady.

(** * Further properties of the engine *)

(** ** Game.forfeit *)

Lemma forfeitNode_get (team : Player.Team) (nodes : list MapNode.MapNode) (k : nat) :
  MapNode.get (map (Game.forfeitNode team) nodes) k
  = match nodes !! k with
    | Some node => Game.forfeitNode team node
    | None => MapNode.blank
    end.
Proof.
  unfold MapNode.get. rewrite list_lookup_fmap. destruct (nodes !! k); reflexivity.
Qed.

(** X1.  [forfeit] by a team other than the neutral one succeeds; every
    node of the team becomes neutral with no building and no troops, every
    other node is untouched, and no node of the team is left; the armies
    left are those of the other teams, in their order; standing orders are
    not touched, not even those of the nodes given up; a second [forfeit]
    changes nothing more. *)
Theorem forfeit_spec (g : Game.Game) (team : Player.Team) :
  team <> Player.Neutral ->
  let g' := snd (Game.forfeit g team) in
  fst (Game.forfeit g team) = true
  /\ length (Game.nodes g') = length (Game.nodes g)
  /\ (forall k,
        let node := MapNode.get (Game.nodes g) k in
        let node' := MapNode.get (Game.nodes g') k in
        (MapNode.team node = team ->
           node' = MapNode.mk (MapNode.x node) (MapNode.y node) (MapNode.adj node)
                              Player.Neutral 0 MapNode.Normal (MapNode.assign node)
                              (MapNode.wasAttacked node))
        /\ (MapNode.team node <> team -> node' = node)
        /\ MapNode.team node' <> team)
  /\ Game.armies g'
     = List.filter (fun army => negb (bool_decide (MapArmy.team army = team))) (Game.armies g)
  /\ Forall (fun army => MapArmy.team army <> team) (Game.armies g')
  /\ Game.tickNumber g' = Game.tickNumber g
  /\ Game.armyCounter g' = Game.armyCounter g
  /\ Game.forfeit g' team = (true, g').
Proof.
  intros NN g'. subst g'. unfold Game.forfeit.
  rewrite (bool_decide_eq_false_2 _ NN). simpl.
  split; [reflexivity |]. split; [apply length_map |].
  split; [| split; [reflexivity | split; [| split; [reflexivity | split; [reflexivity |]]]]].
  - intros k. simpl. rewrite forfeitNode_get. unfold MapNode.get.
    destruct (Game.nodes g !! k) as [node |]; simpl.
    + unfold Game.forfeitNode. destruct (bool_decide_reflect (MapNode.team node = team)) as [E | N].
      * split; [intros _; reflexivity |]. split; [contradiction |]. simpl. congruence.
      * split; [contradiction |]. split; [reflexivity | exact N].
    + split; [intros E; simpl in E; congruence |]. split; [reflexivity |]. simpl. congruence.
  - apply Forall_forall. intros army I. apply list_elem_of_In, filter_In in I.
    destruct I as [_ I]. apply negb_true_iff, bool_decide_eq_false in I. exact I.
  - f_equal. f_equal.
    + rewrite map_map. apply map_ext. intros node. unfold Game.forfeitNode.
      destruct (bool_decide_reflect (MapNode.team node = team)) as [E | N]; simpl.
      * destruct (bool_decide_reflect (Player.Neutral = team)); [congruence | reflexivity].
      * rewrite (bool_decide_eq_false_2 _ N). reflexivity.
    + induction (Game.armies g) as [| a l IH]; simpl; [reflexivity |].
      destruct (negb (bool_decide (MapArmy.team a = team))) eqn:E; simpl.
      * rewrite E. f_equal. exact IH.
      * exact IH.
Qed.

(** The blue team of the marching example gives up. *)
Lemma forfeit_spec_witness :
  fst (Game.forfeit marchingGame Player.Blue) = true
  /\ MapNode.team (MapNode.get (Game.nodes (snd (Game.forfeit marchingGame Player.Blue))) 2)
     = Player.Neutral
  /\ length (Game.armies (snd (Game.forfeit marchingGame Player.Blue))) = 1%nat.
Proof.
  destruct (forfeit_spec marchingGame Player.Blue ltac:(discriminate))
    as (E & _ & _ & A & _).
  split; [exact E |]. split; [reflexivity |]. rewrite A. reflexivity.
Defined.

(** ** MapArmy.battle, battleNode *)

Section BattleBounds.
Context `{JSMath}.

Lemma product_pos (a b : Q) : (0 < a)%Q -> (0 < b)%Q -> (0 < double (a * b))%Q.
Proof. intros Pa Pb. apply double_pos, Qmult_lt_0_compat; assumption. Qed.

Lemma meanLoss_pos (troops : Z) (s : nat) : 0 < troops -> (0 < MapArmy.meanLoss troops s)%Q.
Proof.
  intros P. unfold MapArmy.meanLoss, MapArmy.lossMeanRatio, MapArmy.lossRadius.
  pose proof (factor_range s) as [F _]. cbv zeta in F.
  assert (T : (0 < inject_Z troops)%Q) by (rewrite <- (Zlt_Qlt 0); exact P).
  apply product_pos.
  - apply product_pos; [exact T | apply double_pos; reflexivity].
  - assert (((1 # 10 ^ 15) < 9 # 10)%Q) by reflexivity. lra.
Qed.

Lemma ratio_pos (a b : Z) : 0 < a -> 0 < b -> (0 < double (inject_Z a / inject_Z b))%Q.
Proof.
  intros Pa Pb. apply double_pos, Qlt_shift_div_l.
  - rewrite <- (Zlt_Qlt 0); exact Pb.
  - rewrite Qmult_0_l. rewrite <- (Zlt_Qlt 0); exact Pa.
Qed.

Lemma battleLosses_pos (troopsA troopsB : Z) (s : nat) :
  0 < troopsA -> 0 < troopsB ->
  let '(lossesA, lossesB, s') := MapArmy.battleLosses troopsA troopsB s in
  (0 < lossesA)%Q /\ (0 < lossesB)%Q /\ (s' = S s \/ s' = S (S s)).
Proof.
  intros PA PB. unfold MapArmy.battleLosses.
  pose proof (meanLoss_pos troopsA) as MA. pose proof (meanLoss_pos troopsB) as MB.
  destruct (troopsA <? troopsB); [| destruct (troopsA >? troopsB)].
  - split; [apply product_pos; [apply MB, PB | apply ratio_pos; assumption] |].
    split; [apply MB, PB | left; reflexivity].
  - split; [apply MA, PA |].
    split; [apply product_pos; [apply MA, PA | apply ratio_pos; assumption] |].
    left; reflexivity.
  - split; [apply MA, PA |]. split; [apply MB, PB | right; reflexivity].
Qed.

(** What a pool loses: nothing less than zero, and one troop at least when
    its modifier is positive. *)
Lemma ceil_nonneg (loss mult : Q) :
  (0 < loss)%Q -> (0 <= mult)%Q -> 0 <= Math_ceil (double (loss * mult)).
Proof.
  intros P M. unfold Math_ceil. pose proof (Qle_ceiling (double (loss * mult))) as C.
  assert (N : (0 <= loss * mult)%Q) by (apply Qmult_le_0_compat; lra).
  pose proof (double_nonneg _ N).
  rewrite Zle_Qle. change (inject_Z 0) with 0%Q. lra.
Qed.

Lemma ceil_pos (loss mult : Q) :
  (0 < loss)%Q -> (0 < mult)%Q -> 1 <= Math_ceil (double (loss * mult)).
Proof.
  intros P M. unfold Math_ceil. pose proof (Qle_ceiling (double (loss * mult))) as C.
  pose proof (product_pos _ _ P M).
  assert (0 < Qceiling (double (loss * mult))); [| lia].
  rewrite Zlt_Qlt. change (inject_Z 0) with 0%Q. lra.
Qed.

(** X2.  [battle] never adds troops to a pool when the modifiers are not
    negative.  When a pool is empty or negative no draw is made and both
    pools come back floored at zero; when both pools are positive, one or two
    draws are made and a pool whose modifier is positive loses at least one
    troop. *)
Theorem battle_never_gains (troopsA troopsB : Z) (multA multB : Q) (s : nat) :
  (0 <= multA)%Q -> (0 <= multB)%Q ->
  let newA := fst (fst (MapArmy.battle troopsA troopsB multA multB s)) in
  let newB := snd (fst (MapArmy.battle troopsA troopsB multA multB s)) in
  let s' := snd (MapArmy.battle troopsA troopsB multA multB s) in
  newA <= Z.max troopsA 0 /\ newB <= Z.max troopsB 0
  /\ (troopsA <= 0 \/ troopsB <= 0 ->
      newA = Z.max troopsA 0 /\ newB = Z.max troopsB 0 /\ s' = s)
  /\ (0 < troopsA -> 0 < troopsB ->
      ((0 < multA)%Q -> newA < troopsA) /\ ((0 < multB)%Q -> newB < troopsB)
      /\ (s' = S s \/ s' = S (S s))).
Proof.
  intros MA MB. unfold MapArmy.battle.
  destruct (Z.leb_spec troopsA 0) as [LA | PA]; simpl.
  { repeat split; try lia. }
  destruct (Z.leb_spec troopsB 0) as [LB | PB]; simpl.
  { repeat split; try lia. }
  pose proof (battleLosses_pos troopsA troopsB s PA PB) as BL.
  destruct (MapArmy.battleLosses troopsA troopsB s) as [[lossesA lossesB] s1].
  destruct BL as (LA & LB & S1). simpl.
  pose proof (ceil_nonneg lossesA multA ltac:(lra) ltac:(lra)).
  pose proof (ceil_nonneg lossesB multB ltac:(lra) ltac:(lra)).
  split; [lia |]. split; [lia |]. split; [lia |].
  intros _ _. split; [| split; [| exact S1]].
  - intros P. pose proof (ceil_pos lossesA multA ltac:(lra) ltac:(lra)). lia.
  - intros P. pose proof (ceil_pos lossesB multB ltac:(lra) ltac:(lra)). lia.
Qed.

End BattleBounds.

(** Ten troops against fifty, both modifiers one. *)
Lemma battle_never_gains_witness :
  fst (fst (@MapArmy.battle exampleMath 10 50 1 1 0)) < 10
  /\ snd (fst (@MapArmy.battle exampleMath 10 50 1 1 0)) < 50.
Proof.
  destruct (@battle_never_gains exampleMath 10 50 1 1 0%nat ltac:(lra) ltac:(lra))
    as (_ & _ & _ & P).
  destruct (P ltac:(lia) ltac:(lia)) as (A & B & _).
  split; [apply A | apply B]; reflexivity.
Defined.

Section NodeBattle.
Context `{JSMath}.

(** Modifiers that are the same number give the same battle. *)
Lemma battle_proper (troopsA troopsB : Z) (multA multA' multB multB' : Q) (s : nat) :
  (multA == multA')%Q -> (multB == multB')%Q ->
  MapArmy.battle troopsA troopsB multA multB s = MapArmy.battle troopsA troopsB multA' multB' s.
Proof.
  intros EA EB. unfold MapArmy.battle. destruct (_ || _); [reflexivity |].
  destruct (MapArmy.battleLosses troopsA troopsB s) as [[lossesA lossesB] s'].
  assert (CA : Math_ceil (double (lossesA * multA)) = Math_ceil (double (lossesA * multA'))).
  { unfold Math_ceil. apply Qceiling_comp, double_proper. rewrite EA. reflexivity. }
  assert (CB : Math_ceil (double (lossesB * multB)) = Math_ceil (double (lossesB * multB'))).
  { unfold Math_ceil. apply Qceiling_comp, double_proper. rewrite EB. reflexivity. }
  rewrite CA, CB. reflexivity.
Qed.

Lemma double_half : (double (1 * (1 # 2)) == 1 # 2)%Q.
Proof.
  rewrite (double_proper (1 * (1 # 2)) (inject_Z 1 * 2 ^ (-1))) by reflexivity.
  rewrite double_exact by discriminate. reflexivity.
Qed.

Lemma double_twice (a : Q) : (a == 1 # 2 \/ a == 1)%Q -> (double (a * 2) == a * 2)%Q.
Proof.
  intros [E | E].
  - rewrite (double_proper (a * 2) (inject_Z 1)) by (rewrite E; reflexivity).
    rewrite double_Z by discriminate. rewrite E. reflexivity.
  - rewrite (double_proper (a * 2) (inject_Z 2)) by (rewrite E; reflexivity).
    rewrite double_Z by discriminate. rewrite E. reflexivity.
Qed.

(** The modifier that [battleNode] computes for the node, in doubles, is
    the product of the two factors: they are powers of two. *)
Lemma nodeMult_modifier (nodes : list MapNode.MapNode) (node : MapNode.MapNode)
    (army : MapArmy.MapArmy) :
  let nodeMult := if bool_decide (MapNode.type node = MapNode.Fort)
                  then double (1 * (1 # 2))%Q else 1%Q in
  ((if MapArmy.hasArtillery nodes army then double (nodeMult * 2) else nodeMult)
   == nodeModifier nodes node army)%Q.
Proof.
  cbv zeta. unfold nodeModifier, MapArmy.hasArtillery.
  destruct (decide (MapNode.team (MapNode.get nodes (MapArmy.from army)) = MapArmy.team army))
    as [T | T],
    (decide (MapNode.type (MapNode.get nodes (MapArmy.from army)) = MapNode.Artillery))
    as [A | A];
    rewrite ?(bool_decide_eq_true_2 _ T), ?(bool_decide_eq_false_2 _ T),
            ?(bool_decide_eq_true_2 _ A), ?(bool_decide_eq_false_2 _ A); simpl andb.
  - rewrite (bool_decide_eq_true_2 (_ /\ _)) by tauto.
    destruct (bool_decide (MapNode.type node = MapNode.Fort)).
    + rewrite double_twice by (left; apply double_half). rewrite double_half. reflexivity.
    + rewrite double_twice by (right; reflexivity). reflexivity.
  - rewrite (bool_decide_eq_false_2 (_ /\ _)) by tauto.
    destruct (bool_decide (MapNode.type node = MapNode.Fort)); [rewrite double_half |]; ring.
  - rewrite (bool_decide_eq_false_2 (_ /\ _)) by tauto.
    destruct (bool_decide (MapNode.type node = MapNode.Fort)); [rewrite double_half |]; ring.
  - rewrite (bool_decide_eq_false_2 (_ /\ _)) by tauto.
    destruct (bool_decide (MapNode.type node = MapNode.Fort)); [rewrite double_half |]; ring.
Qed.

(** X3.  An army at the gates of a node of the map.  The two fight one
    round of [battle], with the modifiers of the buildings: a fort halves
    the losses of the node, artillery on the node the army left doubles
    them, artillery on the node doubles the losses of the army.  The node
    is marked as attacked, stays where it is with its neighbours, and never
    ends with negative troops.  If the round leaves troops to the node, the
    node holds: same team, building and standing order, and the node and
    the army have the troops that the round left them.  Otherwise the node
    falls: no building, no standing order, the army spent; and it goes to
    the team of the army with the troops that the round left the army, or
    to nobody with no troops when the round left the army none.  No other
    node, no other army and no order to send is touched. *)
Theorem battleNode_outcome (n i : nat) (st : MapArmy.store) :
  (n < length (MapArmy.st_nodes st))%nat ->
  (i < length (MapArmy.st_armies st))%nat ->
  let st' := MapArmy.battleNode n i st in
  let node := MapNode.get (MapArmy.st_nodes st) n in
  let army := MapArmy.get (MapArmy.st_armies st) i in
  let node' := MapNode.get (MapArmy.st_nodes st') n in
  let army' := MapArmy.get (MapArmy.st_armies st') i in
  let round := MapArmy.battle (MapNode.troops node) (MapArmy.troops army)
                 (nodeModifier (MapArmy.st_nodes st) node army) (armyModifier node)
                 (MapArmy.st_seed st) in
  let nodeLeft := round.1.1 in
  let armyLeft := round.1.2 in
  MapNode.wasAttacked node' = true
  /\ MapNode.x node' = MapNode.x node /\ MapNode.y node' = MapNode.y node
  /\ MapNode.adj node' = MapNode.adj node
  /\ 0 <= MapNode.troops node'
  /\ army' = MapArmy.set_troops (MapArmy.troops army') army
  /\ MapArmy.st_seed st' = round.2
  /\ ((0 < nodeLeft
       /\ MapNode.team node' = MapNode.team node /\ MapNode.type node' = MapNode.type node
       /\ MapNode.assign node' = MapNode.assign node
       /\ MapNode.troops node' = nodeLeft /\ MapArmy.troops army' = armyLeft)
      \/ (nodeLeft <= 0
          /\ MapNode.type node' = MapNode.Normal /\ MapNode.assign node' = None
          /\ MapArmy.troops army' = 0
          /\ ((0 < armyLeft
               /\ MapNode.team node' = MapArmy.team army /\ MapNode.troops node' = armyLeft)
              \/ (armyLeft <= 0
                  /\ MapNode.team node' = Player.Neutral /\ MapNode.troops node' = 0))))
  /\ (forall k, k <> n ->
        MapNode.get (MapArmy.st_nodes st') k = MapNode.get (MapArmy.st_nodes st) k)
  /\ (forall k, k <> i ->
        MapArmy.get (MapArmy.st_armies st') k = MapArmy.get (MapArmy.st_armies st) k)
  /\ MapArmy.st_toSend st' = MapArmy.st_toSend st.
Proof.
  intros Ln Li. cbv zeta. unfold MapArmy.battleNode. cbv zeta.
  rewrite (battle_proper _ _ _ (nodeModifier (MapArmy.st_nodes st)
                                  (MapNode.get (MapArmy.st_nodes st) n)
                                  (MapArmy.get (MapArmy.st_armies st) i))
                         _ (armyModifier (MapNode.get (MapArmy.st_nodes st) n)) _
                         (nodeMult_modifier _ _ _) (Qeq_refl _)).
  destruct (MapArmy.battle _ _ _ _ _) as [[newNodeTroops newArmyTroops] s'].
  assert (Frame : forall node' army' s1,
    let st' := MapArmy.mkStore (<[n := node']> (MapArmy.st_nodes st))
                 (<[i := army']> (MapArmy.st_armies st)) (MapArmy.st_toSend st) s1 in
    (forall k, k <> n ->
       MapNode.get (MapArmy.st_nodes st') k = MapNode.get (MapArmy.st_nodes st) k)
    /\ (forall k, k <> i ->
          MapArmy.get (MapArmy.st_armies st') k = MapArmy.get (MapArmy.st_armies st) k)
    /\ MapArmy.st_toSend st' = MapArmy.st_toSend st).
  { intros node' army' s1. simpl.
    split; [intros k N; apply get_insert_ne; congruence |].
    split; [intros k N; apply army_get_insert_ne; congruence | reflexivity]. }
  destruct (Z.leb_spec newNodeTroops 0) as [L0 | G0];
    [destruct (Z.gtb_spec newArmyTroops 0) as [GA | LA];
       [| destruct (Z.leb_spec newArmyTroops 0) as [_ | C]; [| lia]] |];
    (repeat (split; [simpl; rewrite ?(get_insert_eq _ _ _ Ln),
                       ?(army_get_insert_eq _ _ _ Li); simpl; first [reflexivity | lia] |]));
    (split; [| apply Frame]);
    simpl; rewrite ?(get_insert_eq _ _ _ Ln), ?(army_get_insert_eq _ _ _ Li); simpl.
  - right. repeat split; try assumption. left. repeat split. lia.
  - right. repeat split; try assumption. right. repeat split. exact LA.
  - left. repeat split. exact G0.
Qed.

End NodeBattle.

(** The red army of the marching example at the gates of the blue node,
    fifty against ten: the node holds with six troops and the army is left
    forty-nine. *)
Lemma battleNode_outcome_witness :
  let st := MapArmy.mkStore (Game.nodes marchingGame)
                            (MapArmy.sort (Game.armies marchingGame)) [] 0 in
  let st' := @MapArmy.battleNode exampleMath 2 0 st in
  MapNode.wasAttacked (MapNode.get (MapArmy.st_nodes st') 2) = true
  /\ MapNode.troops (MapNode.get (MapArmy.st_nodes st') 2) = 6
  /\ MapArmy.troops (MapArmy.get (MapArmy.st_armies st') 0) = 49.
Proof.
  intros st st'.
  split; [apply (@battleNode_outcome exampleMath 2 0 st); simpl; lia |].
  split; vm_compute; reflexivity.
Defined.

(** ** Commands one after the other *)

(** X4.  A building can not be bought twice: after a successful [build],
    a second [build] of the same type on the same node fails, whoever asks,
    and changes nothing. *)
Theorem build_not_twice (g : Game.Game) (team team' : Player.Team) (node : nat)
    (type : MapNode.NodeType) :
  fst (Game.build g team node type) = true ->
  Game.build (snd (Game.build g team node type)) team' node type
  = (false, snd (Game.build g team node type)).
Proof.
  destruct (Game.build g team node type) as [ok g'] eqn:E. simpl. intros ->.
  unfold Game.build in E.
  destruct (bool_decide (team = Player.Neutral) || _) eqn:G1; [discriminate |].
  destruct (bool_decide (MapNode.team (MapNode.get (Game.nodes g) node) = team) && _ && _)
    eqn:G2; [| discriminate].
  injection E as <-.
  apply orb_false_iff in G1. destruct G1 as [N _]. apply bool_decide_eq_false in N.
  apply andb_true_iff in G2. destruct G2 as [G2 _].
  apply andb_true_iff in G2. destruct G2 as [T _]. apply bool_decide_eq_true in T.
  pose proof (get_owned_in_range _ _ _ N T) as L.
  unfold Game.build. destruct (_ || _); [reflexivity |].
  simpl. rewrite get_insert_eq by exact L. simpl.
  rewrite (bool_decide_eq_true_2 (type = type) eq_refl). simpl.
  rewrite andb_false_r. reflexivity.
Qed.

(** A factory on the red node 0, then a second one. *)
Lemma build_not_twice_witness :
  let g := Game.mk [exampleNode 0 0 [] Player.Red 500] 0 [] 0 in
  Game.build (snd (Game.build g Player.Red 0 MapNode.Factory)) Player.Red 0 MapNode.Factory
  = (false, snd (Game.build g Player.Red 0 MapNode.Factory)).
Proof.
  intros g. apply (build_not_twice g Player.Red Player.Red 0 MapNode.Factory). reflexivity.
Defined.

Section Compose.
Context `{JSMath}.

(** X5.  [unassign] cancels [assign]: after an [assign] that returned,
    whatever it did, [unassign] of the same node by the same team gives the
    answer and the game it would have given without the [assign]. *)
Theorem unassign_cancels_assign (g g' : Game.Game) (team : Player.Team) (from to : nat)
    (ok : bool) :
  Game.assign g team from to = Ok (ok, g') ->
  Game.unassign g' team from = Game.unassign g team from.
Proof.
  unfold Game.assign, Game.unassign.
  destruct (bool_decide (team = Player.Neutral)
            || negb (bool_decide (MapNode.team (MapNode.get (Game.nodes g) from) = team)))
    eqn:G; [intros [= _ <-]; rewrite G; reflexivity |].
  destruct (Game.dijkstra g from to) as [target | |]; cbn [bind]; try discriminate.
  intros [= _ <-]. simpl.
  pose proof G as G'. apply orb_false_iff in G'. destruct G' as [N T].
  apply bool_decide_eq_false in N. apply negb_false_iff, bool_decide_eq_true in T.
  pose proof (get_owned_in_range _ _ _ N T) as L.
  rewrite get_insert_eq by exact L. simpl. rewrite G.
  unfold Game.set_nodes. simpl. rewrite list_insert_insert_eq. reflexivity.
Qed.


End Compose.

(** The standing order of node 0 of the example, set and cancelled. *)
Lemma unassign_cancels_assign_witness :
  exists g',
    @Game.assign exampleMath exampleGame Player.Red 0 2 = Ok (true, g')
    /\ Game.unassign g' Player.Red 0 = Game.unassign exampleGame Player.Red 0.
Proof.
  eexists. split; [vm_compute; reflexivity |].
  apply (@unassign_cancels_assign exampleMath exampleGame _ Player.Red 0 2 true).
  reflexivity.
Defined.


(** ** The armies through [MapArmy.tick] *)

Section Marches.
Context `{JSMath}.

Lemma In_insert_army (a b : MapArmy.MapArmy) (l : list MapArmy.MapArmy) :
  In b (MapArmy.insert a l) <-> b = a \/ In b l.
Proof.
  induction l as [| c l IH]; simpl; [intuition |].
  destruct (_ <=? _); simpl; [intuition |]. rewrite IH. intuition.
Qed.

Lemma In_sort (b : MapArmy.MapArmy) (l : list MapArmy.MapArmy) :
  In b (MapArmy.sort l) <-> In b l.
Proof.
  induction l as [| a l IH]; simpl; [tauto |].
  rewrite In_insert_army, IH. intuition.
Qed.

Lemma length_insert_army (a : MapArmy.MapArmy) (l : list MapArmy.MapArmy) :
  length (MapArmy.insert a l) = S (length l).
Proof.
  induction l as [| c l IH]; simpl; [reflexivity |].
  destruct (_ <=? _); simpl; [reflexivity | rewrite IH; reflexivity].
Qed.

Lemma length_sort (l : list MapArmy.MapArmy) : length (MapArmy.sort l) = length l.
Proof.
  induction l as [| a l IH]; simpl; [reflexivity |]. rewrite length_insert_army, IH. reflexivity.
Qed.

(** What one turn of the loop of [MapArmy.tick] does to the armies: it
    changes troops only, or moves the army of the turn, which was not at
    the end of its edge, one step on. *)
Lemma tickArmy_moves (i : nat) (st : MapArmy.store) :
  let army := MapArmy.get (MapArmy.st_armies st) i in
  sameMap (MapArmy.st_nodes st) (MapArmy.st_nodes (MapArmy.tickArmy i st))
  /\ ((exists touched,
         troopsOnly (MapArmy.st_armies st) (MapArmy.st_armies (MapArmy.tickArmy i st)) touched)
        /\ (MapArmy.st_toSend (MapArmy.tickArmy i st) = MapArmy.st_toSend st
            \/ exists tr,
                 MapArmy.st_toSend (MapArmy.tickArmy i st)
                 = MapArmy.st_toSend st ++ [(MapArmy.to army, MapArmy.finalDest army, tr)]
                 /\ MapArmy.finalDest army <> MapArmy.to army
                 /\ atEnd (MapArmy.st_nodes st) army)
      \/ (~ atEnd (MapArmy.st_nodes st) army
          /\ MapArmy.st_armies (MapArmy.tickArmy i st)
             = <[i := MapArmy.set_distance (MapArmy.distance army + 1) army]>
                 (MapArmy.st_armies st)
          /\ MapArmy.st_toSend (MapArmy.tickArmy i st) = MapArmy.st_toSend st)).
Proof.
  intros army. unfold MapArmy.tickArmy. fold army. unfold atEnd.
  destruct (Z.eqb_spec (MapArmy.distance army)
              (MapNode.intDistance (MapNode.get (MapArmy.st_nodes st) (MapArmy.from army))
                 (MapNode.get (MapArmy.st_nodes st) (MapArmy.to army)))) as [E | NE].
  - destruct (bool_decide (MapArmy.team army = _)); simpl.
    + split; [apply sameMap_insert; reflexivity |]. left.
      split; [exists [i]; apply troopsOnly_insert |].
      destruct (Nat.eqb_spec (MapArmy.finalDest army) (MapArmy.to army)) as [Ef | Nf]; simpl;
        [left; reflexivity |].
      right. exists (MapArmy.troops army). auto.
    + destruct (battleNode_shape (MapArmy.to army) i st)
        as (node' & tr & s' & -> & Tn & Ex & Ey & Ea). simpl.
      split; [apply sameMap_insert; assumption |]. left.
      split; [exists [i]; apply troopsOnly_insert | left; reflexivity].
  - destruct (MapArmy.findCollision _ army _ 0) as [[j | j] |].
    + destruct (_ && _).
      * simpl. split; [apply sameMap_refl |]. left. split; [| left; reflexivity].
        exists ([j] ++ [i]).
        eapply troopsOnly_trans; apply troopsOnly_insert.
      * destruct (battleEdge_shape i j st) as (armies' & s' & -> & T'). simpl.
        split; [apply sameMap_refl |]. left. split; [eauto | left; reflexivity].
    + destruct (battleEdge_shape i j st) as (armies' & s' & -> & T'). simpl.
      split; [apply sameMap_refl |]. left. split; [eauto | left; reflexivity].
    + simpl. split; [apply sameMap_refl |]. right. auto.
Qed.

Lemma marching_step (nodes0 : list MapNode.MapNode) (sorted : list MapArmy.MapArmy)
    (i : nat) (st : MapArmy.store) :
  (i < length sorted)%nat ->
  marching nodes0 sorted i st -> marching nodes0 sorted (S i) (MapArmy.tickArmy i st).
Proof.
  intros Li (SM & Len & M & TS).
  destruct (tickArmy_moves i st) as [SM' Alt].
  assert (AE : atEnd (MapArmy.st_nodes st) (MapArmy.get (MapArmy.st_armies st) i)
               <-> atEnd nodes0 (MapArmy.get sorted i)).
  { destruct (M i) as [(Ef & Et & _) D]. specialize (D (le_n i)).
    split; intros A.
    - eapply (atEnd_same nodes0 (MapArmy.st_nodes st)); [exact SM | | | | exact A]; assumption.
    - eapply (atEnd_same (MapArmy.st_nodes st) nodes0); [| | | | exact A]; try congruence.
      destruct SM as [L S]. split; [congruence |]. intros k.
      destruct (S k) as (X & Y & A'). auto. }
  split; [eapply sameMap_trans; eassumption |].
  destruct Alt as [[[touched [L T]] Send] | (NE & -> & ->)].
  - split; [congruence |]. split.
    + intros k. destruct (T k) as [[tr ->] _]. destruct (M k) as [Mk Dk]. split.
      * destruct Mk as (A1 & A2 & A3 & A4 & A5 & A6). repeat (split; [assumption |]).
        exact A6.
      * intros Lk. simpl. apply Dk. lia.
    + destruct Send as [-> | (tr & -> & Nf & A)]; [exact TS |].
      apply Forall_app. split; [exact TS |]. constructor; [| constructor].
      exists i. split; [exact Li |].
      destruct (M i) as [(Ef & Et & _ & Efd & _) _].
      unfold sentOnBy. simpl. split; [exact Et |]. split; [exact Efd |].
      split; [rewrite <- Efd, <- Et; exact Nf | apply AE, A].
  - split; [rewrite length_insert; exact Len |]. split; [| exact TS].
    intros k. destruct (M k) as [Mk Dk].
    destruct (Nat.eq_dec i k) as [<- | N].
    + rewrite army_get_insert_eq by lia. split; [| lia].
      destruct Mk as (A1 & A2 & A3 & A4 & A5 & _). simpl.
      repeat (split; [assumption |]). right. split; [rewrite Dk by lia; reflexivity |].
      intros A. apply NE, AE, A.
    + rewrite army_get_insert_ne by exact N. split; [exact Mk |]. intros Lk. apply Dk. lia.
Qed.

(** The invariant holds when the loop of [MapArmy.tick] is over. *)
Lemma marching_run (nodes : list MapNode.MapNode) (armies : list MapArmy.MapArmy) (s : nat) :
  marching nodes (MapArmy.sort armies) (length (MapArmy.sort armies))
    (fold_left (fun st i => MapArmy.tickArmy i st) (seq 0 (length (MapArmy.sort armies)))
               (MapArmy.mkStore nodes (MapArmy.sort armies) [] s)).
Proof.
  apply (fold_seq_inv (marching nodes (MapArmy.sort armies))
           (fun st i => MapArmy.tickArmy i st)).
  - split; [apply sameMap_refl |]. split; [reflexivity |]. split; [| constructor].
    intros k. simpl. split; [| reflexivity]. unfold marched. tauto.
  - intros i st Li M. apply marching_step; assumption.
Qed.

(** X7.  Through [MapArmy.tick] the map stays the same; every army that is
    kept has troops and is one of the armies given, on the same edge, of
    the same team, with the same destination and id, at the same place or,
    if it was not at the end of its edge, one step further; no army is
    added; and every order to send troops on comes from an army given that
    stood at the end of its edge, at a node that is not its destination. *)
Theorem armyTick_marches (nodes : list MapNode.MapNode) (armies : list MapArmy.MapArmy)
    (s : nat) :
  let '(nodes', newArmies, toSend, _) := MapArmy.tick nodes armies s in
  sameMap nodes nodes'
  /\ Forall (fun b => 0 < MapArmy.troops b
                      /\ exists a, In a armies /\ marched nodes a b) newArmies
  /\ (length newArmies <= length armies)%nat
  /\ Forall (fun order => exists a, In a armies /\ sentOnBy nodes a order) toSend.
Proof.
  unfold MapArmy.tick.
  pose proof (marching_run nodes armies s) as M.
  set (sorted := MapArmy.sort armies) in *.
  set (st := fold_left _ _ _) in *.
  destruct M as (SM & Len & M & TS).
  assert (Isorted : forall k, (k < length sorted)%nat -> In (MapArmy.get sorted k) armies).
  { intros k Lk. apply In_sort. fold sorted. unfold MapArmy.get.
    destruct (lookup_lt_is_Some_2 sorted k Lk) as [a La]. rewrite La. simpl.
    apply list_elem_of_In. eapply list_elem_of_lookup_2, La. }
  split; [exact SM |]. split; [| split].
  - apply Forall_forall. intros b I. apply list_elem_of_In, filter_In in I.
    destruct I as [I P]. split; [apply Z.gtb_lt in P; lia |].
    apply list_elem_of_In, list_elem_of_lookup in I. destruct I as [k Lk].
    exists (MapArmy.get sorted k). split.
    + apply Isorted. rewrite <- Len. eapply lookup_lt_Some, Lk.
    + destruct (M k) as [Mk _]. unfold MapArmy.get in Mk at 2. rewrite Lk in Mk. exact Mk.
  - etransitivity; [apply List.filter_length_le |]. rewrite Len. unfold sorted.
    rewrite length_sort. reflexivity.
  - eapply Forall_impl; [exact TS |]. simpl. intros order (k & Lk & S).
    exists (MapArmy.get sorted k). split; [apply Isorted, Lk | exact S].
Qed.

End Marches.

(** ** The ids of the armies *)

Lemma fresh_filter (p : MapArmy.MapArmy -> bool) (c : Z) (l : list MapArmy.MapArmy) :
  NoDup (map MapArmy.id l) /\ Forall (fun army => MapArmy.id army < c) l ->
  NoDup (map MapArmy.id (List.filter p l))
  /\ Forall (fun army => MapArmy.id army < c) (List.filter p l).
Proof.
  induction l as [| a l IH]; simpl; [tauto |].
  intros [N F]. apply NoDup_cons in N. destruct N as [Na N].
  apply Forall_cons in F. destruct F as [Fa F].
  destruct (IH (conj N F)) as [N' F'].
  destruct (p a); simpl; [| tauto].
  split; [| constructor; assumption].
  apply NoDup_cons. split; [| exact N'].
  intros I. apply Na. apply list_elem_of_In, in_map_iff in I.
  destruct I as (b & E & I). apply filter_In in I. destruct I as [I _].
  apply list_elem_of_In, in_map_iff. exists b. auto.
Qed.

Lemma fresh_insert (a : MapArmy.MapArmy) (c : Z) (l : list MapArmy.MapArmy) :
  NoDup (map MapArmy.id (a :: l)) /\ Forall (fun army => MapArmy.id army < c) (a :: l) ->
  NoDup (map MapArmy.id (MapArmy.insert a l))
  /\ Forall (fun army => MapArmy.id army < c) (MapArmy.insert a l).
Proof.
  induction l as [| b l IH]; simpl; [tauto |].
  destruct (_ <=? _); [tauto |]. simpl. intros [N F].
  apply NoDup_cons in N. destruct N as [Na N]. apply NoDup_cons in N. destruct N as [Nb N].
  apply Forall_cons in F. destruct F as [Fa F]. apply Forall_cons in F. destruct F as [Fb F].
  destruct IH as [N' F'].
  { simpl. split; [| constructor; assumption]. apply NoDup_cons. split; [| exact N].
    intros I. apply Na. right. exact I. }
  split; [| constructor; assumption].
  apply NoDup_cons. split; [| exact N'].
  intros I. apply list_elem_of_In, in_map_iff in I. destruct I as (x & E & I).
  apply (proj1 (In_insert_army _ _ _)) in I. destruct I as [-> | I].
  - apply Na. rewrite E. left.
  - apply Nb. rewrite <- E. apply list_elem_of_In, in_map. exact I.
Qed.

Lemma fresh_sort (c : Z) (l : list MapArmy.MapArmy) :
  NoDup (map MapArmy.id l) /\ Forall (fun army => MapArmy.id army < c) l ->
  NoDup (map MapArmy.id (MapArmy.sort l))
  /\ Forall (fun army => MapArmy.id army < c) (MapArmy.sort l).
Proof.
  induction l as [| a l IH]; simpl; [tauto |].
  intros [N F]. apply fresh_insert.
  apply NoDup_cons in N. destruct N as [Na N]. apply Forall_cons in F. destruct F as [Fa F].
  destruct (IH (conj N F)) as [N' F'].
  split; [| constructor; assumption]. simpl. apply NoDup_cons. split; [| exact N'].
  intros I. apply Na. apply list_elem_of_In, in_map_iff in I. destruct I as (x & E & I).
  apply (proj1 (In_sort _ _)) in I. apply list_elem_of_In, in_map_iff. exists x. split; assumption.
Qed.

Lemma map_id_get (l l' : list MapArmy.MapArmy) :
  length l' = length l ->
  (forall k, MapArmy.id (MapArmy.get l' k) = MapArmy.id (MapArmy.get l k)) ->
  map MapArmy.id l' = map MapArmy.id l.
Proof.
  revert l'. induction l as [| a l IH]; intros [| a' l'] L E; simpl in *;
    try discriminate; [reflexivity |].
  f_equal; [exact (E 0%nat) |]. apply IH; [lia |]. intros k. exact (E (S k)).
Qed.

Lemma Forall_id_map (c : Z) (l : list MapArmy.MapArmy) :
  Forall (fun army => MapArmy.id army < c) l <-> Forall (fun i => i < c) (map MapArmy.id l).
Proof.
  induction l as [| a l IH]; simpl; [split; constructor |].
  rewrite !Forall_cons, IH. tauto.
Qed.

Section Ids.
Context `{JSMath}.

Lemma armyTick_ids (nodes : list MapNode.MapNode) (armies : list MapArmy.MapArmy)
    (s : nat) (c : Z) :
  NoDup (map MapArmy.id armies) /\ Forall (fun army => MapArmy.id army < c) armies ->
  NoDup (map MapArmy.id (MapArmy.tick nodes armies s).1.1.2)
  /\ Forall (fun army => MapArmy.id army < c) (MapArmy.tick nodes armies s).1.1.2.
Proof.
  intros F. unfold MapArmy.tick. simpl. apply fresh_filter.
  pose proof (marching_run nodes armies s) as M.
  set (sorted := MapArmy.sort armies) in *.
  set (st := fold_left _ _ _) in *.
  destruct M as (_ & Len & M & _).
  rewrite Forall_id_map.
  rewrite (map_id_get sorted (MapArmy.st_armies st) Len) by (intros k; apply (M k)).
  rewrite <- Forall_id_map. apply fresh_sort, F.
Qed.

Lemma keepsIds_refl (g : Game.Game) : keepsIds g g.
Proof. unfold keepsIds. split; [reflexivity |]. split; [lia | tauto]. Qed.

Lemma keepsIds_trans (g1 g2 g3 : Game.Game) : keepsIds g1 g2 -> keepsIds g2 g3 -> keepsIds g1 g3.
Proof. unfold keepsIds. intros (A1 & B1 & C1) (A2 & B2 & C2). split; [congruence |]. split; [lia | tauto]. Qed.

Lemma keepsIds_set_nodes (v : list MapNode.MapNode) (g : Game.Game) :
  keepsIds g (Game.set_nodes v g).
Proof. unfold keepsIds, idsFresh. simpl. split; [reflexivity |]. split; [lia | tauto]. Qed.

Lemma sendArmy_ids (g g' : Game.Game) (team : Player.Team) (from to : nat)
    (troops : Z) (ok : bool) :
  Game.sendArmy g team from to troops = Ok (ok, g') -> keepsIds g g'.
Proof.
  unfold Game.sendArmy.
  destruct (_ || _); [intros [= _ <-]; apply keepsIds_refl |].
  destruct (Game.attacked g team from to); [intros [= _ <-]; apply keepsIds_refl |].
  destruct (_ =? 0); [intros [= _ <-]; apply keepsIds_refl |].
  destruct (Game.dijkstra g from to) as [[h |] | |]; cbn [bind]; try discriminate;
    [| intros [= _ <-]; apply keepsIds_refl].
  intros [= _ <-]. unfold keepsIds, idsFresh. simpl.
  split; [reflexivity |]. split; [lia |]. intros [N F].
  rewrite map_app. simpl. split.
  - apply NoDup_app. split; [exact N |]. split; [| apply NoDup_singleton].
    intros i I J. apply list_elem_of_singleton in J. subst i.
    apply list_elem_of_In, in_map_iff in I. destruct I as (a & E & I).
    rewrite Forall_forall in F. specialize (F a (proj2 (list_elem_of_In _ _) I)).
    simpl in F. lia.
  - apply Forall_app. split; [| constructor; [simpl; lia | constructor]].
    eapply Forall_impl; [exact F |]. simpl. intros a. lia.
Qed.

Lemma tickNode_ids (i : nat) (g g' : Game.Game) : Game.tickNode i g = Ok g' -> keepsIds g g'.
Proof.
  unfold Game.tickNode.
  set (g1 := Game.set_nodes _ g).
  assert (K1 : keepsIds g g1) by apply keepsIds_set_nodes.
  destruct (MapNode.assign (MapNode.get (Game.nodes g1) i)) as [target |];
    [| intros [= <-]; exact K1].
  destruct (Z.rem (Game.tickNumber g1) 8 =? 0); [| intros [= <-]; exact K1].
  destruct (Game.sendArmy g1 _ i target _) as [[ok g2] | |] eqn:E; cbn [bind];
    try discriminate.
  pose proof (sendArmy_ids _ _ _ _ _ _ _ E) as K2.
  destruct ok; intros [= <-].
  - exact (keepsIds_trans _ _ _ K1 K2).
  - exact (keepsIds_trans _ _ _ K1 (keepsIds_trans _ _ _ K2 (keepsIds_set_nodes _ _))).
Qed.

Lemma sendNew_ids (order : nat * nat * Z) (g g' : Game.Game) :
  Game.sendNew order g = Ok g' -> keepsIds g g'.
Proof.
  destruct order as [[to from] troops]. unfold Game.sendNew.
  destruct (Game.sendArmy g _ to from troops) as [[ok g1] | |] eqn:E; cbn [bind];
    try discriminate.
  intros [= <-]. apply (sendArmy_ids _ _ _ _ _ _ _ E).
Qed.

Lemma tick_ids (g g' : Game.Game) (s s' : nat) :
  Game.tick g s = Ok (g', s') ->
  Game.tickNumber g' = Game.tickNumber g + 1
  /\ Game.armyCounter g <= Game.armyCounter g'
  /\ (idsFresh g -> idsFresh g').
Proof.
  unfold Game.tick.
  pose proof (armyTick_ids (Game.nodes g) (Game.armies g) s (Game.armyCounter g)) as A.
  destruct (MapArmy.tick (Game.nodes g) (Game.armies g) s)
    as [[[nodes1 newArmies] toSend] s1]. simpl in A.
  set (g1 := Game.mk nodes1 (Game.tickNumber g + 1) newArmies (Game.armyCounter g)).
  destruct (Game.forEach Game.tickNode _ g1) as [g2 | |] eqn:E2; cbn [bind]; try discriminate.
  destruct (Game.forEach Game.sendNew toSend g2) as [g3 | |] eqn:E3; cbn [bind];
    try discriminate.
  intros [= <- <-].
  pose proof (forEach_frame keepsIds Game.tickNode _ keepsIds_refl keepsIds_trans
                tickNode_ids g1 g2 E2) as K2.
  pose proof (forEach_frame keepsIds Game.sendNew _ keepsIds_refl keepsIds_trans
                sendNew_ids g2 g3 E3) as K3.
  destruct (keepsIds_trans _ _ _ K2 K3) as (T & C & F).
  split; [exact T |]. split; [exact C |]. intros I. apply F. exact (A I).
Qed.

Lemma sendArmy_returns (g : Game.Game) (team : Player.Team) (from to : nat) (troops : Z) :
  wfNodes (Game.nodes g) -> exists ok g', Game.sendArmy g team from to troops = Ok (ok, g').
Proof.
  intros W. unfold Game.sendArmy.
  destruct (negb (bool_decide (MapNode.team (MapNode.get (Game.nodes g) from) = team))
            || bool_decide (team = Player.Neutral)) eqn:G; [eauto |].
  destruct (Game.attacked g team from to); [eauto |].
  destruct (Z.min troops _ =? 0); [eauto |].
  apply orb_false_iff in G. destruct G as [T N].
  apply bool_decide_eq_false in N. apply negb_false_iff, bool_decide_eq_true in T.
  destruct (dijkstra_total g from to W (get_owned_in_range _ _ _ N T)) as [[h |] ->];
    cbn [bind]; eauto.
Qed.

Lemma assign_returns (g : Game.Game) (team : Player.Team) (from to : nat) :
  wfNodes (Game.nodes g) -> exists ok g', Game.assign g team from to = Ok (ok, g').
Proof.
  intros W. unfold Game.assign.
  destruct (bool_decide (team = Player.Neutral)
            || negb (bool_decide (MapNode.team (MapNode.get (Game.nodes g) from) = team)))
    eqn:G; [eauto |].
  apply orb_false_iff in G. destruct G as [N T].
  apply bool_decide_eq_false in N. apply negb_false_iff, bool_decide_eq_true in T.
  destruct (dijkstra_total g from to W (get_owned_in_range _ _ _ N T)) as [r ->];
    cbn [bind]; eauto.
Qed.

(** X8.  The ids of the armies stay fresh: in a game whose armies have ids
    that are all different and all below the counter, they still are after
    each of the commands and after a tick; a tick adds one to the tick
    number, and neither a command nor a tick takes the counter back. *)
Theorem ids_stay_fresh (g : Game.Game) (team : Player.Team) (from to node : nat)
    (type : MapNode.NodeType) (troops : Z) (s : nat) :
  ready g -> idsFresh g ->
  idsFresh (snd (Game.build g team node type))
  /\ (exists ok g', Game.sendArmy g team from to troops = Ok (ok, g')
                    /\ idsFresh g' /\ Game.armyCounter g <= Game.armyCounter g')
  /\ (exists ok g', Game.assign g team from to = Ok (ok, g') /\ idsFresh g')
  /\ idsFresh (snd (Game.unassign g team from))
  /\ idsFresh (snd (Game.forfeit g team))
  /\ (exists g' s', Game.tick g s = Ok (g', s')
                    /\ idsFresh g'
                    /\ Game.tickNumber g' = Game.tickNumber g + 1
                    /\ Game.armyCounter g <= Game.armyCounter g').
Proof.
  intros R I. pose proof R as (W & _).
  split; [| split; [| split; [| split; [| split]]]].
  - unfold Game.build. destruct (_ || _); [exact I |].
    destruct (_ && _); [| exact I]. apply keepsIds_set_nodes, I.
  - destruct (sendArmy_returns g team from to troops W) as (ok & g' & E).
    exists ok, g'. split; [exact E |].
    destruct (sendArmy_ids _ _ _ _ _ _ _ E) as (_ & C & F). auto.
  - destruct (assign_returns g team from to W) as (ok & g' & E).
    exists ok, g'. split; [exact E |]. revert E. unfold Game.assign.
    destruct (_ || _); [intros [= _ <-]; exact I |].
    destruct (Game.dijkstra g from to) as [r | |]; cbn [bind]; try discriminate.
    intros [= _ <-]. apply keepsIds_set_nodes, I.
  - unfold Game.unassign. destruct (_ || _); [exact I |]. apply keepsIds_set_nodes, I.
  - unfold Game.forfeit. destruct (bool_decide _); [exact I |].
    unfold idsFresh. simpl. apply fresh_filter, I.
  - destruct (tick_keeps_ready g s R) as (g' & s' & E & _).
    exists g', s'. split; [exact E |].
    destruct (tick_ids g g' s s' E) as (T & C & F). auto.
Qed.

End Ids.

(** The example with two armies on the march is ready for a tick. *)
Lemma marchingGame_ready : @ready exampleMath marchingGame.
Proof.
  split; [apply wfNodesb_sound; reflexivity |]. split; [| split].
  - intros u v. destruct u as [| [| [| [| u]]]]; simpl;
      intros I; repeat (destruct I as [<- | I]; [vm_compute; discriminate |]); destruct I.
  - repeat constructor; simpl; lia.
  - repeat constructor; simpl; lia.
Qed.

(** The game with two armies on the march, after a tick. *)
Lemma ids_stay_fresh_witness :
  exists g' s',
    @Game.tick exampleMath marchingGame 0 = Ok (g', s')
    /\ idsFresh g'
    /\ Game.tickNumber g' = 8.
Proof.
  destruct (@ids_stay_fresh exampleMath marchingGame Player.Red 0 2 0 MapNode.Factory 10 0
              marchingGame_ready)
    as (_ & _ & _ & _ & _ & g' & s' & E & F & T & _).
  - split; simpl.
    + repeat constructor; simpl; rewrite ?list_elem_of_In; simpl; intuition discriminate.
    + repeat constructor; simpl; lia.
  - exists g', s'. auto.
Defined.

(** ** Combat makes no troops *)

Lemma nodeTroops_insert (l : list MapNode.MapNode) (k : nat) (v : MapNode.MapNode) :
  (k < length l)%nat ->
  nodeTroops (<[k := v]> l)
  = nodeTroops l - MapNode.troops (MapNode.get l k) + MapNode.troops v.
Proof.
  revert k. induction l as [| a l IH]; intros k Lk; [simpl in Lk; lia |].
  destruct k as [| k]; simpl.
  - unfold MapNode.get. simpl. lia.
  - rewrite IH by (simpl in Lk; lia). unfold MapNode.get. simpl. lia.
Qed.

Lemma fieldTroops_insert (l : list MapArmy.MapArmy) (k : nat) (v : MapArmy.MapArmy) :
  (k < length l)%nat ->
  fieldTroops (<[k := v]> l)
  = fieldTroops l - Z.max (MapArmy.troops (MapArmy.get l k)) 0 + Z.max (MapArmy.troops v) 0.
Proof.
  revert k. induction l as [| a l IH]; intros k Lk; [simpl in Lk; lia |].
  destruct k as [| k]; simpl.
  - unfold MapArmy.get. simpl. lia.
  - rewrite IH by (simpl in Lk; lia). unfold MapArmy.get. simpl. lia.
Qed.

Lemma fieldTroops_insert_le (l : list MapArmy.MapArmy) (k : nat) (v : MapArmy.MapArmy) :
  Z.max (MapArmy.troops v) 0 <= Z.max (MapArmy.troops (MapArmy.get l k)) 0 ->
  fieldTroops (<[k := v]> l) <= fieldTroops l.
Proof.
  intros L. destruct (Nat.lt_ge_cases k (length l)) as [Lk | Gk].
  - rewrite fieldTroops_insert by exact Lk. lia.
  - rewrite list_insert_ge by exact Gk. lia.
Qed.

Lemma fieldTroops_filter (l : list MapArmy.MapArmy) :
  armyTroops (List.filter (fun army => MapArmy.troops army >? 0) l) = fieldTroops l.
Proof.
  induction l as [| a l IH]; simpl; [reflexivity |].
  destruct (Z.gtb_spec (MapArmy.troops a) 0); simpl; lia.
Qed.

Lemma fieldTroops_sort (l : list MapArmy.MapArmy) :
  fieldTroops (MapArmy.sort l) = fieldTroops l.
Proof.
  assert (I : forall a l', fieldTroops (MapArmy.insert a l')
                           = Z.max (MapArmy.troops a) 0 + fieldTroops l').
  { intros a l'. induction l' as [| b l' IH]; simpl; [reflexivity |].
    destruct (_ <=? _); simpl; [reflexivity | rewrite IH; lia]. }
  induction l as [| a l IH]; simpl; [reflexivity |]. rewrite I, IH. reflexivity.
Qed.

(** The modifiers of [battleNode] and [battleEdge] are not negative. *)
Ltac modifier_sign :=
  repeat first [apply double_nonneg | apply Qmult_le_0_compat]; unfold Qle; simpl; lia.

Section NoGain.
Context `{JSMath}.

Lemma battle_le (troopsA troopsB : Z) (multA multB : Q) (s : nat) :
  (0 <= multA)%Q -> (0 <= multB)%Q ->
  (MapArmy.battle troopsA troopsB multA multB s).1.1 <= Z.max troopsA 0
  /\ (MapArmy.battle troopsA troopsB multA multB s).1.2 <= Z.max troopsB 0.
Proof.
  intros MA MB. unfold MapArmy.battle.
  destruct (Z.leb_spec troopsA 0) as [LA | PA]; simpl; [lia |].
  destruct (Z.leb_spec troopsB 0) as [LB | PB]; simpl; [lia |].
  pose proof (battleLosses_pos troopsA troopsB s PA PB) as BL.
  destruct (MapArmy.battleLosses troopsA troopsB s) as [[lossesA lossesB] s1].
  destruct BL as (LA & LB & S1). simpl.
  pose proof (ceil_nonneg lossesA multA ltac:(lra) ltac:(lra)).
  pose proof (ceil_nonneg lossesB multB ltac:(lra) ltac:(lra)).
  lia.
Qed.

(** A battle at a node that holds no negative troops: the node and the army
    together have no more troops than before. *)
Lemma battleNode_sum (n i : nat) (st : MapArmy.store) :
  0 <= MapNode.troops (MapNode.get (MapArmy.st_nodes st) n) ->
  exists node' tr s',
    MapArmy.battleNode n i st
    = MapArmy.mkStore (<[n := node']> (MapArmy.st_nodes st))
        (<[i := MapArmy.set_troops tr (MapArmy.get (MapArmy.st_armies st) i)]>
           (MapArmy.st_armies st))
        (MapArmy.st_toSend st) s'
    /\ MapNode.troops node' + Z.max tr 0
       <= MapNode.troops (MapNode.get (MapArmy.st_nodes st) n)
          + Z.max (MapArmy.troops (MapArmy.get (MapArmy.st_armies st) i)) 0
    /\ Z.max tr 0 <= Z.max (MapArmy.troops (MapArmy.get (MapArmy.st_armies st) i)) 0.
Proof.
  intros P. unfold MapArmy.battleNode.
  assert (B : forall m1 m2 : Q, (0 <= m1)%Q -> (0 <= m2)%Q ->
            forall r, MapArmy.battle (MapNode.troops (MapNode.get (MapArmy.st_nodes st) n))
                        (MapArmy.troops (MapArmy.get (MapArmy.st_armies st) i)) m1 m2
                        (MapArmy.st_seed st) = r ->
            r.1.1 <= Z.max (MapNode.troops (MapNode.get (MapArmy.st_nodes st) n)) 0
            /\ r.1.2 <= Z.max (MapArmy.troops (MapArmy.get (MapArmy.st_armies st) i)) 0).
  { intros m1 m2 M1 M2 r <-. apply battle_le; assumption. }
  destruct (bool_decide (MapNode.type (MapNode.get (MapArmy.st_nodes st) n) = MapNode.Fort)),
    (MapArmy.hasArtillery (MapArmy.st_nodes st) (MapArmy.get (MapArmy.st_armies st) i)),
    (bool_decide (MapNode.type (MapNode.get (MapArmy.st_nodes st) n) = MapNode.Artillery)).
  all: destruct (MapArmy.battle _ _ _ _ _) as [[newNodeTroops newArmyTroops] s'] eqn:EB.
  all: apply B in EB; [| modifier_sign | modifier_sign].
  all: simpl in EB; destruct EB as [B1 B2].
  all: destruct (Z.leb_spec newNodeTroops 0) as [L0 | G0];
    [destruct (Z.gtb_spec newArmyTroops 0) as [GA | LA];
     [| destruct (Z.leb_spec newArmyTroops 0) as [_ | C]; [| lia]] |].
  all: eexists _, _, _; (split; [reflexivity |]); simpl; lia.
Qed.

(** A battle on an edge leaves no more troops in the field than before. *)
Lemma battleEdge_sum (i j : nat) (st : MapArmy.store) :
  MapArmy.st_nodes (MapArmy.battleEdge i j st) = MapArmy.st_nodes st
  /\ fieldTroops (MapArmy.st_armies (MapArmy.battleEdge i j st))
     <= fieldTroops (MapArmy.st_armies st).
Proof.
  unfold MapArmy.battleEdge.
  assert (B : forall m1 m2 : Q, (0 <= m1)%Q -> (0 <= m2)%Q ->
            forall r, MapArmy.battle (MapArmy.troops (MapArmy.get (MapArmy.st_armies st) i))
                        (MapArmy.troops (MapArmy.get (MapArmy.st_armies st) j)) m1 m2
                        (MapArmy.st_seed st) = r ->
            r.1.1 <= Z.max (MapArmy.troops (MapArmy.get (MapArmy.st_armies st) i)) 0
            /\ r.1.2 <= Z.max (MapArmy.troops (MapArmy.get (MapArmy.st_armies st) j)) 0).
  { intros m1 m2 M1 M2 r <-. apply battle_le; assumption. }
  assert (B' : forall b b' : bool, (0 <= (if b then 2 else 1))%Q /\ (0 <= (if b' then 2 else 1))%Q).
  { intros [] []; split; unfold Qle; simpl; lia. }
  destruct (B' (MapArmy.hasArtillery (MapArmy.st_nodes st) (MapArmy.get (MapArmy.st_armies st) j))
               (MapArmy.hasArtillery (MapArmy.st_nodes st) (MapArmy.get (MapArmy.st_armies st) i)))
    as [M1 M2].
  destruct (MapArmy.battle _ _ _ _ _) as [[c1 c2] s'] eqn:EB.
  apply (B _ _ M1 M2) in EB. simpl in EB. destruct EB as [B1 B2]. simpl.
  split; [reflexivity |].
  destruct (Nat.eq_dec i j) as [<- | N].
  - rewrite list_insert_insert_eq. apply fieldTroops_insert_le. simpl. lia.
  - etransitivity; [apply fieldTroops_insert_le | apply fieldTroops_insert_le].
    + rewrite army_get_insert_ne by exact N. simpl. lia.
    + simpl. lia.
Qed.

(** One turn of the loop of [MapArmy.tick] makes no troops. *)
Lemma tickArmy_sum (nodes0 : list MapNode.MapNode) (len i : nat) (st : MapArmy.store) :
  (i < len)%nat -> walking nodes0 len i st ->
  nodeTroops (MapArmy.st_nodes (MapArmy.tickArmy i st))
  + fieldTroops (MapArmy.st_armies (MapArmy.tickArmy i st))
  <= nodeTroops (MapArmy.st_nodes st) + fieldTroops (MapArmy.st_armies st).
Proof.
  intros Li W. pose proof W as [W1 W2 W3 W4 W5 W6 W7].
  unfold MapArmy.tickArmy.
  set (nodes := MapArmy.st_nodes st) in *.
  set (armies := MapArmy.st_armies st) in *.
  set (army := MapArmy.get armies i).
  assert (NI : forall n v d, MapNode.troops v <= MapNode.troops (MapNode.get nodes n) + d ->
                 0 <= d -> nodeTroops (<[n := v]> nodes) <= nodeTroops nodes + d).
  { intros n v d L D. destruct (Nat.lt_ge_cases n (length nodes)) as [Ln | Gn].
    - rewrite nodeTroops_insert by exact Ln. lia.
    - rewrite list_insert_ge by exact Gn. lia. }
  destruct (Z.eqb_spec (MapArmy.distance army)
              (MapNode.intDistance (MapNode.get nodes (MapArmy.from army))
                                   (MapNode.get nodes (MapArmy.to army)))) as [E | NE].
  - assert (Tr : 0 <= MapArmy.troops army) by (apply (W5 i); [lia | exact E]).
    destruct (bool_decide (MapArmy.team army = _)); simpl.
    + rewrite fieldTroops_insert by (fold armies in W1; lia). fold army. simpl.
      pose proof (NI (MapArmy.to army)
                    (MapNode.set_troops (MapNode.troops (MapNode.get nodes (MapArmy.to army))
                                         + MapArmy.troops army)
                                        (MapNode.get nodes (MapArmy.to army)))
                    (MapArmy.troops army) ltac:(simpl; lia) Tr).
      lia.
    + destruct (battleNode_sum (MapArmy.to army) i st (W3 _))
        as (node' & tr & s' & -> & S1 & S2). simpl. fold nodes armies army in S1, S2 |- *.
      rewrite fieldTroops_insert by (fold armies in W1; lia). fold army. simpl.
      pose proof (NI (MapArmy.to army) node'
                    (Z.max (MapArmy.troops army) 0 - Z.max tr 0) ltac:(lia) ltac:(lia)).
      lia.
  - destruct (MapArmy.findCollision nodes army armies 0) as [[j | j] |] eqn:C.
    + destruct (findCollision_spec _ _ _ _ _ C) as (_ & other & Lo & T).
      rewrite Nat.sub_0_r in Lo.
      assert (Go : MapArmy.get armies j = other) by (unfold MapArmy.get; rewrite Lo; reflexivity).
      pose proof (lookup_lt_Some _ _ _ Lo) as Lj.
      assert (Nij : j <> i).
      { intros ->. fold army in Go. subst other.
        apply andb_true_iff in T. destruct T as [_ T]. apply Z.eqb_eq in T. lia. }
      destruct (_ && _).
      * simpl. rewrite fieldTroops_insert by (rewrite length_insert; fold armies in W1; lia).
        rewrite army_get_insert_ne by exact Nij. fold army.
        rewrite fieldTroops_insert by exact Lj. simpl. lia.
      * pose proof (battleEdge_sum i j st) as [-> S]. fold nodes armies in S |- *. lia.
    + pose proof (battleEdge_sum i j st) as [-> S]. fold nodes armies in S |- *. lia.
    + simpl. rewrite fieldTroops_insert by (fold armies in W1; lia). fold army. simpl. lia.
Qed.

(** The loop of [MapArmy.tick] and the filter after it make no troops. *)
Lemma armyTick_sum (nodes : list MapNode.MapNode) (armies : list MapArmy.MapArmy)
    (s : nat) :
  nodesOk nodes -> armiesReady nodes armies ->
  nodeTroops (MapArmy.tick nodes armies s).1.1.1
  + armyTroops (MapArmy.tick nodes armies s).1.1.2
  <= nodeTroops nodes + fieldTroops armies.
Proof.
  intros N A. unfold MapArmy.tick. cbn [fst snd].
  set (sorted := MapArmy.sort armies).
  set (st0 := MapArmy.mkStore nodes sorted [] s).
  set (bound := nodeTroops nodes + fieldTroops armies).
  assert (W0 : walking nodes (length sorted) 0 st0).
  { apply Forall_sort in A. fold sorted in A.
    rewrite army_Forall_get in A by (simpl; split; [lia | intros _; lia]).
    constructor; simpl.
    - reflexivity.
    - apply sameMap_refl.
    - apply nodesOk_get. exact N.
    - intros k. apply (A k).
    - intros j _. apply (A j).
    - intros j k _ Ljk Lk. apply descending_get; [apply descending_sort | exact Ljk | exact Lk].
    - constructor. }
  assert (B0 : nodeTroops (MapArmy.st_nodes st0) + fieldTroops (MapArmy.st_armies st0) <= bound).
  { simpl. unfold bound, sorted. rewrite fieldTroops_sort. lia. }
  pose proof (fold_seq_inv
                (fun i st => walking nodes (length sorted) i st
                             /\ nodeTroops (MapArmy.st_nodes st)
                                + fieldTroops (MapArmy.st_armies st) <= bound)
                (fun st i => MapArmy.tickArmy i st) (length sorted) st0
                (conj W0 B0)
                (fun i st Li J =>
                   conj (tickArmy_walking nodes (length sorted) i st Li (proj1 J))
                        (Z.le_trans _ _ _ (tickArmy_sum nodes (length sorted) i st Li (proj1 J))
                                    (proj2 J)))) as [_ B].
  rewrite fieldTroops_filter. exact B.
Qed.

(** X9.  [MapArmy.tick] makes no troops: when no node holds a negative
    number of troops, no army has a negative progress and no army at the end
    of its edge has a negative number of troops, the nodes and the armies
    kept hold together no more troops than the nodes and the armies with
    troops held before. *)
Theorem armyTick_never_gains (nodes : list MapNode.MapNode)
    (armies : list MapArmy.MapArmy) (s : nat) :
  nodesOk nodes -> armiesReady nodes armies ->
  let '(nodes', newArmies, _, _) := MapArmy.tick nodes armies s in
  nodeTroops nodes' + armyTroops newArmies <= nodeTroops nodes + fieldTroops armies.
Proof.
  intros N A. pose proof (armyTick_sum nodes armies s N A) as B.
  destruct (MapArmy.tick nodes armies s) as [[[nodes' newArmies] toSend] s'].
  exact B.
Qed.

End NoGain.

(** The two armies of the example: the red one storms the blue node. *)
Lemma armyTick_never_gains_witness :
  let '(nodes', newArmies, _, _) :=
    @MapArmy.tick exampleMath (Game.nodes marchingGame) (Game.armies marchingGame) 0 in
  nodeTroops nodes' + armyTroops newArmies <= 145.
Proof.
  apply (@armyTick_never_gains exampleMath (Game.nodes marchingGame)
           (Game.armies marchingGame) 0).
  - repeat constructor; simpl; lia.
  - repeat constructor; simpl; lia.
Defined.

(** ** MapArmy.battleEdge *)

Section EdgeBattle.
Context `{JSMath}.

Lemma battle_lt (troopsA troopsB : Z) (multA multB : Q) (s : nat) :
  (0 < multA)%Q -> (0 < multB)%Q -> 0 < troopsA -> 0 < troopsB ->
  (MapArmy.battle troopsA troopsB multA multB s).1.1 < troopsA
  /\ (MapArmy.battle troopsA troopsB multA multB s).1.2 < troopsB.
Proof.
  intros MA MB PA PB. unfold MapArmy.battle.
  destruct (Z.leb_spec troopsA 0) as [LA | _]; [lia |].
  destruct (Z.leb_spec troopsB 0) as [LB | _]; [lia |]. simpl.
  pose proof (battleLosses_pos troopsA troopsB s PA PB) as BL.
  destruct (MapArmy.battleLosses troopsA troopsB s) as [[lossesA lossesB] s1].
  destruct BL as (LA & LB & _). simpl.
  pose proof (ceil_pos lossesA multA ltac:(lra) ltac:(lra)).
  pose proof (ceil_pos lossesB multB ltac:(lra) ltac:(lra)).
  lia.
Qed.

Lemma battle_spent (troopsA troopsB : Z) (multA multB : Q) (s : nat) :
  troopsA <= 0 \/ troopsB <= 0 ->
  MapArmy.battle troopsA troopsB multA multB s = ((Z.max troopsA 0, Z.max troopsB 0), s).
Proof.
  intros D. unfold MapArmy.battle.
  destruct (Z.leb_spec troopsA 0), (Z.leb_spec troopsB 0); simpl; try reflexivity. lia.
Qed.

(** X10.  Two different armies that meet on an edge: only their troops
    change.  Neither gains; when both have troops both lose at least one;
    when one has none, or less, no draw is made and both are floored at
    zero.  The nodes, the other armies and the orders to send are not
    touched. *)
Theorem battleEdge_outcome (i j : nat) (st : MapArmy.store) :
  i <> j ->
  (i < length (MapArmy.st_armies st))%nat ->
  (j < length (MapArmy.st_armies st))%nat ->
  let st' := MapArmy.battleEdge i j st in
  let army1 := MapArmy.get (MapArmy.st_armies st) i in
  let army2 := MapArmy.get (MapArmy.st_armies st) j in
  let army1' := MapArmy.get (MapArmy.st_armies st') i in
  let army2' := MapArmy.get (MapArmy.st_armies st') j in
  MapArmy.st_nodes st' = MapArmy.st_nodes st
  /\ MapArmy.st_toSend st' = MapArmy.st_toSend st
  /\ length (MapArmy.st_armies st') = length (MapArmy.st_armies st)
  /\ army1' = MapArmy.set_troops (MapArmy.troops army1') army1
  /\ army2' = MapArmy.set_troops (MapArmy.troops army2') army2
  /\ MapArmy.troops army1' <= Z.max (MapArmy.troops army1) 0
  /\ MapArmy.troops army2' <= Z.max (MapArmy.troops army2) 0
  /\ (0 < MapArmy.troops army1 -> 0 < MapArmy.troops army2 ->
      MapArmy.troops army1' < MapArmy.troops army1
      /\ MapArmy.troops army2' < MapArmy.troops army2)
  /\ (MapArmy.troops army1 <= 0 \/ MapArmy.troops army2 <= 0 ->
      MapArmy.troops army1' = Z.max (MapArmy.troops army1) 0
      /\ MapArmy.troops army2' = Z.max (MapArmy.troops army2) 0
      /\ MapArmy.st_seed st' = MapArmy.st_seed st)
  /\ (forall k, k <> i -> k <> j ->
        MapArmy.get (MapArmy.st_armies st') k = MapArmy.get (MapArmy.st_armies st) k).
Proof.
  intros N Li Lj. cbv zeta. unfold MapArmy.battleEdge.
  assert (M : forall b : bool, (0 < (if b then 2 else 1))%Q /\ (0 <= (if b then 2 else 1))%Q).
  { intros []; split; unfold Qlt, Qle; simpl; lia. }
  destruct (M (MapArmy.hasArtillery (MapArmy.st_nodes st) (MapArmy.get (MapArmy.st_armies st) j)))
    as [M1 M1'].
  destruct (M (MapArmy.hasArtillery (MapArmy.st_nodes st) (MapArmy.get (MapArmy.st_armies st) i)))
    as [M2 M2'].
  pose proof (battle_le (MapArmy.troops (MapArmy.get (MapArmy.st_armies st) i))
                (MapArmy.troops (MapArmy.get (MapArmy.st_armies st) j)) _ _
                (MapArmy.st_seed st) M1' M2') as [B1 B2].
  pose proof (battle_lt (MapArmy.troops (MapArmy.get (MapArmy.st_armies st) i))
                (MapArmy.troops (MapArmy.get (MapArmy.st_armies st) j)) _ _
                (MapArmy.st_seed st) M1 M2) as B3.
  pose proof (battle_spent (MapArmy.troops (MapArmy.get (MapArmy.st_armies st) i))
                (MapArmy.troops (MapArmy.get (MapArmy.st_armies st) j))
                (if MapArmy.hasArtillery (MapArmy.st_nodes st)
                      (MapArmy.get (MapArmy.st_armies st) j) then 2 else 1)
                (if MapArmy.hasArtillery (MapArmy.st_nodes st)
                      (MapArmy.get (MapArmy.st_armies st) i) then 2 else 1)
                (MapArmy.st_seed st)) as B4.
  destruct (MapArmy.battle _ _ _ _ _) as [[c1 c2] s']. simpl in B1, B2, B3, B4 |- *.
  rewrite (army_get_insert_ne _ i j) by exact N.
  rewrite (army_get_insert_ne _ j i) by congruence.
  rewrite (army_get_insert_eq _ j) by (rewrite length_insert; exact Lj).
  rewrite (army_get_insert_eq _ i) by exact Li. simpl.
  split; [reflexivity |]. split; [reflexivity |].
  split; [rewrite !length_insert; reflexivity |].
  split; [reflexivity |]. split; [reflexivity |].
  split; [exact B1 |]. split; [exact B2 |]. split; [exact B3 |].
  split; [intros D; specialize (B4 D); injection B4 as -> -> ->; auto |].
  intros k Ni Nj. rewrite !army_get_insert_ne by congruence. reflexivity.
Qed.

End EdgeBattle.

(** The two armies of the marching example, had they met. *)
Lemma battleEdge_outcome_witness :
  let st := MapArmy.mkStore (Game.nodes marchingGame) (Game.armies marchingGame) [] 0 in
  MapArmy.troops (MapArmy.get (MapArmy.st_armies (@MapArmy.battleEdge exampleMath 0 1 st)) 0) < 20
  /\ MapArmy.troops (MapArmy.get (MapArmy.st_armies (@MapArmy.battleEdge exampleMath 0 1 st)) 1) < 50.
Proof.
  intros st.
  destruct (@battleEdge_outcome exampleMath 0 1 st ltac:(discriminate) ltac:(simpl; lia)
              ltac:(simpl; lia)) as (_ & _ & _ & _ & _ & _ & _ & L & _).
  apply L; simpl; lia.
Defined.

(** ** MapNode.toJSON *)

Lemma push_all {A B : Type} (f : A -> B) (l : list A) (acc : list B) :
  fold_left (fun adj otherNode => adj ++ [f otherNode]) l acc = acc ++ map f l.
Proof.
  revert acc. induction l as [| a l IH]; intros acc; simpl.
  - rewrite app_nil_r. reflexivity.
  - rewrite IH, <- app_assoc. reflexivity.
Qed.

Lemma map_of_nat_inj (l l' : list nat) : map Z.of_nat l = map Z.of_nat l' -> l = l'.
Proof.
  revert l'. induction l as [| a l IH]; intros [| a' l']; simpl; try discriminate;
    [reflexivity |].
  intros [= E1 E2]. apply Nat2Z.inj in E1. f_equal; [exact E1 | apply IH, E2].
Qed.

(** X11.  The JSON of a node says everything about the node but whether it
    was attacked: it gives the id, the ids of the neighbours in their order,
    and the id of the target of the standing order, [-1] standing for none
    and for nothing else; two nodes have the same JSON exactly when they
    have the same id and differ at most in that flag. *)
Theorem nodeJSON_faithful (id id' : nat) (a b : MapNode.MapNode) :
  MapNode.json_id (MapNode.toJSON id a) = Z.of_nat id
  /\ MapNode.json_adj (MapNode.toJSON id a) = map Z.of_nat (MapNode.adj a)
  /\ (MapNode.json_assign (MapNode.toJSON id a) = -1 <-> MapNode.assign a = None)
  /\ (forall target, MapNode.json_assign (MapNode.toJSON id a) = Z.of_nat target
                     <-> MapNode.assign a = Some target)
  /\ (MapNode.toJSON id a = MapNode.toJSON id' b
      <-> id = id'
          /\ MapNode.set_wasAttacked false a = MapNode.set_wasAttacked false b).
Proof.
  unfold MapNode.toJSON. simpl. rewrite !push_all. simpl.
  split; [reflexivity |]. split; [reflexivity |]. split; [| split].
  - destruct (MapNode.assign a); split; intros E; try discriminate; try reflexivity. lia.
  - intros target. destruct (MapNode.assign a) as [t |]; split; intros E.
    + apply Nat2Z.inj in E. congruence.
    + congruence.
    + lia.
    + discriminate.
  - destruct a as [ax ay aadj ateam atroops atype aassign aatt],
             b as [bx by' badj bteam btroops btype bassign batt].
    unfold MapNode.set_wasAttacked. simpl. split.
    + intros [= Ex Ey Ei Et Etr Ety Eas Ead].
      apply Nat2Z.inj in Ei. apply map_of_nat_inj in Ead.
      assert (aassign = bassign).
      { destruct aassign, bassign; try reflexivity; try lia.
        apply Nat2Z.inj in Eas. congruence. }
      split; [exact Ei |]. congruence.
    + intros [-> [= -> -> -> -> -> -> ->]]. reflexivity.
Qed.

(** ** The constructor of Game *)

Section NewGame.
Context `{JSMath}.

(** [Math.floor(Math.random() * n)] is an index below [n], when there is
    one: the draw is at most [1 - 2^-53], and the rounding of the product
    adds at most its 2^53rd part. *)
Lemma random_index (s n : nat) :
  (0 < n)%nat ->
  (Z.to_nat (Qfloor (double (Math_random s * inject_Z (Z.of_nat n)))) < n)%nat.
Proof.
  intros P. pose proof (Math_random_range s) as [L _].
  pose proof (Math_random_double s) as U.
  assert (N : (0 < inject_Z (Z.of_nat n))%Q).
  { rewrite <- (Zlt_Qlt 0). lia. }
  assert (Lo : (0 <= Math_random s * inject_Z (Z.of_nat n))%Q)
    by (apply Qmult_le_0_compat; lra).
  pose proof (double_nonneg _ Lo) as Lo'.
  destruct (double_near _ Lo) as [_ Near].
  assert (Hi : (double (Math_random s * inject_Z (Z.of_nat n)) < inject_Z (Z.of_nat n))%Q).
  { assert (Eu : ((1 # 2 ^ 53) == 1 # 9007199254740992)%Q) by reflexivity.
    rewrite Eu in *. clear Eu.
    set (x := double _) in *. set (r := Math_random s) in *.
    set (m := inject_Z (Z.of_nat n)) in *.
    assert (X : (r * m <= (1 - (1 # 9007199254740992)) * m)%Q) by nra.
    nra. }
  pose proof (Qfloor_le (double (Math_random s * inject_Z (Z.of_nat n)))) as F.
  assert (F0 : 0 <= Qfloor (double (Math_random s * inject_Z (Z.of_nat n)))).
  { change 0 with (Qfloor 0). apply Qfloor_resp_le, Lo'. }
  assert (F1 : Qfloor (double (Math_random s * inject_Z (Z.of_nat n))) < Z.of_nat n).
  { rewrite Zlt_Qlt. lra. }
  lia.
Qed.

Lemma not_in_delete (l : list nat) (k x : nat) :
  NoDup l -> l !! k = Some x -> ~ In x (delete k l).
Proof.
  intros N Lk I. rewrite <- (take_drop_middle l k x Lk) in N.
  rewrite delete_take_drop in I. apply NoDup_app in N. destruct N as (_ & N1 & N2).
  apply NoDup_cons in N2. destruct N2 as [N2 _].
  apply in_app_or in I. destruct I as [I | I].
  - apply (N1 x); [apply list_elem_of_In, I | left].
  - apply N2, list_elem_of_In, I.
Qed.

Lemma in_delete (l : list nat) (k x : nat) : In x (delete k l) -> In x l.
Proof.
  intros I. apply list_elem_of_In. apply list_elem_of_In in I.
  eapply elem_of_sublist; [exact I | apply sublist_delete].
Qed.

Lemma chooseStarts_spec (count : nat) :
  forall (i : nat) (unselectedNodes : list nat) (nodes : list MapNode.MapNode) (s : nat),
  NoDup unselectedNodes ->
  (forall u, In u unselectedNodes -> (u < length nodes)%nat) ->
  match Game.chooseStarts i count unselectedNodes nodes s with
  | Ok (nodes', s') =>
      (count <= length unselectedNodes)%nat /\ s' = (s + count)%nat
      /\ length nodes' = length nodes
      /\ exists starts,
           length starts = count /\ NoDup starts
           /\ (forall u, In u starts -> In u unselectedNodes)
           /\ (forall j start, starts !! j = Some start ->
                 MapNode.get nodes' start
                 = MapNode.set_troops 30
                     (MapNode.set_team (Player.ofNumber (S (i + j)))
                                       (MapNode.get nodes start)))
           /\ (forall k, ~ In k starts -> MapNode.get nodes' k = MapNode.get nodes k)
  | Throws => (length unselectedNodes < count)%nat
  | Diverges => False
  end.
Proof.
  induction count as [| count IH]; intros i unselectedNodes nodes s N R;
    cbn [Game.chooseStarts].
  { split; [lia |]. split; [lia |]. split; [reflexivity |]. exists [].
    split; [reflexivity |]. split; [constructor |]. split; [intros u [] |].
    split; [intros j start E; rewrite lookup_nil in E; discriminate | reflexivity]. }
  set (k := Z.to_nat _).
  destruct (unselectedNodes !! k) as [node |] eqn:Lk.
  - pose proof (lookup_lt_Some _ _ _ Lk) as Lt.
    assert (In0 : In node unselectedNodes).
    { apply list_elem_of_In. eapply list_elem_of_lookup_2, Lk. }
    pose proof (R node In0) as Rn.
    set (nodes1 := <[node := _]> nodes).
    specialize (IH (S i) (delete k unselectedNodes) nodes1 (S s)).
    assert (Ld : length (delete k unselectedNodes) = (length unselectedNodes - 1)%nat).
    { rewrite length_delete; [reflexivity | eauto]. }
    destruct (Game.chooseStarts (S i) count (delete k unselectedNodes) nodes1 (S s))
      as [[nodes' s'] | |].
    + destruct IH as (C & -> & Ln & starts & Ls & Ns & Sub & St & Fr).
      { eapply sublist_NoDup; [exact N | apply sublist_delete]. }
      { intros u I. unfold nodes1. rewrite length_insert. apply R, in_delete with k, I. }
      split; [lia |]. split; [lia |].
      split; [rewrite Ln; apply length_insert |].
      assert (Nn : ~ In node starts).
      { intros I. exact (not_in_delete _ _ _ N Lk (Sub node I)). }
      exists (node :: starts). split; [simpl; lia |].
      split; [apply NoDup_cons; split; [rewrite list_elem_of_In; exact Nn | exact Ns] |].
      split; [intros u [<- | I]; [exact In0 | apply in_delete with k, Sub, I] |].
      split.
      * intros [| j] start; simpl.
        -- intros [= <-]. rewrite (Fr node Nn). unfold nodes1.
           rewrite get_insert_eq by exact Rn. rewrite Nat.add_0_r. reflexivity.
        -- intros E. rewrite (St j start E). unfold nodes1.
           rewrite get_insert_ne.
           ++ replace (S i + j)%nat with (i + S j)%nat by lia. reflexivity.
           ++ intros ->. apply Nn. apply list_elem_of_In. eapply list_elem_of_lookup_2, E.
      * intros u Nu. rewrite Fr by (intros I; apply Nu; right; exact I).
        unfold nodes1. apply get_insert_ne. intros ->. apply Nu. left. reflexivity.
    + specialize (IH ltac:(eapply sublist_NoDup; [exact N | apply sublist_delete])
                     ltac:(intros u I; unfold nodes1; rewrite length_insert;
                           apply R, in_delete with k, I)).
      lia.
    + apply IH.
      * eapply sublist_NoDup; [exact N | apply sublist_delete].
      * intros u I. unfold nodes1. rewrite length_insert. apply R, in_delete with k, I.
  - apply lookup_ge_None in Lk.
    destruct (length unselectedNodes) as [| n] eqn:E; [lia |].
    pose proof (random_index s (S n) ltac:(lia)) as RI. fold k in RI. lia.
Qed.

(** X12.  [new Game(nPlayers)] on the nodes of a generated map.  It throws
    exactly when there are fewer than two or more than six players, or more
    players than nodes.  Otherwise it makes one draw for each player and the
    game starts at tick 0 with no army: the players have each one node of
    their own, with 30 troops and their team, player [j + 1] the [j]-th
    chosen; every other node, and everything else of the chosen ones, is as
    the map had it. *)
Theorem new_game_starts (map : list MapNode.MapNode) (nPlayers : Z) (s : nat) :
  match Game.new map nPlayers s with
  | Ok (g, s') =>
      2 <= nPlayers <= 6 /\ nPlayers <= Z.of_nat (length map)
      /\ s' = (s + Z.to_nat nPlayers)%nat
      /\ Game.tickNumber g = 0 /\ Game.armies g = [] /\ Game.armyCounter g = 0
      /\ length (Game.nodes g) = length map
      /\ exists starts,
           Z.of_nat (length starts) = nPlayers /\ NoDup starts
           /\ (forall j start, starts !! j = Some start ->
                 (start < length map)%nat
                 /\ MapNode.get (Game.nodes g) start
                    = MapNode.set_troops 30
                        (MapNode.set_team (Player.ofNumber (S j)) (MapNode.get map start)))
           /\ (forall k, ~ In k starts -> MapNode.get (Game.nodes g) k = MapNode.get map k)
  | Throws => nPlayers < 2 \/ 6 < nPlayers \/ Z.of_nat (length map) < nPlayers
  | Diverges => False
  end.
Proof.
  unfold Game.new.
  destruct (Z.ltb_spec nPlayers 2) as [L2 | G2]; simpl; [lia |].
  destruct (Z.gtb_spec nPlayers 6) as [G6 | L6]; simpl; [lia |].
  pose proof (chooseStarts_spec (Z.to_nat nPlayers) 0 (seq 0 (length map)) map s
                ltac:(apply NoDup_ListNoDup, seq_NoDup)
                ltac:(intros u I; apply in_seq in I; lia)) as C.
  rewrite length_seq in C.
  destruct (Game.chooseStarts 0 _ _ map s) as [[nodes' s'] | |]; cbn [bind].
  - destruct C as (Cn & -> & Ln & starts & Ls & Ns & Sub & St & Fr).
    split; [lia |]. split; [lia |]. split; [reflexivity |]. simpl.
    split; [reflexivity |]. split; [reflexivity |]. split; [reflexivity |].
    split; [exact Ln |]. exists starts. split; [lia |]. split; [exact Ns |].
    split; [| exact Fr].
    intros j start E. split; [| exact (St j start E)].
    assert (I : In start starts) by (apply list_elem_of_In; eapply list_elem_of_lookup_2, E).
    apply Sub, in_seq in I. lia.
  - lia.
  - exact C.
Qed.

End NewGame.

(** Two players on the four nodes of the example. *)
Lemma new_game_starts_witness :
  exists g s',
    @Game.new exampleMath (Game.nodes exampleGame) 2 0 = Ok (g, s')
    /\ s' = 2%nat /\ Game.armies g = [] /\ length (Game.nodes g) = 4%nat.
Proof.
  pose proof (@new_game_starts exampleMath (Game.nodes exampleGame) 2 0) as T.
  destruct (@Game.new exampleMath (Game.nodes exampleGame) 2 0) as [[g s'] | |] eqn:E.
  - exists g, s'. split; [reflexivity |].
    destruct T as (_ & _ & -> & _ & A & _ & L & _). auto.
  - exfalso. simpl in T. lia.
  - destruct T.
Defined.

(** ** The handlers of the players' events *)





Section Handlers.
Context `{JSMath}.

Lemma getNodeByID_range (g : Game.Game) (nodeID : Z) :
  match Game.getNodeByID g nodeID with
  | Some n => 0 <= nodeID < Z.of_nat (length (Game.nodes g)) /\ n = Z.to_nat nodeID
  | None => nodeID < 0 \/ Z.of_nat (length (Game.nodes g)) <= nodeID
  end.
Proof.
  unfold Game.getNodeByID.
  destruct (Z.ltb_spec nodeID 0), (Z.geb_spec nodeID (Z.of_nat (length (Game.nodes g))));
    simpl; lia.
Qed.




End Handlers.


(** ** The armies stay on the edges of the map *)

Section Edges.
Context `{JSMath}.

Lemma intDistance_nonneg (p q : MapNode.MapNode) : 0 <= MapNode.intDistance p q.
Proof.
  unfold MapNode.intDistance, MapNode.distance, Math_round.
  change 0 with (Qfloor 0). apply Qfloor_resp_le.
  set (v := double _). pose proof (Math_sqrt_nonneg v). lra.
Qed.

Lemma onEdge_same (nodes nodes' : list MapNode.MapNode) (a b : MapArmy.MapArmy) :
  sameMap nodes nodes' ->
  MapArmy.from b = MapArmy.from a -> MapArmy.to b = MapArmy.to a ->
  MapArmy.distance b = MapArmy.distance a \/
  (MapArmy.distance b = MapArmy.distance a + 1 /\ ~ atEnd nodes a) ->
  onEdge nodes a -> onEdge nodes' b.
Proof.
  intros [_ S] Ef Et D [A B]. unfold onEdge. rewrite Ef, Et.
  destruct (S (MapArmy.from a)) as (X1 & Y1 & A1), (S (MapArmy.to a)) as (X2 & Y2 & _).
  rewrite (distance_same _ _ _ _ X1 Y1 X2 Y2), A1. split; [exact A |].
  unfold atEnd in D. lia.
Qed.

Lemma onEdges_same (nodes nodes' : list MapNode.MapNode) (armies : list MapArmy.MapArmy) :
  sameMap nodes nodes' -> Forall (onEdge nodes) armies -> Forall (onEdge nodes') armies.
Proof.
  intros S F. eapply Forall_impl; [exact F |]. intros a. simpl.
  apply onEdge_same; auto.
Qed.

Lemma armyTick_edges (nodes : list MapNode.MapNode) (armies : list MapArmy.MapArmy)
    (s : nat) :
  Forall (onEdge nodes) armies ->
  sameMap nodes (MapArmy.tick nodes armies s).1.1.1
  /\ Forall (onEdge (MapArmy.tick nodes armies s).1.1.1) (MapArmy.tick nodes armies s).1.1.2.
Proof.
  intros F. unfold MapArmy.tick. simpl.
  pose proof (marching_run nodes armies s) as M.
  set (sorted := MapArmy.sort armies) in *.
  set (st := fold_left _ _ _) in *.
  destruct M as (SM & Len & M & _).
  split; [exact SM |].
  apply Forall_forall. intros b I. apply list_elem_of_In, filter_In in I.
  destruct I as [I _]. apply list_elem_of_In, list_elem_of_lookup in I. destruct I as [k Lk].
  destruct (M k) as [(Ef & Et & _ & _ & _ & D) _].
  unfold MapArmy.get in Ef, Et, D. rewrite Lk in Ef, Et, D. simpl in Ef, Et, D.
  assert (Lt : (k < length sorted)%nat) by (rewrite <- Len; eapply lookup_lt_Some, Lk).
  destruct (lookup_lt_is_Some_2 sorted k Lt) as [a La]. rewrite La in Ef, Et, D.
  simpl in Ef, Et, D.
  apply (onEdge_same nodes _ a b SM Ef Et D).
  rewrite Forall_forall in F. apply F. apply list_elem_of_In, In_sort.
  apply list_elem_of_In. eapply list_elem_of_lookup_2, La.
Qed.

Lemma keepsEdges_refl (g : Game.Game) : keepsEdges g g.
Proof. split; [apply sameMap_refl | tauto]. Qed.

Lemma keepsEdges_trans (g1 g2 g3 : Game.Game) :
  keepsEdges g1 g2 -> keepsEdges g2 g3 -> keepsEdges g1 g3.
Proof.
  intros [S1 K1] [S2 K2]. split; [eapply sameMap_trans; eassumption |].
  intros W O. apply K2; [eapply wfNodes_same; eassumption | apply K1; assumption].
Qed.

Lemma keepsEdges_set_node (g : Game.Game) (n : nat) (v : MapNode.MapNode) :
  MapNode.x v = MapNode.x (MapNode.get (Game.nodes g) n) ->
  MapNode.y v = MapNode.y (MapNode.get (Game.nodes g) n) ->
  MapNode.adj v = MapNode.adj (MapNode.get (Game.nodes g) n) ->
  keepsEdges g (Game.set_nodes (<[n := v]> (Game.nodes g)) g).
Proof.
  intros Ex Ey Ea. pose proof (sameMap_insert (Game.nodes g) n v Ex Ey Ea) as S.
  split; [exact S |]. intros _ O. unfold onEdges. simpl. eapply onEdges_same; eassumption.
Qed.

Lemma sendArmy_edges (g g' : Game.Game) (team : Player.Team) (from to : nat)
    (troops : Z) (ok : bool) :
  Game.sendArmy g team from to troops = Ok (ok, g') -> keepsEdges g g'.
Proof.
  intros E. split; [apply (sendArmy_sameMap _ _ _ _ _ _ _ E) |].
  pose proof (sendArmy_sameMap _ _ _ _ _ _ _ E) as S. revert E S.
  unfold Game.sendArmy.
  destruct (negb (bool_decide (MapNode.team (MapNode.get (Game.nodes g) from) = team))
            || bool_decide (team = Player.Neutral)) eqn:G; [intros [= _ <-]; tauto |].
  destruct (Game.attacked g team from to); [intros [= _ <-]; tauto |].
  destruct (_ =? 0); [intros [= _ <-]; tauto |].
  apply orb_false_iff in G. destruct G as [T N].
  apply bool_decide_eq_false in N. apply negb_false_iff, bool_decide_eq_true in T.
  pose proof (get_owned_in_range _ _ _ N T) as L.
  destruct (Game.dijkstra g from to) as [[h |] | |] eqn:D; cbn [bind]; try discriminate;
    [| intros [= _ <-]; tauto].
  intros [= _ <-] S W O. unfold onEdges in *. simpl in *.
  apply Forall_app. split; [eapply onEdges_same; eassumption |].
  constructor; [| constructor].
  apply (onEdge_same (Game.nodes g) _
           (MapArmy.new from h (Z.min troops (MapNode.troops (MapNode.get (Game.nodes g) from)))
                        (MapNode.team (MapNode.get (Game.nodes g) from)) to
                        (Game.armyCounter g)) _ S eq_refl eq_refl (or_introl eq_refl)).
  split; [exact (dijkstra_adjacent g from to h W L D) |]. simpl.
  split; [lia | apply intDistance_nonneg].
Qed.

Lemma tickNode_edges (i : nat) (g g' : Game.Game) :
  Game.tickNode i g = Ok g' -> keepsEdges g g'.
Proof.
  unfold Game.tickNode.
  destruct (node_tick_keeps (Game.nodes g) (MapNode.get (Game.nodes g) i) (Game.tickNumber g))
    as (Ex & Ey & Ea & _).
  pose proof (keepsEdges_set_node g i _ Ex Ey Ea) as K1.
  set (g1 := Game.set_nodes _ g) in *.
  destruct (MapNode.assign (MapNode.get (Game.nodes g1) i)) as [target |];
    [| intros [= <-]; exact K1].
  destruct (Z.rem (Game.tickNumber g1) 8 =? 0); [| intros [= <-]; exact K1].
  destruct (Game.sendArmy g1 _ i target _) as [[ok g2] | |] eqn:E; cbn [bind];
    try discriminate.
  pose proof (sendArmy_edges _ _ _ _ _ _ _ E) as K2.
  destruct ok; intros [= <-].
  - exact (keepsEdges_trans _ _ _ K1 K2).
  - refine (keepsEdges_trans _ _ _ K1 (keepsEdges_trans _ _ _ K2 _)).
    apply keepsEdges_set_node; reflexivity.
Qed.

Lemma sendNew_edges (order : nat * nat * Z) (g g' : Game.Game) :
  Game.sendNew order g = Ok g' -> keepsEdges g g'.
Proof.
  destruct order as [[to from] troops]. unfold Game.sendNew.
  destruct (Game.sendArmy g _ to from troops) as [[ok g1] | |] eqn:E; cbn [bind];
    try discriminate.
  intros [= <-]. apply (sendArmy_edges _ _ _ _ _ _ _ E).
Qed.

Lemma tick_edges (g g' : Game.Game) (s s' : nat) :
  Game.tick g s = Ok (g', s') -> wfNodes (Game.nodes g) -> onEdges g -> onEdges g'.
Proof.
  unfold Game.tick. intros E W O.
  pose proof (armyTick_edges (Game.nodes g) (Game.armies g) s O) as [S1 O1].
  destruct (MapArmy.tick (Game.nodes g) (Game.armies g) s)
    as [[[nodes1 newArmies] toSend] s1]. simpl in S1, O1.
  set (g1 := Game.mk nodes1 (Game.tickNumber g + 1) newArmies (Game.armyCounter g)) in *.
  destruct (Game.forEach Game.tickNode _ g1) as [g2 | |] eqn:E2; cbn [bind] in E;
    try discriminate.
  destruct (Game.forEach Game.sendNew toSend g2) as [g3 | |] eqn:E3; cbn [bind] in E;
    try discriminate.
  injection E as <- <-.
  pose proof (forEach_frame keepsEdges Game.tickNode _ keepsEdges_refl keepsEdges_trans
                tickNode_edges g1 g2 E2) as K2.
  pose proof (forEach_frame keepsEdges Game.sendNew _ keepsEdges_refl keepsEdges_trans
                sendNew_edges g2 g3 E3) as K3.
  destruct (keepsEdges_trans _ _ _ K2 K3) as [_ K]. apply K.
  - simpl. eapply wfNodes_same; eassumption.
  - exact O1.
Qed.

Lemma forfeit_sameMap (g : Game.Game) (team : Player.Team) :
  sameMap (Game.nodes g) (Game.nodes (Game.forfeit g team).2).
Proof.
  unfold Game.forfeit. destruct (bool_decide _); [apply sameMap_refl |]. simpl.
  split; [apply length_map |]. intros k. unfold MapNode.get.
  rewrite list_lookup_fmap. destruct (Game.nodes g !! k) as [nd |]; simpl; [| auto].
  unfold Game.forfeitNode. destruct (bool_decide _); simpl; auto.
Qed.

(** X14.  The armies stay on the edges of the map: in a game ready for a
    tick in which every army is on an edge that the map has, from its
    origin to a neighbour of it, with a progress between zero and the
    rounded length of the edge, this still holds after each of the commands
    and after a tick. *)
Theorem armies_stay_on_edges (g : Game.Game) (team : Player.Team) (from to node : nat)
    (type : MapNode.NodeType) (troops : Z) (s : nat) :
  ready g -> onEdges g ->
  onEdges (Game.build g team node type).2
  /\ (exists ok g', Game.sendArmy g team from to troops = Ok (ok, g') /\ onEdges g')
  /\ (exists ok g', Game.assign g team from to = Ok (ok, g') /\ onEdges g')
  /\ onEdges (Game.unassign g team from).2
  /\ onEdges (Game.forfeit g team).2
  /\ (exists g' s', Game.tick g s = Ok (g', s') /\ onEdges g').
Proof.
  intros R O. pose proof R as (W & _).
  split; [| split; [| split; [| split; [| split]]]].
  - unfold Game.build. destruct (_ || _); [exact O |].
    destruct (_ && _); [| exact O]. simpl.
    apply (keepsEdges_set_node g node); try reflexivity; assumption.
  - destruct (sendArmy_returns g team from to troops W) as (ok & g' & E).
    exists ok, g'. split; [exact E |].
    apply (sendArmy_edges _ _ _ _ _ _ _ E); assumption.
  - destruct (assign_returns g team from to W) as (ok & g' & E).
    exists ok, g'. split; [exact E |]. revert E. unfold Game.assign.
    destruct (_ || _); [intros [= _ <-]; exact O |].
    destruct (Game.dijkstra g from to) as [r | |]; cbn [bind]; try discriminate.
    intros [= _ <-]. apply (keepsEdges_set_node g from); try reflexivity; assumption.
  - unfold Game.unassign. destruct (_ || _); [exact O |]. simpl.
    apply (keepsEdges_set_node g from); try reflexivity; assumption.
  - pose proof (forfeit_sameMap g team) as S. revert S.
    unfold Game.forfeit. destruct (bool_decide _); [intros _; exact O |]. simpl.
    intros S. unfold onEdges. simpl. eapply onEdges_same; [exact S |].
    unfold onEdges in O. rewrite Forall_forall in *. intros a I. apply O.
    apply list_elem_of_In in I. apply filter_In in I. apply list_elem_of_In. tauto.
  - destruct (tick_keeps_ready g s R) as (g' & s' & E & _).
    exists g', s'. split; [exact E |]. exact (tick_edges g g' s s' E W O).
Qed.

End Edges.

(** The two armies of the marching example are on edges of the triangle,
    and still are a tick later. *)
Lemma armies_stay_on_edges_witness :
  exists g' s', @Game.tick exampleMath marchingGame 0 = Ok (g', s') /\ @onEdges exampleMath g'.
Proof.
  destruct (@armies_stay_on_edges exampleMath marchingGame Player.Red 0 2 0 MapNode.Factory
              10 0 marchingGame_ready)
    as (_ & _ & _ & _ & _ & T).
  - repeat constructor; simpl; try tauto; vm_compute; discriminate.
  - exact T.
Defined.

(** ** The troops of a game through a tick *)

Lemma lowered_refl (nodes : list MapNode.MapNode) : lowered nodes nodes.
Proof. intros k. left. reflexivity. Qed.

Lemma lowered_trans (n1 n2 n3 : list MapNode.MapNode) :
  lowered n1 n2 -> lowered n2 n3 -> lowered n1 n3.
Proof. intros L1 L2 k. destruct (L1 k), (L2 k); intuition congruence. Qed.

Lemma lowered_insert (nodes : list MapNode.MapNode) (n : nat) (v : MapNode.MapNode) :
  MapNode.type v = MapNode.type (MapNode.get nodes n) \/ MapNode.type v = MapNode.Normal ->
  lowered nodes (<[n := v]> nodes).
Proof.
  intros T k. destruct (Nat.eq_dec n k) as [<- | N].
  - destruct (Nat.lt_ge_cases n (length nodes)) as [L | G].
    + rewrite get_insert_eq by exact L. exact T.
    + rewrite list_insert_ge by exact G. left. reflexivity.
  - rewrite get_insert_ne by exact N. left. reflexivity.
Qed.

Lemma capacity_pos (node : MapNode.MapNode) : 1 <= capacity node.
Proof. unfold capacity. destruct (bool_decide _); lia. Qed.

Lemma capacity_lowered (nodes nodes' : list MapNode.MapNode) (k : nat) :
  sameMap nodes nodes' -> lowered nodes nodes' ->
  capacity (MapNode.get nodes' k) <= capacity (MapNode.get nodes k).
Proof.
  intros [_ S] L. destruct (S k) as (_ & _ & A). destruct (L k) as [T | T].
  - unfold capacity. rewrite T, A. lia.
  - pose proof (capacity_pos (MapNode.get nodes k)).
    unfold capacity at 1. rewrite T. simpl. lia.
Qed.

Lemma sum_seq_get (f : MapNode.MapNode -> Z) (l0 l : list MapNode.MapNode) :
  foldr (fun i total => f (MapNode.get (l0 ++ l) i) + total) 0 (seq (length l0) (length l))
  = foldr (fun node total => f node + total) 0 l.
Proof.
  revert l0. induction l as [| a l IH]; intros l0; simpl; [reflexivity |].
  specialize (IH (l0 ++ [a])). rewrite <- app_assoc, length_app in IH. simpl in IH.
  rewrite Nat.add_1_r in IH. rewrite IH. f_equal.
  unfold MapNode.get. rewrite lookup_app_r by lia. rewrite Nat.sub_diag. reflexivity.
Qed.

Lemma forEach_sum {A S : Type} (J : S -> Prop) (m : S -> Z) (b : A -> Z)
    (body : A -> S -> result S) (l : list A) :
  (forall a s s', J s -> body a s = Ok s' -> J s' /\ m s' <= m s + b a) ->
  forall s s', J s -> Game.forEach body l s = Ok s' ->
    J s' /\ m s' <= m s + foldr (fun a total => b a + total) 0 l.
Proof.
  intros B. induction l as [| a l IH]; intros s s' Js; simpl.
  - intros [= <-]. split; [exact Js | lia].
  - destruct (body a s) as [s1 | |] eqn:E; cbn [bind]; try discriminate.
    intros E'. destruct (B a s s1 Js E) as [J1 M1].
    destruct (IH s1 s' J1 E') as [J' M']. split; [exact J' | lia].
Qed.

Section TroopCount.
Context `{JSMath}.

Lemma battleNode_lowers (n i : nat) (st : MapArmy.store) :
  lowered (MapArmy.st_nodes st) (MapArmy.st_nodes (MapArmy.battleNode n i st)).
Proof.
  unfold MapArmy.battleNode.
  destruct (MapArmy.battle _ _ _ _ _) as [[newNodeTroops newArmyTroops] s'].
  destruct (newNodeTroops <=? 0);
    [destruct (newArmyTroops >? 0); [| destruct (newArmyTroops <=? 0)] |];
    simpl; apply lowered_insert; simpl; auto.
Qed.

Lemma tickArmy_lowers (i : nat) (st : MapArmy.store) :
  lowered (MapArmy.st_nodes st) (MapArmy.st_nodes (MapArmy.tickArmy i st)).
Proof.
  unfold MapArmy.tickArmy.
  destruct (_ =? _).
  - destruct (negb _); [apply battleNode_lowers |]. simpl.
    apply lowered_insert. left. reflexivity.
  - destruct (MapArmy.findCollision _ _ _ 0) as [[j | j] |].
    + destruct (_ && _); [apply lowered_refl |].
      destruct (battleEdge_shape i j st) as (armies' & s' & -> & _). apply lowered_refl.
    + destruct (battleEdge_shape i j st) as (armies' & s' & -> & _). apply lowered_refl.
    + apply lowered_refl.
Qed.

Lemma armyTick_lowers (nodes : list MapNode.MapNode) (armies : list MapArmy.MapArmy)
    (s : nat) :
  lowered nodes (MapArmy.tick nodes armies s).1.1.1.
Proof.
  unfold MapArmy.tick. cbn [fst snd].
  apply (fold_seq_inv (fun _ st => lowered nodes (MapArmy.st_nodes st))
           (fun st i => MapArmy.tickArmy i st)).
  - apply lowered_refl.
  - intros i st _ L. eapply lowered_trans; [exact L | apply tickArmy_lowers].
Qed.

Lemma producing_set_node (nodes0 : list MapNode.MapNode) (t : Z) (g : Game.Game)
    (n : nat) (v : MapNode.MapNode) :
  producing nodes0 t g ->
  MapNode.x v = MapNode.x (MapNode.get (Game.nodes g) n) ->
  MapNode.y v = MapNode.y (MapNode.get (Game.nodes g) n) ->
  MapNode.adj v = MapNode.adj (MapNode.get (Game.nodes g) n) ->
  MapNode.type v = MapNode.type (MapNode.get (Game.nodes g) n) ->
  producing nodes0 t (Game.set_nodes (<[n := v]> (Game.nodes g)) g).
Proof.
  intros (S & L & T) Ex Ey Ea Et. split; [| split]; simpl.
  - eapply sameMap_trans; [exact S | apply sameMap_insert; assumption].
  - eapply lowered_trans; [exact L | apply lowered_insert; left; exact Et].
  - exact T.
Qed.

Lemma total_set_node (g : Game.Game) (n : nat) (v : MapNode.MapNode) (d : Z) :
  MapNode.troops v <= MapNode.troops (MapNode.get (Game.nodes g) n) + d -> 0 <= d ->
  totalTroops (Game.set_nodes (<[n := v]> (Game.nodes g)) g) <= totalTroops g + d.
Proof.
  intros L D. unfold totalTroops. simpl.
  destruct (Nat.lt_ge_cases n (length (Game.nodes g))) as [Ln | Gn].
  - rewrite nodeTroops_insert by exact Ln. lia.
  - rewrite list_insert_ge by exact Gn. lia.
Qed.

Lemma sendArmy_total (nodes0 : list MapNode.MapNode) (t : Z) (g g' : Game.Game)
    (team : Player.Team) (from to : nat) (troops : Z) (ok : bool) :
  producing nodes0 t g ->
  Game.sendArmy g team from to troops = Ok (ok, g') ->
  producing nodes0 t g' /\ totalTroops g' = totalTroops g.
Proof.
  intros P. unfold Game.sendArmy.
  destruct (negb (bool_decide (MapNode.team (MapNode.get (Game.nodes g) from) = team))
            || bool_decide (team = Player.Neutral)) eqn:G; [intros [= _ <-]; tauto |].
  destruct (Game.attacked g team from to); [intros [= _ <-]; tauto |].
  destruct (_ =? 0); [intros [= _ <-]; tauto |].
  apply orb_false_iff in G. destruct G as [T N].
  apply bool_decide_eq_false in N. apply negb_false_iff, bool_decide_eq_true in T.
  pose proof (get_owned_in_range _ _ _ N T) as L.
  destruct (Game.dijkstra g from to) as [[h |] | |]; cbn [bind]; try discriminate;
    [| intros [= _ <-]; tauto].
  intros [= _ <-]. split.
  - destruct (producing_set_node nodes0 t g from
                (MapNode.set_troops
                   (MapNode.troops (MapNode.get (Game.nodes g) from)
                    - Z.min troops (MapNode.troops (MapNode.get (Game.nodes g) from)))
                   (MapNode.get (Game.nodes g) from)) P eq_refl eq_refl eq_refl eq_refl)
      as (S' & L' & T').
    split; [exact S' |]. split; [exact L' | exact T'].
  - unfold totalTroops. simpl. rewrite nodeTroops_insert by exact L.
    assert (AT : forall (l : list MapArmy.MapArmy) (a : MapArmy.MapArmy),
               armyTroops (l ++ [a]) = armyTroops l + MapArmy.troops a).
    { clear. induction l as [| b l IH]; intros a; simpl; [lia | rewrite IH; lia]. }
    rewrite AT. simpl. lia.
Qed.

Lemma tickNode_gain (nodes0 : list MapNode.MapNode) (t : Z) (i : nat) (g g' : Game.Game) :
  producing nodes0 t g -> Game.tickNode i g = Ok g' ->
  producing nodes0 t g'
  /\ totalTroops g'
     <= totalTroops g + (if Z.even t then capacity (MapNode.get nodes0 i) else 0).
Proof.
  intros P. pose proof P as (S0 & L0 & T0). unfold Game.tickNode.
  set (node := MapNode.get (Game.nodes g) i).
  set (gain := if Z.even t then capacity (MapNode.get nodes0 i) else 0).
  assert (Gn : 0 <= gain).
  { unfold gain. pose proof (capacity_pos (MapNode.get nodes0 i)). destruct (Z.even t); lia. }
  assert (K : MapNode.x (MapNode.tick (Game.nodes g) node (Game.tickNumber g)) = MapNode.x node
              /\ MapNode.y (MapNode.tick (Game.nodes g) node (Game.tickNumber g)) = MapNode.y node
              /\ MapNode.adj (MapNode.tick (Game.nodes g) node (Game.tickNumber g))
                 = MapNode.adj node
              /\ MapNode.type (MapNode.tick (Game.nodes g) node (Game.tickNumber g))
                 = MapNode.type node
              /\ MapNode.troops (MapNode.tick (Game.nodes g) node (Game.tickNumber g))
                 <= MapNode.troops node + gain).
  { unfold MapNode.tick. rewrite rem2_even, T0. unfold gain.
    pose proof (capacity_lowered nodes0 (Game.nodes g) i S0 L0) as C. fold node in C.
    destruct (Z.even t); simpl.
    - destruct (MapNode.wasAttacked node); simpl.
      + repeat split; try reflexivity. pose proof (capacity_pos (MapNode.get nodes0 i)). lia.
      + unfold capacity in C at 1. rewrite mult_count. unfold poweredNeighbours.
        match goal with
        | |- context [List.filter ?f ?l] => pose proof (List.filter_length_le f l)
        end.
        destruct (bool_decide (MapNode.type node = MapNode.Factory)); simpl;
          repeat split; try reflexivity; lia.
    - repeat split; try reflexivity. lia. }
  destruct K as (Kx & Ky & Ka & Kt & Ktr).
  pose proof (producing_set_node nodes0 t g i _ P Kx Ky Ka Kt) as P1.
  pose proof (total_set_node g i _ gain Ktr Gn) as M1.
  set (g1 := Game.set_nodes _ g) in *.
  destruct (MapNode.assign (MapNode.get (Game.nodes g1) i)) as [target |];
    [| intros [= <-]; split; assumption].
  destruct (Z.rem (Game.tickNumber g1) 8 =? 0); [| intros [= <-]; split; assumption].
  destruct (Game.sendArmy g1 _ i target _) as [[ok g2] | |] eqn:E; cbn [bind];
    try discriminate.
  destruct (sendArmy_total nodes0 t g1 g2 _ _ _ _ _ P1 E) as [P2 M2].
  destruct ok; intros [= <-].
  - split; [exact P2 | lia].
  - split; [apply producing_set_node; try reflexivity; exact P2 |].
    pose proof (total_set_node g2 i (MapNode.set_assign None (MapNode.get (Game.nodes g2) i))
                  0 ltac:(simpl; lia) ltac:(lia)).
    lia.
Qed.

Lemma sendNew_total (nodes0 : list MapNode.MapNode) (t : Z) (order : nat * nat * Z)
    (g g' : Game.Game) :
  producing nodes0 t g -> Game.sendNew order g = Ok g' ->
  producing nodes0 t g' /\ totalTroops g' <= totalTroops g + 0.
Proof.
  intros P. destruct order as [[to from] troops]. unfold Game.sendNew.
  destruct (Game.sendArmy g _ to from troops) as [[ok g1] | |] eqn:E; cbn [bind];
    try discriminate.
  intros [= <-]. destruct (sendArmy_total nodes0 t g g1 _ _ _ _ _ P E) as [P1 M1].
  split; [exact P1 | lia].
Qed.

(** X15.  The troops of a game through a tick: a tick from a game that is
    ready for it returns, and the nodes and armies then hold no more troops
    than the nodes and the armies with troops held before, but for what the
    nodes can make: nothing on a tick of odd number, and on a tick of even
    number at most one for a node and twice one more than the number of its
    neighbours for a factory. *)
Theorem tick_troops_bound (g : Game.Game) (s : nat) :
  ready g ->
  exists g' s',
    Game.tick g s = Ok (g', s')
    /\ totalTroops g'
       <= nodeTroops (Game.nodes g) + fieldTroops (Game.armies g)
          + production (Game.nodes g) (Game.tickNumber g + 1).
Proof.
  intros R. destruct (tick_keeps_ready g s R) as (g' & s' & E & _).
  exists g', s'. split; [exact E |]. destruct R as (_ & _ & N & A).
  revert E. unfold Game.tick.
  pose proof (armyTick_sum (Game.nodes g) (Game.armies g) s N A) as B.
  pose proof (armyTick_lowers (Game.nodes g) (Game.armies g) s) as L.
  destruct (armyTick_ok (Game.nodes g) (Game.armies g) s N A)
    as (nodes1 & newArmies & toSend & s1 & Et & SM & _).
  rewrite Et in B, L |- *. simpl in B, L.
  set (t := Game.tickNumber g + 1).
  set (g1 := Game.mk nodes1 t newArmies (Game.armyCounter g)).
  destruct (Game.forEach Game.tickNode _ g1) as [g2 | |] eqn:E2; cbn [bind];
    try discriminate.
  destruct (Game.forEach Game.sendNew toSend g2) as [g3 | |] eqn:E3; cbn [bind];
    try discriminate.
  intros [= <- <-].
  assert (P1 : producing (Game.nodes g) t g1) by (split; [exact SM | split; [exact L | reflexivity]]).
  destruct (forEach_sum (producing (Game.nodes g) t) totalTroops
              (fun i => if Z.even t then capacity (MapNode.get (Game.nodes g) i) else 0)
              Game.tickNode _
              (fun i g0 g0' P0 E0 => tickNode_gain (Game.nodes g) t i g0 g0' P0 E0)
              g1 g2 P1 E2) as [P2 M2].
  destruct (forEach_sum (producing (Game.nodes g) t) totalTroops (fun _ => 0)
              Game.sendNew _
              (fun order g0 g0' P0 E0 => sendNew_total (Game.nodes g) t order g0 g0' P0 E0)
              g2 g3 P2 E3) as [_ M3].
  assert (Z0 : forall (A : Type) (l : list A), foldr (fun _ total => 0 + total) 0 l = 0).
  { intros A0 l. induction l as [| a l IH]; simpl; [reflexivity | exact IH]. }
  rewrite Z0 in M3.
  assert (Pr : foldr (fun i total => (if Z.even t then capacity (MapNode.get (Game.nodes g) i)
                                      else 0) + total) 0 (seq 0 (length (Game.nodes g1)))
               = production (Game.nodes g) t).
  { unfold production. simpl. destruct SM as [-> _]. destruct (Z.even t).
    - exact (sum_seq_get capacity [] (Game.nodes g)).
    - apply Z0. }
  rewrite Pr in M2. unfold totalTroops in *. simpl in M2. lia.
Qed.

End TroopCount.

(** A tick of the marching example: its number, 8, is even. *)
Lemma tick_troops_bound_witness :
  exists g' s',
    @Game.tick exampleMath marchingGame 0 = Ok (g', s')
    /\ totalTroops g' <= 75 + 70 + 4.
Proof.
  apply (@tick_troops_bound exampleMath marchingGame 0 marchingGame_ready).
Defined.

(** ** MapNode.doIntersect *)

Section Geometry.
Context `{JSMath}.
Local Open Scope Q_scope.

Lemma orientation_of_zero (val : Q) :
  val == 0 -> (if Qltb 0 val then 1 else if Qltb val 0 then 2 else 0)%Z = 0%Z.
Proof.
  intros E.
  destruct (Qltb 0 val) eqn:P; [apply Qltb_true in P; lra |].
  destruct (Qltb val 0) eqn:N; [apply Qltb_true in N; lra | reflexivity].
Qed.

Lemma double_minus_swap (a b : Q) : double (a - b) == - double (b - a).
Proof. rewrite <- double_opp. apply double_proper. ring. Qed.

Lemma double_mult_opp (a b : Q) : double (a * - b) == - double (a * b).
Proof. rewrite <- double_opp. apply double_proper. ring. Qed.

(** Coming back to the node one left is no turn: the two products of [val]
    are the same double. *)
Lemma orientation_back (p q : MapNode.MapNode) : MapNode.orientation p q p = 0%Z.
Proof.
  unfold MapNode.orientation. cbv zeta. apply orientation_of_zero.
  rewrite (double_minus_swap (MapNode.x p) (MapNode.x q)).
  rewrite (double_minus_swap (MapNode.y p) (MapNode.y q)).
  rewrite !double_mult_opp.
  rewrite (double_proper (double (MapNode.x q - MapNode.x p) * double (MapNode.y q - MapNode.y p))
                         (double (MapNode.y q - MapNode.y p) * double (MapNode.x q - MapNode.x p)))
    by ring.
  etransitivity; [apply double_proper | apply double_0]. ring.
Qed.

(** Staying at the node one reached is no turn either. *)
Lemma orientation_stay (p q : MapNode.MapNode) : MapNode.orientation p q q = 0%Z.
Proof.
  unfold MapNode.orientation. cbv zeta. apply orientation_of_zero.
  assert (Z0 : forall a : Q, double (a - a) == 0).
  { intros a. etransitivity; [apply double_proper | apply double_0]. ring. }
  assert (P0 : forall a : Q, double (a * 0) == 0).
  { intros a. etransitivity; [apply double_proper | apply double_0]. ring. }
  rewrite !Z0, !P0. etransitivity; [apply double_proper | apply double_0]. ring.
Qed.

Lemma onSegment_start (p r : MapNode.MapNode) : MapNode.onSegment p p r = true.
Proof.
  unfold MapNode.onSegment. rewrite !andb_true_iff, !Qle_bool_iff.
  repeat split;
    first [apply Q.le_max_l | apply Q.le_min_l].
Qed.

Lemma onSegment_end (p r : MapNode.MapNode) : MapNode.onSegment p r r = true.
Proof.
  unfold MapNode.onSegment. rewrite !andb_true_iff, !Qle_bool_iff.
  repeat split;
    first [apply Q.le_max_r | apply Q.le_min_r].
Qed.

(** The five branches of [doIntersect]. *)
Lemma doIntersect_cases (p1 q1 p2 q2 : MapNode.MapNode) :
  MapNode.doIntersect p1 q1 p2 q2 = true
  <-> (MapNode.orientation p1 q1 p2 <> MapNode.orientation p1 q1 q2
       /\ MapNode.orientation p2 q2 p1 <> MapNode.orientation p2 q2 q1)
      \/ (MapNode.orientation p1 q1 p2 = 0%Z /\ MapNode.onSegment p1 p2 q1 = true)
      \/ (MapNode.orientation p1 q1 q2 = 0%Z /\ MapNode.onSegment p1 q2 q1 = true)
      \/ (MapNode.orientation p2 q2 p1 = 0%Z /\ MapNode.onSegment p2 p1 q2 = true)
      \/ (MapNode.orientation p2 q2 q1 = 0%Z /\ MapNode.onSegment p2 q1 q2 = true).
Proof.
  assert (I : forall b c : bool, (if b then true else c) = true <-> b = true \/ c = true).
  { intros [] c; intuition discriminate. }
  unfold MapNode.doIntersect. cbv zeta.
  rewrite !I, !andb_true_iff, !negb_true_iff, !Z.eqb_neq, !Z.eqb_eq.
  intuition discriminate.
Qed.

Lemma bool_eq_iff (b1 b2 : bool) : (b1 = true <-> b2 = true) -> b1 = b2.
Proof. destruct b1, b2; intuition discriminate. Qed.

(** X16.  [doIntersect], as the doubles compute it, does not depend on the
    order in which the two segments are given, and it is true of any two
    segments that have an end node in common: the turn from a segment to
    one of its own ends is computed as 0, whatever the rounding. *)
Theorem doIntersect_ends (p1 q1 p2 q2 : MapNode.MapNode) :
  MapNode.doIntersect p2 q2 p1 q1 = MapNode.doIntersect p1 q1 p2 q2
  /\ MapNode.doIntersect p1 q1 p1 q2 = true
  /\ MapNode.doIntersect p1 q1 p2 p1 = true
  /\ MapNode.doIntersect p1 q1 q1 q2 = true
  /\ MapNode.doIntersect p1 q1 p2 q1 = true.
Proof.
  split; [apply bool_eq_iff; rewrite !doIntersect_cases; tauto |].
  repeat split; apply doIntersect_cases.
  - right. left. split; [apply orientation_back | apply onSegment_start].
  - right. right. left. split; [apply orientation_back | apply onSegment_start].
  - right. left. split; [apply orientation_stay | apply onSegment_end].
  - right. right. left. split; [apply orientation_stay | apply onSegment_end].
Qed.

End Geometry.

(** ** The standing orders through a tick *)

Lemma ordersKept_refl (nodes : list MapNode.MapNode) : ordersKept nodes nodes.
Proof. intros k. left. reflexivity. Qed.

Lemma ordersKept_trans (n1 n2 n3 : list MapNode.MapNode) :
  ordersKept n1 n2 -> ordersKept n2 n3 -> ordersKept n1 n3.
Proof. intros L1 L2 k. destruct (L1 k), (L2 k); intuition congruence. Qed.

Lemma ordersKept_insert (nodes : list MapNode.MapNode) (n : nat) (v : MapNode.MapNode) :
  MapNode.assign v = MapNode.assign (MapNode.get nodes n) \/ MapNode.assign v = None ->
  ordersKept nodes (<[n := v]> nodes).
Proof.
  intros T k. destruct (Nat.eq_dec n k) as [<- | N].
  - destruct (Nat.lt_ge_cases n (length nodes)) as [L | G].
    + rewrite get_insert_eq by exact L. exact T.
    + rewrite list_insert_ge by exact G. left. reflexivity.
  - rewrite get_insert_ne by exact N. left. reflexivity.
Qed.

Lemma forEach_keeps {A S : Type} (P : S -> Prop) (Q : A -> Prop)
    (body : A -> S -> result S) (l : list A) :
  (forall a s s', Q a -> P s -> body a s = Ok s' -> P s') ->
  Forall Q l ->
  forall s s', P s -> Game.forEach body l s = Ok s' -> P s'.
Proof.
  intros B F. induction F as [| a l Qa F IH]; intros s s' Ps; simpl.
  - intros [= <-]. exact Ps.
  - destruct (body a s) as [s1 | |] eqn:E; cbn [bind]; try discriminate.
    apply IH. exact (B a s s1 Qa Ps E).
Qed.

Lemma forEach_seq_inv {St : Type} (J : nat -> St -> Prop) (body : nat -> St -> result St)
    (n : nat) :
  (forall i s s', (i < n)%nat -> J i s -> body i s = Ok s' -> J (S i) s') ->
  forall s s', J 0%nat s -> Game.forEach body (seq 0 n) s = Ok s' -> J n s'.
Proof.
  intros B.
  assert (G : forall len start s s', (start + len <= n)%nat -> J start s ->
                Game.forEach body (seq start len) s = Ok s' -> J (start + len)%nat s').
  { induction len as [| len IH]; intros start s s' L Js; simpl.
    - intros [= <-]. rewrite Nat.add_0_r. exact Js.
    - destruct (body start s) as [s1 | |] eqn:E; cbn [bind]; try discriminate.
      intros E'. replace (start + S len)%nat with (S start + len)%nat by lia.
      apply (IH (S start) s1 s'); [lia | | exact E'].
      apply (B start s s1); [lia | exact Js | exact E]. }
  intros s s' J0 E. exact (G n 0%nat s s' ltac:(lia) J0 E).
Qed.

Section Orders.
Context `{JSMath}.

Lemma tickArmy_orders (i : nat) (st : MapArmy.store) :
  ordersKept (MapArmy.st_nodes st) (MapArmy.st_nodes (MapArmy.tickArmy i st)).
Proof.
  unfold MapArmy.tickArmy.
  destruct (_ =? _).
  - destruct (negb _).
    + unfold MapArmy.battleNode.
      destruct (MapArmy.battle _ _ _ _ _) as [[newNodeTroops newArmyTroops] s'].
      destruct (newNodeTroops <=? 0);
        [destruct (newArmyTroops >? 0); [| destruct (newArmyTroops <=? 0)] |];
        simpl; apply ordersKept_insert; simpl; auto.
    + simpl. apply ordersKept_insert. left. reflexivity.
  - destruct (MapArmy.findCollision _ _ _ 0) as [[j | j] |].
    + destruct (_ && _); [apply ordersKept_refl |].
      destruct (battleEdge_shape i j st) as (armies' & s' & -> & _). apply ordersKept_refl.
    + destruct (battleEdge_shape i j st) as (armies' & s' & -> & _). apply ordersKept_refl.
    + apply ordersKept_refl.
Qed.

Lemma armyTick_orders (nodes : list MapNode.MapNode) (armies : list MapArmy.MapArmy)
    (s : nat) :
  ordersKept nodes (MapArmy.tick nodes armies s).1.1.1.
Proof.
  unfold MapArmy.tick. cbn [fst snd].
  apply (fold_seq_inv (fun _ st => ordersKept nodes (MapArmy.st_nodes st))
           (fun st i => MapArmy.tickArmy i st)).
  - apply ordersKept_refl.
  - intros i st _ L. eapply ordersKept_trans; [exact L | apply tickArmy_orders].
Qed.

(** What [sendArmy] does to the nodes: it takes troops from [from], and
    nothing when there are none to take. *)
Lemma sendArmy_nodes (g g' : Game.Game) (team : Player.Team) (from to : nat)
    (troops : Z) (ok : bool) :
  Game.sendArmy g team from to troops = Ok (ok, g') ->
  Game.tickNumber g' = Game.tickNumber g
  /\ (forall k, k <> from -> MapNode.get (Game.nodes g') k = MapNode.get (Game.nodes g) k)
  /\ MapNode.assign (MapNode.get (Game.nodes g') from)
     = MapNode.assign (MapNode.get (Game.nodes g) from)
  /\ (Z.min troops (MapNode.troops (MapNode.get (Game.nodes g) from)) = 0 -> g' = g)
  /\ (ok = true ->
      MapNode.troops (MapNode.get (Game.nodes g') from)
      = MapNode.troops (MapNode.get (Game.nodes g) from)
        - Z.min troops (MapNode.troops (MapNode.get (Game.nodes g) from))).
Proof.
  unfold Game.sendArmy.
  assert (Same : Game.tickNumber g = Game.tickNumber g
                 /\ (forall k, k <> from ->
                       MapNode.get (Game.nodes g) k = MapNode.get (Game.nodes g) k)
                 /\ MapNode.assign (MapNode.get (Game.nodes g) from)
                    = MapNode.assign (MapNode.get (Game.nodes g) from)
                 /\ (Z.min troops (MapNode.troops (MapNode.get (Game.nodes g) from)) = 0
                     -> g = g)) by auto.
  destruct (negb (bool_decide (MapNode.team (MapNode.get (Game.nodes g) from) = team))
            || bool_decide (team = Player.Neutral)) eqn:G;
    [intros [= <- <-]; intuition discriminate |].
  destruct (Game.attacked g team from to); [intros [= <- <-]; intuition discriminate |].
  destruct (Z.eqb_spec (Z.min troops (MapNode.troops (MapNode.get (Game.nodes g) from))) 0)
    as [Z0 | NZ]; [intros [= <- <-]; intuition lia |].
  apply orb_false_iff in G. destruct G as [T N].
  apply bool_decide_eq_false in N. apply negb_false_iff, bool_decide_eq_true in T.
  pose proof (get_owned_in_range _ _ _ N T) as L.
  destruct (Game.dijkstra g from to) as [[h |] | |]; cbn [bind]; try discriminate;
    [| intros [= <- <-]; intuition discriminate].
  intros [= <- <-]. simpl. split; [reflexivity |].
  split; [intros k Nk; apply get_insert_ne; congruence |].
  rewrite get_insert_eq by exact L. simpl.
  split; [reflexivity |]. split; [intros Z0; contradiction | reflexivity].
Qed.

Lemma settled_same (g g' : Game.Game) (k : nat) :
  MapNode.get (Game.nodes g') k = MapNode.get (Game.nodes g) k -> settled g k -> settled g' k.
Proof. unfold settled. intros ->. tauto. Qed.

Lemma sendArmy_settled (g g' : Game.Game) (team : Player.Team) (from to : nat)
    (troops : Z) (ok : bool) (k : nat) :
  0 <= troops -> settled g k ->
  Game.sendArmy g team from to troops = Ok (ok, g') -> settled g' k.
Proof.
  intros T S E. destruct (sendArmy_nodes _ _ _ _ _ _ _ E) as (_ & Fr & As & Z0 & _).
  destruct (Nat.eq_dec k from) as [-> | N].
  - destruct S as [S | S].
    + left. rewrite As. exact S.
    + rewrite Z0 by lia. right. exact S.
  - apply (settled_same g); [apply Fr, N | exact S].
Qed.

Lemma tickNode_orders (i : nat) (g g' : Game.Game) :
  Game.tickNode i g = Ok g' ->
  Game.tickNumber g' = Game.tickNumber g
  /\ ordersKept (Game.nodes g) (Game.nodes g')
  /\ (forall k, k <> i -> MapNode.get (Game.nodes g') k = MapNode.get (Game.nodes g) k)
  /\ (Z.rem (Game.tickNumber g) 8 = 0 -> settled g' i).
Proof.
  unfold Game.tickNode.
  set (node1 := MapNode.tick (Game.nodes g) (MapNode.get (Game.nodes g) i) (Game.tickNumber g)).
  assert (A1 : MapNode.assign node1 = MapNode.assign (MapNode.get (Game.nodes g) i)).
  { unfold node1, MapNode.tick. destruct (_ || _); [reflexivity |].
    destruct (bool_decide _); reflexivity. }
  set (g1 := Game.set_nodes (<[i := node1]> (Game.nodes g)) g).
  assert (K1 : ordersKept (Game.nodes g) (Game.nodes g1))
    by (apply ordersKept_insert; left; exact A1).
  assert (F1 : forall k, k <> i ->
                 MapNode.get (Game.nodes g1) k = MapNode.get (Game.nodes g) k)
    by (intros k N; apply get_insert_ne; congruence).
  destruct (MapNode.assign (MapNode.get (Game.nodes g1) i)) as [target |] eqn:As.
  2: { intros [= <-]. repeat (split; [first [reflexivity | assumption] |]).
       intros _. left. exact As. }
  change (Game.tickNumber g1) with (Game.tickNumber g).
  destruct (Z.eqb_spec (Z.rem (Game.tickNumber g) 8) 0) as [E8 | N8].
  2: { intros [= <-]. repeat (split; [first [reflexivity | assumption] |]).
       intros E8. contradiction. }
  destruct (Game.sendArmy g1 _ i target _) as [[ok g2] | |] eqn:E; cbn [bind];
    try discriminate.
  destruct (sendArmy_nodes _ _ _ _ _ _ _ E) as (T2 & F2 & A2 & Z2 & S2).
  assert (K2 : ordersKept (Game.nodes g1) (Game.nodes g2)).
  { intros k. left. destruct (Nat.eq_dec k i) as [-> | N]; [exact A2 | rewrite F2; auto]. }
  destruct ok; intros [= <-].
  - split; [exact T2 |]. split; [eapply ordersKept_trans; eassumption |].
    split; [intros k N; rewrite F2, F1; auto |].
    intros _. right. rewrite (S2 eq_refl). lia.
  - simpl. split; [exact T2 |].
    split; [eapply ordersKept_trans; [exact K1 |]; eapply ordersKept_trans; [exact K2 |];
            apply ordersKept_insert; right; reflexivity |].
    split; [intros k N; rewrite get_insert_ne by congruence; rewrite F2, F1; auto |].
    intros _. unfold settled. simpl.
    destruct (Nat.lt_ge_cases i (length (Game.nodes g2))) as [L | G].
    + left. rewrite get_insert_eq by exact L. reflexivity.
    + left. rewrite list_insert_ge by exact G. unfold MapNode.get.
      rewrite lookup_ge_None_2 by exact G. reflexivity.
Qed.

Lemma sendNew_orders (order : nat * nat * Z) (g g' : Game.Game) :
  Game.sendNew order g = Ok g' ->
  ordersKept (Game.nodes g) (Game.nodes g')
  /\ (0 <= snd order -> forall k, settled g k -> settled g' k).
Proof.
  destruct order as [[to from] troops]. unfold Game.sendNew.
  destruct (Game.sendArmy g _ to from troops) as [[ok g1] | |] eqn:E; cbn [bind];
    try discriminate.
  intros [= <-]. destruct (sendArmy_nodes _ _ _ _ _ _ _ E) as (_ & Fr & As & _). split.
  - intros k. left. destruct (Nat.eq_dec k to) as [-> | N]; [exact As | rewrite (Fr k N); reflexivity].
  - simpl. intros T k S. exact (sendArmy_settled _ _ _ _ _ _ _ k T S E).
Qed.

(** X17.  The standing orders through a tick from a game that is ready for
    it: the tick returns, and no node gets a standing order or another
    target, it keeps the one it had or loses it; and when the number of the
    tick is a multiple of 8, every node that still has a standing order has
    sent all its troops. *)
Theorem standing_orders (g : Game.Game) (s : nat) :
  ready g ->
  exists g' s',
    Game.tick g s = Ok (g', s')
    /\ ordersKept (Game.nodes g) (Game.nodes g')
    /\ (Z.rem (Game.tickNumber g + 1) 8 = 0 -> forall k, settled g' k).
Proof.
  intros R. destruct (tick_keeps_ready g s R) as (g' & s' & E & _).
  exists g', s'. split; [exact E |]. destruct R as (_ & _ & N & A).
  revert E. unfold Game.tick.
  pose proof (armyTick_orders (Game.nodes g) (Game.armies g) s) as K1.
  destruct (armyTick_ok (Game.nodes g) (Game.armies g) s N A)
    as (nodes1 & newArmies & toSend & s1 & Et & _ & _ & _ & TS).
  rewrite Et in K1 |- *. simpl in K1.
  set (t := Game.tickNumber g + 1).
  set (g1 := Game.mk nodes1 t newArmies (Game.armyCounter g)).
  destruct (Game.forEach Game.tickNode _ g1) as [g2 | |] eqn:E2; cbn [bind];
    try discriminate.
  destruct (Game.forEach Game.sendNew toSend g2) as [g3 | |] eqn:E3; cbn [bind];
    try discriminate.
  intros [= <- <-].
  pose proof (forEach_seq_inv
                (fun i g0 => Game.tickNumber g0 = t
                             /\ length (Game.nodes g0) = length nodes1
                             /\ ordersKept nodes1 (Game.nodes g0)
                             /\ (Z.rem t 8 = 0 -> forall k, (k < i)%nat -> settled g0 k))
                Game.tickNode (length (Game.nodes g1))) as L2.
  destruct (L2 ltac:(intros i g0 g0' Li (T0 & Ln0 & K0 & S0) E0;
                     destruct (tickNode_orders i g0 g0' E0) as (T' & K' & F' & S');
                     destruct (tickNode_sameMap i g0 g0' E0) as [Ln' _];
                     split; [congruence |]; split; [congruence |];
                     split; [eapply ordersKept_trans; eassumption |];
                     intros E8 k Lk; destruct (Nat.eq_dec k i) as [-> | Nk];
                     [apply S'; rewrite T0; exact E8
                     | apply (settled_same g0); [apply F', Nk | apply S0; [exact E8 | lia]]])
               g1 g2 ltac:(split; [reflexivity |]; split; [reflexivity |];
                           split; [apply ordersKept_refl |];
                           intros _ k Lk; lia) E2) as (T2 & Ln2 & K2 & S2).
  assert (S2' : Z.rem t 8 = 0 -> forall k, settled g2 k).
  { intros E8 k. destruct (Nat.lt_ge_cases k (length (Game.nodes g1))) as [Lk | Gk].
    - apply S2; assumption.
    - left. unfold MapNode.get. rewrite lookup_ge_None_2; [reflexivity |].
      simpl in Gk. lia. }
  pose proof (forEach_keeps
                (fun g0 => ordersKept nodes1 (Game.nodes g0)
                           /\ (Z.rem t 8 = 0 -> forall k, settled g0 k))
                (fun order : nat * nat * Z => 0 <= snd order) Game.sendNew toSend) as L3.
  destruct (L3 ltac:(intros order g0 g0' T0 (K0 & S0) E0;
                     destruct (sendNew_orders order g0 g0' E0) as (K' & S');
                     split; [eapply ordersKept_trans; eassumption |];
                     intros E8 k; apply S'; [exact T0 | apply S0, E8])
               TS g2 g3 (conj K2 S2') E3) as (K3 & S3).
  split; [eapply ordersKept_trans; eassumption | exact S3].
Qed.

End Orders.

(** The eighth tick of the example with a standing order at node 0. *)
Lemma standing_orders_witness :
  let g := Game.mk (Game.nodes orderedGame) 7 [] 0 in
  exists g' s', @Game.tick exampleMath g 0 = Ok (g', s') /\ settled g' 0.
Proof.
  intros g.
  assert (R : @ready exampleMath g).
  { split; [apply wfNodesb_sound; reflexivity |]. split; [| split].
    - intros u v. destruct u as [| [| [| [| u]]]]; simpl;
        intros I; repeat (destruct I as [<- | I]; [vm_compute; discriminate |]); destruct I.
    - repeat constructor; simpl; lia.
    - constructor. }
  destruct (@standing_orders exampleMath g 0 R) as (g' & s' & E & _ & S).
  exists g', s'. split; [exact E |]. apply S. reflexivity.
Defined.

(** ** Room: starting, joining and leaving *)

Section Rooms.
Context `{JSMath}.

(** X18.  [startRoom] in a lobby: it throws when the room has fewer than two
    or more than six players (or a map with fewer nodes than players);
    otherwise the room is launched with a new game at tick 0 with no army,
    made with one draw for each player, and the players, the spectators and
    the teams are as they were. *)
Theorem startRoom_needs_two (map : list MapNode.MapNode) (s : nat) (r : Room.Room) :
  Room.isLaunched r = false -> Room.game r = None ->
  let n := Z.of_nat (length (Room.players r)) in
  match Room.startRoom map s r with
  | Ok (r', s') =>
      2 <= n <= 6 /\ n <= Z.of_nat (length map)
      /\ s' = (s + length (Room.players r))%nat
      /\ Room.isLaunched r' = true
      /\ (exists g, Room.game r' = Some g /\ Game.tickNumber g = 0 /\ Game.armies g = []
                    /\ length (Game.nodes g) = length map)
      /\ Room.players r' = Room.players r /\ Room.spectators r' = Room.spectators r
      /\ Room.isRunning r' = Room.isRunning r /\ Room.team r' = Room.team r
  | Throws => n < 2 \/ 6 < n \/ Z.of_nat (length map) < n
  | Diverges => False
  end.
Proof.
  intros L G n. unfold Room.startRoom, Room.hasGame. rewrite L, G. simpl.
  fold n. unfold Game.new.
  destruct (Z.ltb_spec n 2) as [L2 | G2]; simpl; [lia |].
  destruct (Z.gtb_spec n 6) as [G6 | L6]; simpl; [lia |].
  pose proof (chooseStarts_spec (Z.to_nat n) 0 (seq 0 (length map)) map s
                ltac:(apply NoDup_ListNoDup, seq_NoDup)
                ltac:(intros u I; apply in_seq in I; lia)) as C.
  rewrite length_seq in C.
  destruct (Game.chooseStarts 0 _ _ map s) as [[nodes' s'] | |]; cbn [bind].
  - destruct C as (Cn & -> & Ln & _). simpl.
    split; [lia |]. split; [lia |]. split; [unfold n; lia |]. split; [reflexivity |].
    split; [eexists; split; [reflexivity |]; simpl; auto |]. auto.
  - lia.
  - exact C.
Qed.

Lemma includes_In (player : nat) (array : list nat) :
  Room.includes player array = true <-> In player array.
Proof.
  unfold Room.includes. rewrite existsb_exists. split.
  - intros (x & I & E). apply Nat.eqb_eq in E. subst. exact I.
  - intros I. exists player. split; [exact I | apply Nat.eqb_refl].
Qed.

Lemma splice_delete (array : list nat) (j player : nat) :
  NoDup array -> array !! j = Some player -> Room.splice player array = delete j array.
Proof.
  revert j. induction array as [| x array IH]; intros j N L; [discriminate |].
  apply NoDup_cons in N. destruct N as [Nx N]. simpl.
  destruct j as [| j]; simpl in L.
  - injection L as ->. rewrite Nat.eqb_refl. reflexivity.
  - destruct (Nat.eqb_spec x player) as [-> | Ne].
    + exfalso. apply Nx. eapply list_elem_of_lookup_2, L.
    + simpl. f_equal. apply IH; assumption.
Qed.

Lemma splice_In (array : list nat) (player x : nat) :
  In x (Room.splice player array) -> In x array.
Proof.
  induction array as [| y array IH]; simpl; [tauto |].
  destruct (y =? player)%nat; simpl; tauto.
Qed.

Lemma length_splice (array : list nat) (player : nat) :
  In player array -> S (length (Room.splice player array)) = length array.
Proof.
  induction array as [| y array IH]; simpl; [tauto |].
  destruct (Nat.eqb_spec y player) as [-> | Ne]; [reflexivity |].
  intros [E | I]; [congruence |]. simpl. rewrite IH by exact I. reflexivity.
Qed.

(** X19.  The teams of the players of a lobby.  While players only join, the
    team of each is its rank in the room, so no two have the same.  But a
    player who joins after another than the last has left gets the team of
    the last: two players of the room then have the same team. *)
Theorem teams_collide (r : Room.Room) (j p q : nat) :
  lobby r -> NoDup (Room.players r) -> ranked r -> ~ In q (Room.players r) ->
  (Z.of_nat (length (Room.players r)) < Room.maxPlayers r ->
   lobby (Room.addPlayer q r) /\ NoDup (Room.players (Room.addPlayer q r))
   /\ ranked (Room.addPlayer q r)
   /\ Room.players (Room.addPlayer q r) = Room.players r ++ [q])
  /\ (Room.players r !! j = Some p -> (S j < length (Room.players r))%nat ->
      Z.of_nat (length (Room.players r)) - 1 < Room.maxPlayers r ->
      exists r1 last,
        Room.removePlayer 3 p r = Ok r1
        /\ lobby (Room.addPlayer q r1)
        /\ In q (Room.players (Room.addPlayer q r1))
        /\ In last (Room.players (Room.addPlayer q r1))
        /\ last <> q
        /\ Room.team (Room.addPlayer q r1) last = Room.team (Room.addPlayer q r1) q).
Proof.
  intros (L1 & L2 & L3) N Rk Nq. split.
  - intros M. unfold Room.addPlayer, Room.hasGame. rewrite L1, L2, L3. simpl.
    destruct (Z.geb_spec (Z.of_nat (length (Room.players r))) (Room.maxPlayers r)); [lia |].
    simpl. split; [repeat split; assumption |].
    split; [apply NoDup_app; split; [exact N |]; split;
            [intros x I J; apply list_elem_of_singleton in J; subst;
             apply Nq, list_elem_of_In, I | apply NoDup_singleton] |].
    split; [| reflexivity].
    intros i x Lx. simpl in Lx |- *. rewrite length_app. simpl.
    destruct (Nat.eqb_spec x q) as [-> | Ne].
    + destruct (Nat.lt_ge_cases i (length (Room.players r))) as [Li | Gi].
      * exfalso. apply Nq. rewrite lookup_app_l in Lx by exact Li.
        apply list_elem_of_In. eapply list_elem_of_lookup_2, Lx.
      * pose proof (lookup_lt_Some _ _ _ Lx) as Lt. rewrite length_app in Lt. simpl in Lt. lia.
    + apply Rk. destruct (Nat.lt_ge_cases i (length (Room.players r))) as [Li | Gi].
      * rewrite lookup_app_l in Lx by exact Li. exact Lx.
      * rewrite lookup_app_r in Lx by exact Gi.
        destruct (i - length (Room.players r))%nat; simpl in Lx; [congruence | discriminate].
  - intros Lp Lj M.
    assert (Ip : In p (Room.players r)) by (apply list_elem_of_In; eapply list_elem_of_lookup_2, Lp).
    destruct (lookup_lt_is_Some_2 (Room.players r) (length (Room.players r) - 1) ltac:(lia))
      as [last Ll].
    pose proof (length_splice _ _ Ip) as Ls.
    assert (Npl : last <> p).
    { intros ->. pose proof (NoDup_lookup _ _ _ _ N Lp Ll). lia. }
    assert (Nql : last <> q).
    { intros ->. apply Nq, list_elem_of_In. eapply list_elem_of_lookup_2, Ll. }
    eexists _, last. split.
    { simpl. rewrite (proj2 (includes_In _ _) Ip). simpl. rewrite L3. simpl.
      destruct (Nat.eqb_spec (length (Room.splice p (Room.players r))) 0); [lia |]. reflexivity. }
    unfold Room.addPlayer, Room.hasGame. simpl. rewrite L1, L2, L3. simpl.
    destruct (Z.geb_spec (Z.of_nat (length (Room.splice p (Room.players r))))
                (Room.maxPlayers r)); [lia |].
    simpl. split; [repeat split; assumption |].
    split; [apply in_or_app; right; left; reflexivity |].
    split.
    { apply in_or_app. left. rewrite (splice_delete _ j p N Lp).
      apply list_elem_of_In. apply (list_elem_of_lookup_2 _ (length (Room.players r) - 2)).
      rewrite list_lookup_delete_ge by lia.
      replace (S (length (Room.players r) - 2)) with (length (Room.players r) - 1)%nat by lia.
      exact Ll. }
    split; [exact Nql |].
    rewrite Nat.eqb_refl. destruct (Nat.eqb_spec last q) as [E | _]; [contradiction |].
    destruct (Nat.eqb_spec last p) as [E | _]; [contradiction |].
    rewrite (Rk _ _ Ll), length_app. simpl. lia.
Qed.

Lemma removePlayer_watching (fuel player : nat) (r : Room.Room) :
  Room.includes player (Room.players r) = false ->
  Room.removePlayer (S fuel) player r
  = if Room.includes player (Room.spectators r)
    then Ok (Room.set_spectators [player] r) else Ok r.
Proof. intros E. simpl. rewrite E. reflexivity. Qed.

Lemma spectatorsLoop_step (body : nat -> Room.Room -> result Room.Room) (n : nat)
    (array : list nat) (aliased : bool) (i : nat) (r : Room.Room) (spectator : nat) :
  array !! i = Some spectator ->
  Room.spectatorsLoop body (S n) array aliased i r
  = let taken := aliased && negb (Room.includes spectator (Room.players r)) in
    let* r' := body spectator r in
    Room.spectatorsLoop body n (if taken then Room.splice spectator array else array)
                        (aliased && negb taken) (S i) r'.
Proof. intros E. simpl. rewrite E. reflexivity. Qed.

Lemma set_spectators_same (r : Room.Room) (v : list nat) :
  Room.spectators r = v -> Room.set_spectators v r = r.
Proof. intros <-. destruct r. reflexivity. Qed.

(** Once [this.spectators] is a new array with one spectator, and nobody
    plays, the rest of the loop of [stopRoom] over the old array does
    nothing. *)
Lemma spectatorsLoop_fixed (fuel : nat) (first : nat) (n : nat) :
  forall (array : list nat) (i : nat) (r : Room.Room),
  (length array <= n + i)%nat -> Room.players r = [] -> Room.spectators r = [first] ->
  Room.spectatorsLoop (Room.removePlayer (S fuel)) n array false i r = Ok r.
Proof.
  induction n as [| n IH]; intros array i r Ln P S1; simpl;
    destruct (array !! i) as [x |] eqn:La; try reflexivity.
  - apply lookup_lt_Some in La. lia.
  - rewrite P, S1. simpl.
    assert (E : (if (x =? first)%nat || false then Ok (Room.set_spectators [x] r) else Ok r)
                = Ok r).
    { destruct (Nat.eqb_spec x first) as [-> | Ne]; simpl; [| reflexivity].
      rewrite (set_spectators_same r [first] S1). reflexivity. }
    rewrite E. cbn [bind]. apply IH; [lia | exact P | exact S1].
Qed.

Lemma pauseGame_keeps (r : Room.Room) :
  Room.players (Room.pauseGame r) = Room.players r
  /\ Room.spectators (Room.pauseGame r) = Room.spectators r
  /\ Room.maxPlayers (Room.pauseGame r) = Room.maxPlayers r
  /\ Room.team (Room.pauseGame r) = Room.team r.
Proof. unfold Room.pauseGame. destruct (_ || _); simpl; auto. Qed.

(** [stopRoom] of a launched room that nobody plays in. *)
Lemma stopRoom_last (fuel : nat) (r : Room.Room) :
  Room.players r = [] -> Room.isLaunched r = true ->
  exists r',
    Room.stopRoom (S (S fuel)) r = Ok r'
    /\ Room.players r' = [] /\ Room.game r' = None /\ Room.isLaunched r' = false
    /\ Room.spectators r' = take 1 (Room.spectators r)
    /\ Room.maxPlayers r' = Room.maxPlayers r /\ Room.team r' = Room.team r.
Proof.
  intros P L. cbn [Room.stopRoom]. rewrite L. cbn [negb].
  set (r1 := if Room.isRunning r then Room.pauseGame r else r).
  assert (K : Room.players r1 = [] /\ Room.spectators r1 = Room.spectators r
              /\ Room.maxPlayers r1 = Room.maxPlayers r /\ Room.team r1 = Room.team r).
  { unfold r1. destruct (Room.isRunning r); [| auto].
    destruct (pauseGame_keeps r) as (A & B & C & D). rewrite A, B, C, D. auto. }
  destruct K as (P1 & S1 & M1 & T1).
  set (r2 := Room.set_isLaunched false (Room.set_game None r1)).
  assert (P2 : Room.players r2 = []) by exact P1.
  assert (S2 : Room.spectators r2 = Room.spectators r) by exact S1.
  rewrite P2. cbn [length Room.playersLoop]. rewrite P2. cbn [lookup]. simpl list_lookup.
  cbn [bind]. rewrite S2.
  destruct (Room.spectators r) as [| first rest] eqn:Sp.
  - exists r2. simpl. repeat split; try assumption; try (rewrite S2; reflexivity).
  - exists (Room.set_spectators [first] r2).
    split; [| simpl; repeat split; assumption].
    cbn [length]. rewrite (spectatorsLoop_step _ _ (first :: rest) _ 0 _ first eq_refl).
    cbv zeta. rewrite removePlayer_watching by (rewrite P2; reflexivity).
    rewrite P2, S2. cbn [Room.includes existsb negb andb Room.splice].
    rewrite Nat.eqb_refl. cbn [orb bind negb andb].
    apply (spectatorsLoop_fixed fuel first); [lia | exact P2 | reflexivity].
Qed.

(** X20.  [removePlayer] returns, whatever the room, and changes the team of
    nobody else.  A player who leaves is taken out of the players, gets the
    neutral team, and forfeits the game if there is one; when the last
    player of a launched room leaves, the room stops: no game, not launched,
    and of its spectators the first only is kept.  A spectator who leaves is
    the only spectator the room keeps. *)
Theorem removePlayer_spec (fuel player : nat) (r : Room.Room) :
  exists r',
    Room.removePlayer (3 + fuel) player r = Ok r'
    /\ Room.maxPlayers r' = Room.maxPlayers r
    /\ (forall q, q <> player -> Room.team r' q = Room.team r q)
    /\ (In player (Room.players r) ->
        Room.players r' = Room.splice player (Room.players r)
        /\ Room.team r' player = 0
        /\ (Room.players r' <> [] \/ Room.isLaunched r = false ->
            Room.spectators r' = Room.spectators r
            /\ Room.isLaunched r' = Room.isLaunched r
            /\ Room.isRunning r' = Room.isRunning r
            /\ Room.game r'
               = match Room.game r with
                 | Some g => Some (Room.forfeitNumber g (Room.team r player))
                 | None => None
                 end)
        /\ (Room.players r' = [] -> Room.isLaunched r = true ->
            Room.game r' = None /\ Room.isLaunched r' = false
            /\ Room.spectators r' = take 1 (Room.spectators r)))
    /\ (~ In player (Room.players r) -> In player (Room.spectators r) ->
        r' = Room.set_spectators [player] r)
    /\ (~ In player (Room.players r) -> ~ In player (Room.spectators r) -> r' = r).
Proof.
  change (3 + fuel)%nat with (S (S (S fuel))). cbn [Room.removePlayer].
  destruct (Room.includes player (Room.players r)) eqn:Ip.
  - apply includes_In in Ip.
    set (r1 := Room.set_players (Room.splice player (Room.players r)) r).
    set (r2 := match Room.game r1 with
               | Some g => Room.set_game (Some (Room.forfeitNumber g (Room.team r1 player))) r1
               | None => r1
               end).
    set (r3 := Room.set_team player 0 r2).
    assert (K : Room.players r3 = Room.splice player (Room.players r)
                /\ Room.spectators r3 = Room.spectators r
                /\ Room.isLaunched r3 = Room.isLaunched r
                /\ Room.isRunning r3 = Room.isRunning r
                /\ Room.maxPlayers r3 = Room.maxPlayers r
                /\ Room.game r3 = match Room.game r with
                                  | Some g => Some (Room.forfeitNumber g (Room.team r player))
                                  | None => None
                                  end
                /\ Room.team r3 player = 0
                /\ (forall q, q <> player -> Room.team r3 q = Room.team r q)).
    { unfold r3, r2, r1. simpl. destruct (Room.game r) eqn:G; simpl;
        rewrite ?G, Nat.eqb_refl;
        do 7 (split; [reflexivity |]);
        intros q Nq; destruct (Nat.eqb_spec q player); first [contradiction | reflexivity]. }
    destruct K as (Kp & Ks & Kl & Kr & Km & Kg & Kt & Ko).
    destruct (Nat.eqb_spec (length (Room.players r3)) 0) as [E0 | N0].
    + apply length_zero_iff_nil in E0.
      destruct (Room.isLaunched r) eqn:L.
      * destruct (stopRoom_last fuel r3 E0 ltac:(congruence))
          as (r' & -> & P' & G' & L' & S' & M' & T').
        exists r'. split; [reflexivity |]. split; [congruence |].
        split; [intros q Nq; rewrite T'; apply Ko, Nq |].
        split; [| split; intros Np; contradiction].
        intros _. split; [congruence |]. split; [rewrite T'; exact Kt |].
        split; [intros [Ne | Lf]; [rewrite P' in Ne; contradiction | discriminate] |].
        intros _ _. rewrite S', Ks. auto.
      * cbn [Room.stopRoom]. rewrite Kl. cbn [negb].
        exists r3. split; [reflexivity |]. split; [exact Km |]. split; [exact Ko |].
        split; [| split; intros Np; contradiction].
        intros _. split; [exact Kp |]. split; [exact Kt |].
        split; [intros _; auto | intros _ Lt; discriminate].
    + exists r3. split; [reflexivity |]. split; [exact Km |]. split; [exact Ko |].
      split; [| split; intros Np; contradiction].
      intros _. split; [exact Kp |]. split; [exact Kt |].
      split; [intros _; auto |].
      intros E. rewrite E in N0. simpl in N0. contradiction.
  - assert (Np : ~ In player (Room.players r)).
    { intros I. apply includes_In in I. congruence. }
    destruct (Room.includes player (Room.spectators r)) eqn:Is.
    + exists (Room.set_spectators [player] r). split; [reflexivity |].
      split; [reflexivity |]. split; [reflexivity |].
      split; [intros I; contradiction |]. split; [reflexivity |].
      intros _ Ns. exfalso. apply Ns, includes_In, Is.
    + exists r. split; [reflexivity |]. split; [reflexivity |]. split; [reflexivity |].
      split; [intros I; contradiction |]. split; [| reflexivity].
      intros _ I. apply includes_In in I. congruence.
Qed.

End Rooms.

(** Two players start a room on the four nodes of the example; one alone
    can not. *)
Lemma startRoom_needs_two_witness :
  let room players := Room.mk players [] false false None false 6 (fun p => Z.of_nat p - 9) in
  (exists r' s',
     @Room.startRoom exampleMath (Game.nodes exampleGame) 0 (room [10; 11]%nat) = Ok (r', s')
     /\ Room.isLaunched r' = true /\ s' = 2%nat)
  /\ @Room.startRoom exampleMath (Game.nodes exampleGame) 0 (room [10]%nat) = Throws.
Proof.
  intros room. split; [| reflexivity].
  pose proof (@startRoom_needs_two exampleMath (Game.nodes exampleGame) 0 (room [10; 11]%nat)
                eq_refl eq_refl) as T.
  destruct (@Room.startRoom exampleMath (Game.nodes exampleGame) 0 (room [10; 11]%nat))
    as [[r' s'] | |] eqn:E.
  - exists r', s'. split; [reflexivity |]. destruct T as (_ & _ & -> & L & _). auto.
  - exfalso. simpl in T. lia.
  - destruct T.
Defined.

(** Players 10, 11 and 12 have the teams 1, 2 and 3; 10 leaves and 13 joins:
    13 gets the team 3 that 12 has. *)
Lemma teams_collide_witness :
  let r := Room.mk [10; 11; 12]%nat [] false false None false 6 (fun p => Z.of_nat p - 9) in
  exists r1 last,
    Room.removePlayer 3 10 r = Ok r1
    /\ In last (Room.players (Room.addPlayer 13 r1))
    /\ (last =? 13)%nat = false
    /\ Room.team (Room.addPlayer 13 r1) last = Room.team (Room.addPlayer 13 r1) 13%nat.
Proof.
  intros r.
  destruct (teams_collide r 0 10 13) as [_ C].
  - repeat split.
  - apply NoDup_ListNoDup. repeat constructor; simpl; lia.
  - intros [| [| [| i]]] player; simpl; intros [= <-]; reflexivity.
  - simpl. lia.
  - destruct (C eq_refl ltac:(simpl; lia) ltac:(simpl; lia))
      as (r1 & last & E & _ & _ & I & N & T).
    exists r1, last. split; [exact E |]. split; [exact I |].
    split; [apply Nat.eqb_neq, N | exact T].
Defined.

(** A room with two spectators: when the first leaves, the room keeps that
    one as its only spectator. *)
Lemma removePlayer_spec_witness :
  let r := Room.mk [10]%nat [20; 21]%nat true false None false 6 (fun p => 0) in
  exists r',
    Room.removePlayer 3 20 r = Ok r' /\ Room.spectators r' = [20%nat].
Proof.
  intros r.
  destruct (removePlayer_spec 0 20 r) as (r' & E & _ & _ & _ & S & _).
  exists r'. split; [exact E |]. rewrite S; [reflexivity | simpl; lia | simpl; lia].
Defined.

(** ** Room: the flags of a room *)

Section RoomFlags.
Context `{JSMath}.

Lemma new_game_cases (map : list MapNode.MapNode) (nPlayers : Z) (s : nat) :
  match Game.new map nPlayers s with
  | Ok _ => 2 <= nPlayers <= 6
  | _ => True
  end.
Proof.
  unfold Game.new.
  destruct (Z.ltb_spec nPlayers 2), (Z.gtb_spec nPlayers 6); simpl; try exact I.
  destruct (Game.chooseStarts _ _ _ _ _) as [[nodes s'] | |]; cbn [bind]; [lia | exact I | exact I].
Qed.

(** [stopRoom] of a launched room that nobody plays in, in full. *)
Lemma stopRoom_empty (fuel : nat) (r : Room.Room) :
  Room.players r = [] -> Room.isLaunched r = true ->
  Room.stopRoom (S (S fuel)) r
  = Ok (Room.set_spectators (take 1 (Room.spectators r))
          (Room.set_isLaunched false
             (Room.set_game None (if Room.isRunning r then Room.pauseGame r else r)))).
Proof.
  intros P L. cbn [Room.stopRoom]. rewrite L. cbn [negb].
  set (r1 := if Room.isRunning r then Room.pauseGame r else r).
  assert (K : Room.players r1 = [] /\ Room.spectators r1 = Room.spectators r).
  { unfold r1. destruct (Room.isRunning r); [| auto].
    destruct (pauseGame_keeps r) as (A & B & _). rewrite A, B. auto. }
  destruct K as (P1 & S1).
  set (r2 := Room.set_isLaunched false (Room.set_game None r1)).
  assert (P2 : Room.players r2 = []) by exact P1.
  assert (S2 : Room.spectators r2 = Room.spectators r) by exact S1.
  rewrite P2. cbn [length Room.playersLoop]. rewrite P2. cbn [lookup]. simpl list_lookup.
  cbn [bind]. rewrite S2.
  destruct (Room.spectators r) as [| first rest] eqn:Sp.
  - simpl. rewrite (set_spectators_same r2 [] S2). reflexivity.
  - cbn [length]. rewrite (spectatorsLoop_step _ _ (first :: rest) _ 0 _ first eq_refl).
    cbv zeta. rewrite removePlayer_watching by (rewrite P2; reflexivity).
    rewrite P2, S2. cbn [Room.includes existsb negb andb Room.splice].
    rewrite Nat.eqb_refl. cbn [orb bind negb andb].
    apply (spectatorsLoop_fixed fuel first); [lia | exact P2 | reflexivity].
Qed.

(** X21.  The flags of a room agree, and go on agreeing: a room that has a
    game exactly when it is launched and a timer exactly when it is running,
    that runs only when launched and is launched only while somebody plays,
    is still so after [addPlayer], [removePlayer], [startRoom], [runGame]
    and [pauseGame].  When nobody plays any more after [removePlayer], the
    room is at rest: no game, not launched, not running.  And [pauseGame]
    undoes [runGame] in a room that was not running. *)
Theorem room_coherent (r : Room.Room) (player fuel : nat)
    (map : list MapNode.MapNode) (s : nat) :
  coherent r ->
  coherent (Room.addPlayer player r)
  /\ coherent (Room.runGame r) /\ coherent (Room.pauseGame r)
  /\ (forall r' s', Room.startRoom map s r = Ok (r', s') -> coherent r')
  /\ (exists r', Room.removePlayer (3 + fuel) player r = Ok r' /\ coherent r'
                 /\ (Room.players r' = [] ->
                     Room.game r' = None /\ Room.isLaunched r' = false
                     /\ Room.isRunning r' = false))
  /\ (Room.isRunning r = false -> Room.pauseGame (Room.runGame r) = r).
Proof.
  intros (C1 & C2 & C3 & C4).
  split; [| split; [| split; [| split; [| split]]]].
  - unfold Room.addPlayer. destruct (_ || _); simpl.
    + repeat split; assumption.
    + repeat split; try assumption. intros _ E. destruct (Room.players r); discriminate.
  - unfold Room.runGame.
    destruct (Room.hasGame r) eqn:G, (Room.isLaunched r) eqn:L, (Room.isRunning r) eqn:R;
      simpl; unfold coherent; simpl; rewrite ?G, ?L, ?R; repeat split; auto.
  - unfold Room.pauseGame.
    destruct (Room.hasGame r) eqn:G, (Room.isLaunched r) eqn:L, (Room.isRunning r) eqn:R,
      (Room.tickInterval r) eqn:T;
      simpl; unfold coherent; simpl; rewrite ?G, ?L, ?R, ?T; repeat split; auto;
      try discriminate; intros; discriminate.
  - intros r' s'. unfold Room.startRoom.
    destruct (Room.isLaunched r || Room.hasGame r) eqn:E.
    + intros [= <- <-]. repeat split; assumption.
    + pose proof (new_game_cases map (Z.of_nat (length (Room.players r))) s) as N.
      destruct (Game.new map _ s) as [[g s1] | |]; cbn [bind]; try discriminate.
      intros [= <- <-]. unfold coherent. simpl.
      apply orb_false_iff in E. destruct E as [L _].
      split; [reflexivity |]. split; [exact C2 |]. split; [intros _; reflexivity |].
      intros _ P. rewrite P in N. simpl in N. lia.
  - change (3 + fuel)%nat with (S (S (S fuel))). cbn [Room.removePlayer].
    destruct (Room.includes player (Room.players r)) eqn:Ip.
    + set (r1 := Room.set_players (Room.splice player (Room.players r)) r).
      set (r2 := match Room.game r1 with
                 | Some g => Room.set_game (Some (Room.forfeitNumber g (Room.team r1 player))) r1
                 | None => r1
                 end).
      set (r3 := Room.set_team player 0 r2).
      assert (K : Room.players r3 = Room.splice player (Room.players r)
                  /\ Room.isLaunched r3 = Room.isLaunched r
                  /\ Room.isRunning r3 = Room.isRunning r
                  /\ Room.tickInterval r3 = Room.tickInterval r
                  /\ Room.hasGame r3 = Room.hasGame r
                  /\ (Room.game r = None -> Room.game r3 = None)).
      { unfold r3, r2, r1, Room.hasGame. simpl. destruct (Room.game r) eqn:G; simpl;
          rewrite ?G; repeat split; auto; discriminate. }
      destruct K as (Kp & Kl & Kr & Kt & Kg & Kn).
      destruct (Nat.eqb_spec (length (Room.players r3)) 0) as [E0 | N0].
      * apply length_zero_iff_nil in E0.
        destruct (Room.isLaunched r) eqn:L.
        -- rewrite (stopRoom_empty fuel r3 E0 ltac:(congruence)).
           set (r4 := if Room.isRunning r3 then Room.pauseGame r3 else r3).
           eexists. split; [reflexivity |].
           assert (R' : Room.isRunning r4 = false /\ Room.tickInterval r4 = false
                        /\ Room.players r4 = []).
           { unfold r4, Room.pauseGame. rewrite C2 in Kt. rewrite Kg, Kl, Kr, Kt, C1.
             destruct (Room.isRunning r) eqn:R; simpl;
               repeat split; first [reflexivity | exact E0 | exact Kr | exact Kt]. }
           destruct R' as (R1 & R2 & R3).
           unfold coherent, Room.hasGame. simpl. rewrite R1, R2, R3.
           repeat split; auto; discriminate.
        -- cbn [Room.stopRoom]. rewrite Kl. cbn [negb].
           exists r3. split; [reflexivity |].
           assert (Rn : Room.isRunning r = false).
           { destruct (Room.isRunning r); [discriminate (C3 eq_refl) | reflexivity]. }
           assert (Gn : Room.game r = None).
           { unfold Room.hasGame in C1. destruct (Room.game r); [discriminate | reflexivity]. }
           split.
           ++ unfold coherent. rewrite Kg, Kl, Kr, Kt, C1, C2, Rn.
              repeat split; auto; discriminate.
           ++ intros _. rewrite Kr, Kl. auto.
      * exists r3. split; [reflexivity |]. split.
        -- unfold coherent. rewrite Kg, Kl, Kr, Kt.
           repeat split; try assumption. intros _ E. rewrite E in N0. simpl in N0. lia.
        -- intros E. rewrite E in N0. simpl in N0. lia.
    + assert (Idle : Room.players r = [] ->
                     Room.game r = None /\ Room.isLaunched r = false
                     /\ Room.isRunning r = false).
      { intros P. destruct (Room.isLaunched r) eqn:L; [destruct (C4 eq_refl P) |].
        unfold Room.hasGame in C1.
        split; [destruct (Room.game r); [discriminate | reflexivity] |].
        split; [reflexivity |].
        destruct (Room.isRunning r); [discriminate (C3 eq_refl) | reflexivity]. }
      destruct (Room.includes player (Room.spectators r)).
      * eexists. split; [reflexivity |]. split; [repeat split; assumption | exact Idle].
      * eexists. split; [reflexivity |]. split; [repeat split; assumption | exact Idle].
  - intros R. unfold Room.runGame.
    destruct (negb (Room.hasGame r) || negb (Room.isLaunched r) || Room.isRunning r) eqn:E.
    + unfold Room.pauseGame. rewrite R. simpl. rewrite orb_true_r. reflexivity.
    + unfold Room.pauseGame. simpl.
      apply orb_false_iff in E. destruct E as [E _].
      apply orb_false_iff in E. destruct E as [E1 E2].
      apply negb_false_iff in E1, E2. unfold Room.hasGame in *. simpl. rewrite E1, E2. simpl.
      unfold Room.set_running. simpl. destruct r; simpl in *. subst. reflexivity.
Qed.

End RoomFlags.

(** A running room from which its only player goes. *)
Lemma room_coherent_witness :
  let r := Room.mk [10]%nat [20; 21]%nat true true (Some exampleGame) true 6 (fun _ => 1) in
  exists r', Room.removePlayer 3 10 r = Ok r' /\ coherent r'.
Proof.
  intros r.
  destruct (@room_coherent exampleMath r 10 0 [] 0) as (_ & _ & _ & _ & (r' & E & C & _) & _).
  - repeat split; simpl; intros; discriminate.
  - exists r'. split; [exact E | exact C].
Defined.
